(** * ObjRecRANSAC: the pose-hypothesis engine of
      [pcl/recognition/ransac_based/obj_rec_ransac.h]

    A shallow embedding of the inline code of the header.

    Numbers.  [float] and [double] values are read as real numbers ([R]):
    the arithmetic of the header is modelled exactly, without rounding,
    infinities or NaN.  An operation that C++ leaves without a finite value
    (logarithm of a non-positive number, a quotient by zero, an arccosine
    outside [-1,1], a conversion to [int] that does not fit) is written out
    as a failure ([None]) where the code performs it.  [int] is a 32-bit
    two's complement integer carried as a [Z], with the wrap-around of [++]
    and [+=] written out.

    Pointers.  A [const ModelLibrary::Model*] is the address of a model, a
    key of the [std::map] of a cell.  [Hypothesis*] values of
    [accepted_hypotheses_] are addresses into a store of hypotheses.

    The header includes [auxiliary.h], [orr_octree.h],
    [orr_octree_zprojection.h] and [model_library.h]; what it calls in them
    is modelled in the modules [aux], [ORROctree], [ORROctreeZProjection] and
    [ModelLibrary] below. *)

From stdpp Require Import gmap strings list fin_maps.
From Stdlib Require Import ZArith Reals Lra Lia RNsatz.

(* ===================================================================== *)
(** * Scalars and small arrays *)
(* ===================================================================== *)

(** [float v[3]] *)
Record vec3 : Type := V3 { e0 : R; e1 : R; e2 : R }.

(** [float m[9]], row major; also [float m[3][3]], with [m[i][j]] the
    field of index [3*i+j]. *)
Record mat3 : Type := M3 {
  m00 : R; m01 : R; m02 : R;
  m10 : R; m11 : R; m12 : R;
  m20 : R; m21 : R; m22 : R }.

(** [int id[3]] *)
Definition int3 : Type := (Z * Z * Z)%type.

(** ** The [int] type *)

Definition INT_MAX : Z := 2147483647.
Definition INT_MIN : Z := -2147483648.

(** The value of a mathematical integer once stored in an [int]. *)
Definition int_wrap (z : Z) : Z := ((z + 2147483648) mod 4294967296 - 2147483648)%Z.

(** [++i] *)
Definition int_incr (i : Z) : Z := int_wrap (i + 1).

(** [i += j] *)
Definition int_add (i j : Z) : Z := int_wrap (i + j).

(** [static_cast<int> (d)] for a [double] [d]: the fractional part is
    discarded (truncation toward zero); the conversion has no value when the
    truncated number is not an [int]. *)
Definition Ztrunc (d : R) : Z :=
  if Rle_dec 0 d then Zfloor d else Zceil d.

Definition static_cast_int (d : R) : option Z :=
  let z := Ztrunc d in
  if ((INT_MIN <=? z) && (z <=? INT_MAX))%Z then Some z else None.

(** [log (d)] of <cmath>: a finite number only for a positive argument. *)
Definition log (d : R) : option R :=
  if Rlt_dec 0 d then Some (ln d) else None.

(** [std::acos (d)]: a number only for an argument of [-1,1]. *)
Definition std_acos (d : R) : option R :=
  if Rle_dec (-1) d then (if Rle_dec d 1 then Some (acos d) else None) else None.

(** [a < b] on [float] *)
Definition Rltb (a b : R) : bool := if Rlt_dec a b then true else false.

(** [a / b]: finite only for a non-zero divisor. *)
Definition fdiv (a b : R) : option R :=
  if Req_dec_T b 0 then None else Some (a / b)%R.

(* ===================================================================== *)
(** * [namespace aux] *)
(* ===================================================================== *)

Module aux.
Local Open Scope R_scope.

(** Modelled from the spec: [auxiliary.h] is not among the sources.  The
    header names it [AUX_PI_FLOAT]; the rotation space is bounded by it. *)
Definition AUX_PI_FLOAT : R := PI.

(** Modelled from the spec: [auxiliary.h] is not among the sources.  The
    factor from degrees to radians ([6.0f*AUX_DEG_TO_RADIANS] is the edge of
    a voxel of the rotation space, [degrees*AUX_DEG_TO_RADIANS] the
    coplanarity threshold). *)
Definition AUX_DEG_TO_RADIANS : R := PI / 180.

(** Modelled from the spec: [auxiliary.h] is not among the sources.
    [set3 (v, value)] stores [value] in each component of [v]. *)
Definition set3 (value : R) : vec3 := V3 value value value.

(** Modelled from the spec: [auxiliary.h] is not among the sources.
    [copy3 (src, dst)] copies the three components. *)
Definition copy3 {A : Type} (src : A) : A := src.

(** Modelled from the spec: [auxiliary.h] is not among the sources.
    [add3 (a, b)] is [a += b], by component ("axis_angle += v"). *)
Definition add3 (a b : vec3) : vec3 :=
  V3 (e0 a + e0 b) (e1 a + e1 b) (e2 a + e2 b).

(** Modelled from the spec: [auxiliary.h] is not among the sources.
    [mult3 (v, scalar)] is [v *= scalar], by component. *)
Definition mult3 (v : vec3) (scalar : R) : vec3 :=
  V3 (e0 v * scalar) (e1 v * scalar) (e2 v * scalar).

(** Modelled from the spec: [auxiliary.h] is not among the sources.
    [sum3 (a, b, c)] is [c = a + b]. *)
Definition sum3 (a b : vec3) : vec3 :=
  V3 (e0 a + e0 b) (e1 a + e1 b) (e2 a + e2 b).

(** Modelled from the spec: [auxiliary.h] is not among the sources.
    [diff3 (a, b, c)] is [c = a - b]. *)
Definition diff3 (a b : vec3) : vec3 :=
  V3 (e0 a - e0 b) (e1 a - e1 b) (e2 a - e2 b).

(** Modelled from the spec: [auxiliary.h] is not among the sources.
    The dot product. *)
Definition dot3 (a b : vec3) : R :=
  e0 a * e0 b + e1 a * e1 b + e2 a * e2 b.

(** Modelled from the spec: [auxiliary.h] is not among the sources.
    [cross3 (v1, v2, out)] is [out = v1 x v2] ("z-axis = x×y"). *)
Definition cross3 (v1 v2 : vec3) : vec3 :=
  V3 (e1 v1 * e2 v2 - e2 v1 * e1 v2)
     (e2 v1 * e0 v2 - e0 v1 * e2 v2)
     (e0 v1 * e1 v2 - e1 v1 * e0 v2).

(** Modelled from the spec: [auxiliary.h] is not among the sources.
    The Euclidean length. *)
Definition length3 (v : vec3) : R := sqrt (dot3 v v).

(** Modelled from the spec: [auxiliary.h] is not among the sources.
    [normalize3 (v)] scales [v] by the inverse of its length ("unit").  The
    null vector has no unit vector: the quotient [1/length] has no finite
    value ("division by zero"). *)
Definition normalize3 (v : vec3) : option vec3 :=
  inv_len ← fdiv 1 (length3 v);
  Some (V3 (e0 v * inv_len) (e1 v * inv_len) (e2 v * inv_len)).

(** Modelled from the spec: [auxiliary.h] is not among the sources.
    [projectOnPlane3 (x, planeNormal, out)] projects [x] on the plane
    through the origin with the unit normal [planeNormal] ("projected onto
    the plane orthogonal to x"). *)
Definition projectOnPlane3 (x planeNormal : vec3) : vec3 :=
  let dot := dot3 planeNormal x in
  let nproj := V3 (- dot * e0 planeNormal) (- dot * e1 planeNormal) (- dot * e2 planeNormal) in
  sum3 x nproj.

(** Modelled from the spec: [auxiliary.h] is not among the sources.
    [clamp (value, min, max)] ("clamped to [−1,1]"). *)
Definition clamp (value min max : R) : R :=
  if Rlt_dec value min then min
  else if Rlt_dec max value then max
  else value.

(** Modelled from the spec: [auxiliary.h] is not among the sources.
    [mult3x3 (x, y, z, m, out)] is [out = [x|y|z]*m], with [x], [y], [z] the
    columns of the left factor and [out] row major. *)
Definition mult3x3_cols (x y z : vec3) (m : mat3) : mat3 :=
  M3 (e0 x * m00 m + e0 y * m10 m + e0 z * m20 m)
     (e0 x * m01 m + e0 y * m11 m + e0 z * m21 m)
     (e0 x * m02 m + e0 y * m12 m + e0 z * m22 m)
     (e1 x * m00 m + e1 y * m10 m + e1 z * m20 m)
     (e1 x * m01 m + e1 y * m11 m + e1 z * m21 m)
     (e1 x * m02 m + e1 y * m12 m + e1 z * m22 m)
     (e2 x * m00 m + e2 y * m10 m + e2 z * m20 m)
     (e2 x * m01 m + e2 y * m11 m + e2 z * m21 m)
     (e2 x * m02 m + e2 y * m12 m + e2 z * m22 m).

(** Modelled from the spec: [auxiliary.h] is not among the sources.
    [mult3x3 (m, v, out)] is [out = m*v] for a row major [m]. *)
Definition mult3x3 (m : mat3) (v : vec3) : vec3 :=
  V3 (m00 m * e0 v + m01 m * e1 v + m02 m * e2 v)
     (m10 m * e0 v + m11 m * e1 v + m12 m * e2 v)
     (m20 m * e0 v + m21 m * e1 v + m22 m * e2 v).

(** Modelled from the spec: [auxiliary.h] is not among the sources.
    [axisAngleToRotationMatrix (axis_angle, rotation_matrix)] "converts the
    mean axis-angle back to a rotation matrix": the direction of the vector
    is the axis, its length the angle (Rodrigues' formula; the identity for
    the null vector). *)
Definition axisAngleToRotationMatrix (axis_angle : vec3) : mat3 :=
  let angle := length3 axis_angle in
  if Req_dec_T angle 0 then M3 1 0 0 0 1 0 0 0 1
  else
    let k := mult3 axis_angle (1 / angle) in
    let c := cos angle in
    let s := sin angle in
    let v := 1 - c in
    M3 (c + e0 k * e0 k * v)        (e0 k * e1 k * v - e2 k * s) (e0 k * e2 k * v + e1 k * s)
       (e1 k * e0 k * v + e2 k * s) (c + e1 k * e1 k * v)        (e1 k * e2 k * v - e0 k * s)
       (e2 k * e0 k * v - e1 k * s) (e2 k * e1 k * v + e0 k * s) (c + e2 k * e2 k * v).

End aux.

(* ===================================================================== *)
(** * Signature and transform of oriented point pairs *)
(* ===================================================================== *)

(** [float rigid_transform[12]]: "the first 9 elements are the rotational
    part (row major order) and the last 3 are the translation". *)
Record rigid12 : Type := Rigid12 { rot9 : mat3; trans3 : vec3 }.

(** The local arrays of [computeRigidTransform] once the axes are built. *)
Record frames : Type := Frames {
  o1 : vec3; o2 : vec3;
  x1 : vec3; x2 : vec3;
  y1 : vec3; y2 : vec3;
  z1 : vec3; z2 : vec3 }.

Section Transform.
Local Open Scope R_scope.

(** [computeRigidTransform], up to "Compute the z-axes". *)
Definition computeRigidTransform_frames
    (a1 a1_n b1 b1_n a2 a2_n b2 b2_n : vec3) : option frames :=
  (* Compute the origins *)
  let o1 := V3 (0.5 * (e0 a1 + e0 b1)) (0.5 * (e1 a1 + e1 b1)) (0.5 * (e2 a1 + e2 b1)) in
  let o2 := V3 (0.5 * (e0 a2 + e0 b2)) (0.5 * (e1 a2 + e1 b2)) (0.5 * (e2 a2 + e2 b2)) in
  (* Compute the x-axes *)
  x1 ← aux.normalize3 (aux.diff3 b1 a1);
  x2 ← aux.normalize3 (aux.diff3 b2 a2);
  (* Compute the y-axes. First y-axis *)
  tmp1 ← aux.normalize3 (aux.projectOnPlane3 a1_n x1);
  tmp2 ← aux.normalize3 (aux.projectOnPlane3 b1_n x1);
  y1 ← aux.normalize3 (aux.sum3 tmp1 tmp2);
  (* Second y-axis *)
  tmp1 ← aux.normalize3 (aux.projectOnPlane3 a2_n x2);
  tmp2 ← aux.normalize3 (aux.projectOnPlane3 b2_n x2);
  y2 ← aux.normalize3 (aux.sum3 tmp1 tmp2);
  (* Compute the z-axes *)
  let z1 := aux.cross3 x1 y1 in
  let z2 := aux.cross3 x2 y2 in
  Some (Frames o1 o2 x1 x2 y1 y2 z1 z2).

(** [computeRigidTransform], from "1. Invert the matrix [x1|y1|z1]". *)
Definition computeRigidTransform_solve (f : frames) : rigid12 :=
  (* 1. Invert the matrix [x1|y1|z1] (x1, y1 and z1 are treated as columns) *)
  let invFrame1 :=
    M3 (e0 (x1 f)) (e1 (x1 f)) (e2 (x1 f))
       (e0 (y1 f)) (e1 (y1 f)) (e2 (y1 f))
       (e0 (z1 f)) (e1 (z1 f)) (e2 (z1 f)) in
  (* 2. Compute the desired rotation as rigid_transform = [x2|y2|z2]*invFrame1 *)
  let rotation := aux.mult3x3_cols (x2 f) (y2 f) (z2 f) invFrame1 in
  (* Construct the translation which is the difference between the rotated o1 and o2 *)
  let Ro1 := aux.mult3x3 rotation (o1 f) in
  Rigid12 rotation
          (V3 (e0 (o2 f) - e0 Ro1) (e1 (o2 f) - e1 Ro1) (e2 (o2 f) - e2 Ro1)).

Definition computeRigidTransform
    (a1 a1_n b1 b1_n a2 a2_n b2 b2_n : vec3) : option rigid12 :=
  f ← computeRigidTransform_frames a1 a1_n b1 b1_n a2 a2_n b2 b2_n;
  Some (computeRigidTransform_solve f).

(** A rigid transform applied to a point: [R*p + t]. *)
Definition apply_rigid (T : rigid12) (p : vec3) : vec3 :=
  aux.sum3 (aux.mult3x3 (rot9 T) p) (trans3 T).

(** The three axes [x], [y], [z] are unit vectors, orthogonal to each other. *)
Definition orthonormal (x y z : vec3) : Prop :=
  aux.dot3 x x = 1 /\ aux.dot3 y y = 1 /\ aux.dot3 z z = 1 /\
  aux.dot3 x y = 0 /\ aux.dot3 x z = 0 /\ aux.dot3 y z = 0.

(** [compute_oriented_point_pair_signature] *)
Definition compute_oriented_point_pair_signature (p1 n1 p2 n2 : vec3) : option vec3 :=
  (* Get the line from p1 to p2 *)
  let cl := V3 (e0 p2 - e0 p1) (e1 p2 - e1 p1) (e2 p2 - e2 p1) in
  cl ← aux.normalize3 cl;
  s0 ← std_acos (aux.clamp (aux.dot3 n1 cl) (-1) 1);
  let cl := V3 (- e0 cl) (- e1 cl) (- e2 cl) in
  s1 ← std_acos (aux.clamp (aux.dot3 n2 cl) (-1) 1);
  s2 ← std_acos (aux.clamp (aux.dot3 n1 n2) (-1) 1);
  Some (V3 s0 s1 s2).

(** [computeNumberOfIterations]; [relative_obj_size_] is the member of the
    recogniser it reads.  The operations on [double] are read as the exact
    ones; [computeNumberOfIterations_double] has them rounded. *)
Definition computeNumberOfIterations (relative_obj_size_ : R) (success_probability : R)
    : option Z :=
  (* 'p_obj' is the probability that given that the first sample point belongs
     to an object, the second sample point will belong to the same object *)
  let p_obj := 0.25 in
  let p := p_obj * relative_obj_size_ in
  if Rle_dec (1.0 - p) 0.0 then Some 1%Z
  else
    num ← log (1.0 - success_probability);
    den ← log (1.0 - p);
    q ← fdiv num den;
    static_cast_int (q + 1.0).

End Transform.

(* ===================================================================== *)
(** * Collaborators of the recogniser *)
(* ===================================================================== *)

(** [const ModelLibrary::Model*], [ObjRecRANSAC::Hypothesis*]: addresses. *)
Abbreviation ModelPtr := N (only parsing).
Abbreviation HypothesisPtr := N (only parsing).

(** [float bounds[6]]: min and max along x, y and z. *)
Record bounds6 : Type := Bounds6 { b0 : R; b1 : R; b2 : R; b3 : R; b4 : R; b5 : R }.

Module ORROctree.
Local Open Scope R_scope.

(** Modelled from the spec: [orr_octree.h] is not among the sources.  A
    bounded voxel grid; a full leaf is known by its 3d id and carries the
    user data of its [Node::Data] ([None] for a null pointer). *)
Record t (A : Type) : Type := Octree {
  bounds_ : bounds6;
  voxel_size_ : R;
  full_leaves_ : gmap int3 (option A) }.
Arguments Octree {A} _ _ _.
Arguments bounds_ {A} _.
Arguments voxel_size_ {A} _.
Arguments full_leaves_ {A} _.

(** Modelled from the spec: [orr_octree.h] is not among the sources.
    [build (bounds, voxel_size)] makes the empty grid over [bounds]. *)
Definition build {A} (bounds : bounds6) (voxel_size : R) : t A :=
  Octree bounds voxel_size ∅.

(** Modelled from the spec: [orr_octree.h] is not among the sources.
    [clear ()] removes every leaf. *)
Definition clear {A} (o : t A) : t A :=
  Octree (bounds_ o) (voxel_size_ o) ∅.

Definition getBounds {A} (o : t A) : bounds6 := bounds_ o.

(** The point lies "out of the rotation space bounds". *)
Definition out_of_bounds (b : bounds6) (x y z : R) : bool :=
  Rltb x (b0 b) || Rltb (b1 b) x ||
  Rltb y (b2 b) || Rltb (b3 b) y ||
  Rltb z (b4 b) || Rltb (b5 b) z.

(** The 3d id of the voxel owning a point. *)
Definition voxel_of {A} (o : t A) (x y z : R) : int3 :=
  (Zfloor ((x - b0 (bounds_ o)) / voxel_size_ o),
   Zfloor ((y - b2 (bounds_ o)) / voxel_size_ o),
   Zfloor ((z - b4 (bounds_ o)) / voxel_size_ o)).

(** Modelled from the spec: [orr_octree.h] is not among the sources.
    [createLeaf (x, y, z)] is null for a point outside the bounds and leaves
    the octree as it is; otherwise it is the leaf of the voxel owning the
    point, created with null user data if it was not full. *)
Definition createLeaf {A} (o : t A) (x y z : R) : option (int3 * t A) :=
  if out_of_bounds (bounds_ o) x y z then None
  else
    let id := voxel_of o x y z in
    match full_leaves_ o !! id with
    | Some _ => Some (id, o)
    | None => Some (id, Octree (bounds_ o) (voxel_size_ o) (<[id := None]> (full_leaves_ o)))
    end.

(** [leaf->getData ()->getUserData ()] *)
Definition getUserData {A} (o : t A) (leaf : int3) : option A :=
  mjoin (full_leaves_ o !! leaf).

(** [leaf->getData ()->setUserData (data)] *)
Definition setUserData {A} (o : t A) (leaf : int3) (data : A) : t A :=
  Octree (bounds_ o) (voxel_size_ o) (<[leaf := Some data]> (full_leaves_ o)).

End ORROctree.

Module ORROctreeZProjection.

(** Modelled from the spec: [orr_octree_zprojection.h] is not among the
    sources.  The projection of the scene octree along z: its full pixels. *)
Record t : Type := ZProjection { full_pixels_ : list (Z * Z) }.

(** Modelled from the spec: [orr_octree_zprojection.h] is not among the
    sources.  [clear ()] *)
Definition clear (p : t) : t := ZProjection [].

End ORROctreeZProjection.

Module ModelLibrary.
Local Open Scope R_scope.

(** Modelled from the spec: [model_library.h] is not among the sources.
    "Model (external): an object's stored surface samples, normals, and
    registered name", with the user pointer set at registration. *)
Record Model : Type := mkModel {
  points_ : list vec3;
  normals_ : list vec3;
  obj_name_ : string;
  user_data_ : N }.

Record t : Type := Library {
  models_ : gmap string Model;
  max_coplanarity_angle_ : R;
  ignore_coplanar_opps_ : bool }.

(** Modelled from the spec: [model_library.h] is not among the sources.
    "Removes all models from the model library". *)
Definition removeAllModels (l : t) : t :=
  Library ∅ (max_coplanarity_angle_ l) (ignore_coplanar_opps_ l).

(** Modelled from the spec: [model_library.h] is not among the sources. *)
Definition setMaxCoplanarityAngleDegrees (l : t) (degrees : R) : t :=
  Library (models_ l) (degrees * aux.AUX_DEG_TO_RADIANS) (ignore_coplanar_opps_ l).

(** Modelled from the spec: [model_library.h] is not among the sources. *)
Definition ignoreCoplanarPointPairs (l : t) (on : bool) : t :=
  Library (models_ l) (max_coplanarity_angle_ l) on.

(** Modelled from the spec: [model_library.h] is not among the sources.
    [addModel] "returns false (and does not register) if name is already
    registered". *)
Definition addModel (l : t) (points normals : list vec3) (object_name : string)
    (user_data : N) : bool * t :=
  match models_ l !! object_name with
  | Some _ => (false, l)
  | None =>
      (true, Library (<[object_name := mkModel points normals object_name user_data]> (models_ l))
                     (max_coplanarity_angle_ l) (ignore_coplanar_opps_ l))
  end.

End ModelLibrary.

(* ===================================================================== *)
(** * [class ObjRecRANSAC]: nested classes *)
(* ===================================================================== *)

(** [class OrientedPointPair]: four borrowed [const float*]. *)
Record OrientedPointPair : Type := mkOrientedPointPair {
  p1_ : N; n1_ : N; p2_ : N; n2_ : N }.

(** [class Hypothesis].  The constructor writes [match_confidence_] and
    [obj_model_] only: the arrays start indeterminate ([None]) and
    [explained_pixels_] empty. *)
Record Hypothesis_t : Type := mkHypothesis {
  rigid_transform_rot : option mat3;      (* rigid_transform_[0..8] *)
  rigid_transform_trans : option vec3;    (* rigid_transform_[9..11] *)
  match_confidence_ : R;
  obj_model_ : ModelPtr;
  explained_pixels_ : gset Z;
  hypo_rot_3dId_ : option int3;
  hypo_t_3dId_ : option int3 }.

(** [Hypothesis (const ModelLibrary::Model& obj_model)] *)
Definition Hypothesis_new (obj_model : ModelPtr) : Hypothesis_t :=
  mkHypothesis None None (-1.0)%R obj_model ∅ None None.

Definition set_rotation (h : Hypothesis_t) (m : mat3) : Hypothesis_t :=
  mkHypothesis (Some m) (rigid_transform_trans h) (match_confidence_ h) (obj_model_ h)
               (explained_pixels_ h) (hypo_rot_3dId_ h) (hypo_t_3dId_ h).

Definition set_translation (h : Hypothesis_t) (v : vec3) : Hypothesis_t :=
  mkHypothesis (rigid_transform_rot h) (Some v) (match_confidence_ h) (obj_model_ h)
               (explained_pixels_ h) (hypo_rot_3dId_ h) (hypo_t_3dId_ h).

Definition set_3dIds (h : Hypothesis_t) (t_id rot_id : option int3) : Hypothesis_t :=
  mkHypothesis (rigid_transform_rot h) (rigid_transform_trans h) (match_confidence_ h)
               (obj_model_ h) (explained_pixels_ h) rot_id t_id.

Module Entry.
Local Open Scope R_scope.

(** [class RotationSpace::Cell::Entry] *)
Record t : Type := mk {
  axis_angle_ : vec3;
  translation_ : vec3;
  num_transforms_ : Z }.

(** [Entry ()] *)
Definition new : t := mk (aux.set3 0.0) (aux.set3 0.0) 0.

Definition addRigidTransform (e : t) (axis_angle translation : vec3) : t :=
  mk (aux.add3 (axis_angle_ e) axis_angle)
     (aux.add3 (translation_ e) translation)
     (int_incr (num_transforms_ e)).

Definition computeAverageRigidTransform (e : t) : t :=
  if (num_transforms_ e <? 2)%Z then e
  else
    let factor := 1.0 / IZR (num_transforms_ e) in
    mk (aux.mult3 (axis_angle_ e) factor)
       (aux.mult3 (translation_ e) factor)
       1.

Definition getAxisAngle (e : t) : vec3 := axis_angle_ e.
Definition getTranslation (e : t) : vec3 := translation_ e.

End Entry.

Module Cell.

(** [class RotationSpace::Cell].  The constructor leaves the two 3d ids
    indeterminate ([None]). *)
Record t : Type := mk {
  model_to_entry_ : gmap ModelPtr Entry.t;
  rot_3dId_ : option int3;
  t_3dId_ : option int3 }.

(** [Cell ()] *)
Definition new : t := mk ∅ None None.

(** [model_to_entry_[model]]: the entry of the model, a new [Entry ()] when
    the model has none. *)
Definition entry_of (c : t) (model : ModelPtr) : Entry.t :=
  default Entry.new (model_to_entry_ c !! model).

Definition addRigidTransform (c : t) (model : ModelPtr) (axis_angle translation : vec3) : t :=
  mk (<[model := Entry.addRigidTransform (entry_of c model) axis_angle translation]>
        (model_to_entry_ c))
     (rot_3dId_ c) (t_3dId_ c).

(** The hypothesis that the loop of [computeAverageRigidTransformInEntries]
    creates for the model [first] once its entry [second] is averaged.
    [new] gives an object of its own: the list [out] of pointers to such
    objects is carried as the list of the objects. *)
Definition new_hypothesis (c : t) (first : ModelPtr) (second : Entry.t) : Hypothesis_t :=
  (* Now create a new hypothesis *)
  let new_hypo := Hypothesis_new first in
  (* Save the average rotation (in matrix form) *)
  let new_hypo := set_rotation new_hypo (aux.axisAngleToRotationMatrix (Entry.getAxisAngle second)) in
  (* Save the average translation *)
  let new_hypo := set_translation new_hypo (aux.copy3 (Entry.getTranslation second)) in
  set_3dIds new_hypo (aux.copy3 (t_3dId_ c)) (aux.copy3 (rot_3dId_ c)).

(** The body of the loop of [computeAverageRigidTransformInEntries], for
    the element [it] of the map. *)
Definition entries_step (c : t) (st : gmap ModelPtr Entry.t * list Hypothesis_t)
    (it : ModelPtr * Entry.t) : gmap ModelPtr Entry.t * list Hypothesis_t :=
  (* First, compute the average rigid transform (in the axis-angle representation) *)
  let second := Entry.computeAverageRigidTransform it.2 in
  (* Save the new hypothesis *)
  (<[it.1 := second]> st.1, st.2 ++ [new_hypothesis c it.1 second]).

(** [computeAverageRigidTransformInEntries (out, hypotheses_counter)].  The
    [std::map] is walked in the order of the addresses of the models, which
    carries no meaning; [map_to_list] stands for it. *)
Definition computeAverageRigidTransformInEntries (c : t) (out : list Hypothesis_t)
    (hypotheses_counter : Z) : t * list Hypothesis_t * Z :=
  let st := foldl (entries_step c) (model_to_entry_ c, out) (map_to_list (model_to_entry_ c)) in
  (mk st.1 (rot_3dId_ c) (t_3dId_ c),
   st.2,
   int_add hypotheses_counter (int_wrap (Z.of_nat (size (model_to_entry_ c))))).

End Cell.

(** What [printf] writes. *)
Inductive printed : Type :=
| WARNING_out_of_bounds (func : string) (axis_angle : vec3) (b : bounds6).

Module RotationSpace.
Local Open Scope R_scope.

(** [class RotationSpace].  A cell is owned by one leaf of [rot_octree_]:
    the [Cell*] kept as the user data of the leaf and pushed on
    [full_cells_] is stood for by the cell itself in the leaf and by the 3d
    id of the leaf in [full_cells_]. *)
Record t : Type := mk {
  rot_octree_ : ORROctree.t Cell.t;
  full_cells_ : list int3;
  t_3dId_ : option int3 }.

(** [RotationSpace ()] *)
Definition new : t :=
  let min := - (aux.AUX_PI_FLOAT + 0.000000001) in
  let max := aux.AUX_PI_FLOAT + 0.000000001 in
  let bounds := Bounds6 min max min max min max in
  (* Build the voxel structure *)
  mk (ORROctree.build bounds (6.0 * aux.AUX_DEG_TO_RADIANS)) [] None.

(** [addRigidTransform (model, axis_angle, translation)]: the value
    returned, the rotation space afterwards and what was printed. *)
Definition addRigidTransform (rs : t) (model : ModelPtr) (axis_angle translation : vec3)
    : bool * t * list printed :=
  match ORROctree.createLeaf (rot_octree_ rs) (e0 axis_angle) (e1 axis_angle) (e2 axis_angle) with
  | None =>
      let b := ORROctree.getBounds (rot_octree_ rs) in
      (false, rs, [WARNING_out_of_bounds "addRigidTransform" axis_angle b])
  | Some (rot_leaf, octree) =>
      let '(rot_cell, full_cells) :=
        match ORROctree.getUserData octree rot_leaf with
        | None =>
            let rot_cell := Cell.mk ∅ (Some rot_leaf) (aux.copy3 (t_3dId_ rs)) in
            (rot_cell, full_cells_ rs ++ [rot_leaf])
        | Some rot_cell => (rot_cell, full_cells_ rs)
        end in
      (* Add the rigid transform to the cell *)
      let rot_cell := Cell.addRigidTransform rot_cell model axis_angle translation in
      (true, mk (ORROctree.setUserData octree rot_leaf rot_cell) full_cells (t_3dId_ rs), [])
  end.

(** The cell of a leaf, if the leaf has one. *)
Definition cell_at (rs : t) (leaf : int3) : option Cell.t :=
  ORROctree.getUserData (rot_octree_ rs) leaf.

(** The entry of a model in the cell of a leaf, if there is one. *)
Definition entry_at (rs : t) (leaf : int3) (model : ModelPtr) : option Entry.t :=
  cell ← cell_at rs leaf; Cell.model_to_entry_ cell !! model.

(** The leaf of the voxel owning an axis-angle point. *)
Definition leaf_of (rs : t) (axis_angle : vec3) : int3 :=
  ORROctree.voxel_of (rot_octree_ rs) (e0 axis_angle) (e1 axis_angle) (e2 axis_angle).

(** The axis-angle point lies outside the bounds of the rotation space. *)
Definition outside (rs : t) (axis_angle : vec3) : bool :=
  ORROctree.out_of_bounds (ORROctree.bounds_ (rot_octree_ rs))
    (e0 axis_angle) (e1 axis_angle) (e2 axis_angle).

(** The body of the loop of [computeAverageRigidTransformInCells]. *)
Definition cells_step (st : t * list Hypothesis_t * Z) (it : int3) : t * list Hypothesis_t * Z :=
  let '(rs, out, hypotheses_counter) := st in
  match cell_at rs it with
  | None => st
  | Some cell =>
      let '(cell, out, hypotheses_counter) :=
        Cell.computeAverageRigidTransformInEntries cell out hypotheses_counter in
      (mk (ORROctree.setUserData (rot_octree_ rs) it cell) (full_cells_ rs) (t_3dId_ rs),
       out, hypotheses_counter)
  end.

(** [computeAverageRigidTransformInCells (out, hypotheses_counter)] *)
Definition computeAverageRigidTransformInCells (rs : t) (out : list Hypothesis_t)
    (hypotheses_counter : Z) : t * list Hypothesis_t * Z :=
  foldl cells_step (rs, out, hypotheses_counter) (full_cells_ rs).

End RotationSpace.

(* ===================================================================== *)
(** * [class ObjRecRANSAC] *)
(* ===================================================================== *)

Module ObjRecRANSAC.
Local Open Scope R_scope.

Inductive Recognition_Mode : Type :=
| SAMPLE_OPP
| TEST_HYPOTHESES
| FULL_RECOGNITION.

(** The data members. *)
Record t : Type := mk {
  pair_width_ : R;
  voxel_size_ : R;
  transform_octree_voxel_size_ : R;
  abs_zdist_thresh_ : R;
  relative_obj_size_ : R;
  visibility_ : R;
  relative_num_of_illegal_pts_ : R;
  intersection_fraction_ : R;
  max_coplanarity_angle_ : R;
  scene_bounds_enlargement_factor_ : R;
  ignore_coplanar_opps_ : bool;
  model_library_ : ModelLibrary.t;
  scene_octree_ : ORROctree.t unit;
  transform_octree_ : ORROctree.t unit;
  scene_octree_proj_ : ORROctreeZProjection.t;
  sampled_oriented_point_pairs_ : list OrientedPointPair;
  accepted_hypotheses_ : list HypothesisPtr;
  rec_mode_ : Recognition_Mode }.

(** The free store of the hypotheses the recogniser points to: the objects
    [new]ed and not yet [delete]d, by address. *)
Abbreviation store := (gmap HypothesisPtr Hypothesis_t) (only parsing).

(** [clear ()] *)
Definition clear (r : t) : t :=
  mk (pair_width_ r) (voxel_size_ r) (transform_octree_voxel_size_ r) (abs_zdist_thresh_ r)
     (relative_obj_size_ r) (visibility_ r) (relative_num_of_illegal_pts_ r)
     (intersection_fraction_ r) (max_coplanarity_angle_ r)
     (scene_bounds_enlargement_factor_ r) (ignore_coplanar_opps_ r)
     (ModelLibrary.removeAllModels (model_library_ r))
     (ORROctree.clear (scene_octree_ r))
     (ORROctree.clear (transform_octree_ r))
     (ORROctreeZProjection.clear (scene_octree_proj_ r))
     []
     (accepted_hypotheses_ r)
     (rec_mode_ r).

(** [clearTestData ()]: every accepted hypothesis is [delete]d, then the
    vector is emptied. *)
Definition clearTestData (h : store) (r : t) : store * t :=
  (foldl (fun h it => delete it h) h (accepted_hypotheses_ r),
   mk (pair_width_ r) (voxel_size_ r) (transform_octree_voxel_size_ r) (abs_zdist_thresh_ r)
      (relative_obj_size_ r) (visibility_ r) (relative_num_of_illegal_pts_ r)
      (intersection_fraction_ r) (max_coplanarity_angle_ r)
      (scene_bounds_enlargement_factor_ r) (ignore_coplanar_opps_ r)
      (model_library_ r) (scene_octree_ r) (transform_octree_ r) (scene_octree_proj_ r)
      []
      []
      (rec_mode_ r)).

(** [~ObjRecRANSAC ()] *)
Definition destructor (h : store) (r : t) : store * t :=
  clearTestData h (clear r).

Definition setMaxCoplanarityAngleDegrees (r : t) (max_coplanarity_angle_degrees : R) : t :=
  mk (pair_width_ r) (voxel_size_ r) (transform_octree_voxel_size_ r) (abs_zdist_thresh_ r)
     (relative_obj_size_ r) (visibility_ r) (relative_num_of_illegal_pts_ r)
     (intersection_fraction_ r) (max_coplanarity_angle_degrees * aux.AUX_DEG_TO_RADIANS)
     (scene_bounds_enlargement_factor_ r) (ignore_coplanar_opps_ r)
     (ModelLibrary.setMaxCoplanarityAngleDegrees (model_library_ r) max_coplanarity_angle_degrees)
     (scene_octree_ r) (transform_octree_ r) (scene_octree_proj_ r)
     (sampled_oriented_point_pairs_ r) (accepted_hypotheses_ r) (rec_mode_ r).

Definition setSceneBoundsEnlargementFactor (r : t) (value : R) : t :=
  mk (pair_width_ r) (voxel_size_ r) (transform_octree_voxel_size_ r) (abs_zdist_thresh_ r)
     (relative_obj_size_ r) (visibility_ r) (relative_num_of_illegal_pts_ r)
     (intersection_fraction_ r) (max_coplanarity_angle_ r)
     value (ignore_coplanar_opps_ r)
     (model_library_ r) (scene_octree_ r) (transform_octree_ r) (scene_octree_proj_ r)
     (sampled_oriented_point_pairs_ r) (accepted_hypotheses_ r) (rec_mode_ r).

(** [ignoreCoplanarPointPairsOn ()] for [true], [...Off ()] for [false]. *)
Definition ignoreCoplanarPointPairs (r : t) (on : bool) : t :=
  mk (pair_width_ r) (voxel_size_ r) (transform_octree_voxel_size_ r) (abs_zdist_thresh_ r)
     (relative_obj_size_ r) (visibility_ r) (relative_num_of_illegal_pts_ r)
     (intersection_fraction_ r) (max_coplanarity_angle_ r)
     (scene_bounds_enlargement_factor_ r) on
     (ModelLibrary.ignoreCoplanarPointPairs (model_library_ r) on)
     (scene_octree_ r) (transform_octree_ r) (scene_octree_proj_ r)
     (sampled_oriented_point_pairs_ r) (accepted_hypotheses_ r) (rec_mode_ r).

Definition addModel (r : t) (points normals : list vec3) (object_name : string)
    (user_data : N) : bool * t :=
  let '(ok, library) := ModelLibrary.addModel (model_library_ r) points normals object_name user_data in
  (ok,
   mk (pair_width_ r) (voxel_size_ r) (transform_octree_voxel_size_ r) (abs_zdist_thresh_ r)
      (relative_obj_size_ r) (visibility_ r) (relative_num_of_illegal_pts_ r)
      (intersection_fraction_ r) (max_coplanarity_angle_ r)
      (scene_bounds_enlargement_factor_ r) (ignore_coplanar_opps_ r)
      library
      (scene_octree_ r) (transform_octree_ r) (scene_octree_proj_ r)
      (sampled_oriented_point_pairs_ r) (accepted_hypotheses_ r) (rec_mode_ r)).

(** [enterTestModeSampleOPP], [enterTestModeTestHypotheses], [leaveTestMode]:
    [rec_mode_ = mode]. *)
Definition set_rec_mode (r : t) (mode : Recognition_Mode) : t :=
  mk (pair_width_ r) (voxel_size_ r) (transform_octree_voxel_size_ r) (abs_zdist_thresh_ r)
     (relative_obj_size_ r) (visibility_ r) (relative_num_of_illegal_pts_ r)
     (intersection_fraction_ r) (max_coplanarity_angle_ r)
     (scene_bounds_enlargement_factor_ r) (ignore_coplanar_opps_ r)
     (model_library_ r) (scene_octree_ r) (transform_octree_ r) (scene_octree_proj_ r)
     (sampled_oriented_point_pairs_ r) (accepted_hypotheses_ r) mode.

Definition enterTestModeSampleOPP (r : t) : t := set_rec_mode r SAMPLE_OPP.
Definition enterTestModeTestHypotheses (r : t) : t := set_rec_mode r TEST_HYPOTHESES.
Definition leaveTestMode (r : t) : t := set_rec_mode r FULL_RECOGNITION.

Definition getSampledOrientedPointPairs (r : t) : list OrientedPointPair :=
  sampled_oriented_point_pairs_ r.

(** [getAcceptedHypotheses ()], and the overload that copies the vector
    into [out]. *)
Definition getAcceptedHypotheses (r : t) : list HypothesisPtr :=
  accepted_hypotheses_ r.

(** The member functions the header defines that change the recogniser or
    the free store. *)
Inductive call : Type :=
| call_clear
| call_clearTestData
| call_destructor
| call_setMaxCoplanarityAngleDegrees (degrees : R)
| call_setSceneBoundsEnlargementFactor (value : R)
| call_ignoreCoplanarPointPairsOn
| call_ignoreCoplanarPointPairsOff
| call_addModel (points normals : list vec3) (object_name : string) (user_data : N)
| call_enterTestModeSampleOPP
| call_enterTestModeTestHypotheses
| call_leaveTestMode.

Definition run (c : call) (w : store * t) : store * t :=
  let '(h, r) := w in
  match c with
  | call_clear => (h, clear r)
  | call_clearTestData => clearTestData h r
  | call_destructor => destructor h r
  | call_setMaxCoplanarityAngleDegrees d => (h, setMaxCoplanarityAngleDegrees r d)
  | call_setSceneBoundsEnlargementFactor v => (h, setSceneBoundsEnlargementFactor r v)
  | call_ignoreCoplanarPointPairsOn => (h, ignoreCoplanarPointPairs r true)
  | call_ignoreCoplanarPointPairsOff => (h, ignoreCoplanarPointPairs r false)
  | call_addModel p n name u => (h, (addModel r p n name u).2)
  | call_enterTestModeSampleOPP => (h, enterTestModeSampleOPP r)
  | call_enterTestModeTestHypotheses => (h, enterTestModeTestHypotheses r)
  | call_leaveTestMode => (h, leaveTestMode r)
  end.

(** The accepted hypotheses a caller can still read: the objects behind
    the pointers of [getAcceptedHypotheses ()]. *)
Definition accepted (w : store * t) : list (option Hypothesis_t) :=
  (fun p => w.1 !! p) <$> getAcceptedHypotheses w.2.

End ObjRecRANSAC.

(* ===================================================================== *)
(** * Sequences of calls, and the quantities the statements compare with *)
(* ===================================================================== *)

Module Entry_calls.

(** The calls [addRigidTransform (v_1, t_1)], ..., [(v_n, t_n)] on [e], in
    this order. *)
Definition add_all (calls : list (vec3 * vec3)) (e : Entry.t) : Entry.t :=
  foldl (fun e vt => Entry.addRigidTransform e vt.1 vt.2) e calls.

End Entry_calls.

Module Cell_calls.

(** The calls [addRigidTransform (model_i, v_i, t_i)] on the cell [c]. *)
Definition add_all (calls : list (ModelPtr * vec3 * vec3)) (c : Cell.t) : Cell.t :=
  foldl (fun c mvt => Cell.addRigidTransform c mvt.1.1 mvt.1.2 mvt.2) c calls.

(** The transforms that the calls give to [model]. *)
Definition calls_of (model : ModelPtr) (calls : list (ModelPtr * vec3 * vec3))
    : list (vec3 * vec3) :=
  omap (fun mvt => if decide (mvt.1.1 = model) then Some (mvt.1.2, mvt.2) else None) calls.

End Cell_calls.

Section Reference.
Local Open Scope R_scope.

(** [v_1 + ... + v_n] *)
Definition vsum (l : list vec3) : vec3 :=
  foldr aux.sum3 (V3 0 0 0) l.

(** The arithmetic mean [(v_1 + ... + v_n) / n]. *)
Definition vmean (l : list vec3) : vec3 :=
  let n := INR (length l) in
  V3 (e0 (vsum l) / n) (e1 (vsum l) / n) (e2 (vsum l) / n).

(** The midpoint of the segment from [a] to [b]. *)
Definition midpoint (a b : vec3) : vec3 :=
  V3 ((e0 a + e0 b) / 2) ((e1 a + e1 b) / 2) ((e2 a + e2 b) / 2).

(** [- v] *)
Definition vopp (v : vec3) : vec3 := V3 (- e0 v) (- e1 v) (- e2 v).

(** A number of the interval (0,1]. *)
Definition in_0_1 (c : R) : Prop := 0 < c <= 1.

End Reference.

(* ===================================================================== *)
(** * Rigid motions, and sequences of insertions in the rotation space *)
(* ===================================================================== *)

Section Motions.
Local Open Scope R_scope.

(** The columns of a row major matrix. *)
Definition col0 (M : mat3) : vec3 := V3 (m00 M) (m10 M) (m20 M).
Definition col1 (M : mat3) : vec3 := V3 (m01 M) (m11 M) (m21 M).
Definition col2 (M : mat3) : vec3 := V3 (m02 M) (m12 M) (m22 M).

(** [M] is an orthogonal matrix: its columns are orthonormal. *)
Definition orthogonal_matrix (M : mat3) : Prop :=
  orthonormal (col0 M) (col1 M) (col2 M).

(** [M] is a rotation: orthogonal, the third column being the cross product
    of the first two (determinant 1). *)
Definition rotation_matrix (M : mat3) : Prop :=
  orthogonal_matrix M /\ col2 M = aux.cross3 (col0 M) (col1 M).

(** The image [M*p + t] of a point. *)
Definition move (M : mat3) (t p : vec3) : vec3 :=
  aux.sum3 (aux.mult3x3 M p) t.

(** The point [o + s*x] of the line through [o] with direction [x]. *)
Definition point_on_line (o x : vec3) (s : R) : vec3 :=
  aux.sum3 o (aux.mult3 x s).

(** The squared distance of two points. *)
Definition sqr_dist (p q : vec3) : R :=
  aux.dot3 (aux.diff3 p q) (aux.diff3 p q).

(** A signature with its first two angles exchanged. *)
Definition swap_angles (s : vec3) : vec3 := V3 (e1 s) (e0 s) (e2 s).

(** The frames with the two pairs exchanged. *)
Definition frames_swapped_of (f : frames) : frames :=
  Frames (o2 f) (o1 f) (x2 f) (x1 f) (y2 f) (y1 f) (z2 f) (z1 f).

End Motions.

Module RotationSpace_calls.

(** The calls [addRigidTransform (model_i, v_i, t_i)] on the rotation space
    [rs], in this order, whatever they return. *)
Definition add_all (calls : list (ModelPtr * vec3 * vec3)) (rs : RotationSpace.t)
    : RotationSpace.t :=
  foldl (fun rs mvt => (RotationSpace.addRigidTransform rs mvt.1.1 mvt.1.2 mvt.2).1.2) rs calls.

(** The transforms of the calls that fall in the leaf [leaf] of [rs], with
    their models: the calls inside the bounds whose axis-angle point is
    owned by the voxel of the leaf. *)
Definition calls_in (rs : RotationSpace.t) (leaf : int3)
    (calls : list (ModelPtr * vec3 * vec3)) : list (ModelPtr * vec3 * vec3) :=
  filter (fun mvt => RotationSpace.outside rs mvt.1.2 = false /\
                     RotationSpace.leaf_of rs mvt.1.2 = leaf) calls.

(** Every full cell is listed once in [full_cells_], the listed leaves are
    those that have a cell, and a cell records the 3d id of its leaf. *)
Definition cells_listed (rs : RotationSpace.t) : Prop :=
  NoDup (RotationSpace.full_cells_ rs) /\
  (forall leaf : int3,
     leaf ∈ RotationSpace.full_cells_ rs <-> is_Some (RotationSpace.cell_at rs leaf)) /\
  (forall (leaf : int3) (cell : Cell.t),
     RotationSpace.cell_at rs leaf = Some cell -> Cell.rot_3dId_ cell = Some leaf).

(** The hypotheses that [computeAverageRigidTransformInCells] creates for
    the leaf [leaf]: one for each entry of its cell. *)
Definition emitted (rs : RotationSpace.t) (leaf : int3) : list Hypothesis_t :=
  match RotationSpace.cell_at rs leaf with
  | Some cell =>
      (fun it => Cell.new_hypothesis cell it.1 (Entry.computeAverageRigidTransform it.2))
        <$> map_to_list (Cell.model_to_entry_ cell)
  | None => []
  end.

(** The voxel and the model of a hypothesis. *)
Definition placed (h : Hypothesis_t) : option int3 * ModelPtr :=
  (hypo_rot_3dId_ h, obj_model_ h).

End RotationSpace_calls.

(* ===================================================================== *)
(** * The arithmetic of [double] *)
(* ===================================================================== *)

Section Double.
Local Open Scope R_scope.

(** The operations on [double] of [computeNumberOfIterations]: [1.0 - x],
    [x + 1.0], [x / y] and [log (x)] give the [double] to which the exact
    result is rounded, and have no value when the result is not a finite
    number.  [is_double] holds of the reals that are [double]s.  The
    product [p_obj*relative_obj_size_], of a power of two and a [float]
    converted to [double], is exact. *)
Record double_arith : Type := Double_arith {
  is_double : R -> Prop;
  d_sub : R -> R -> R;
  d_add : R -> R -> R;
  d_div : R -> R -> option R;
  d_log : R -> option R }.

(** The arithmetic that does not round. *)
Definition exact_arith : double_arith :=
  Double_arith (fun _ => True) Rminus Rplus fdiv log.

(** An arithmetic that rounds: every result is rounded down to a multiple
    of 2^-60. *)
Definition round_down (x : R) : R := IZR (Zfloor (x * 2 ^ 60)) / 2 ^ 60.

Definition grid_arith : double_arith :=
  Double_arith
    (fun x => round_down x = x)
    (fun a b => round_down (a - b))
    (fun a b => round_down (a + b))
    (fun a b => q ← fdiv a b; Some (round_down q))
    (fun x => l ← log x; Some (round_down l)).

(** [computeNumberOfIterations] in the arithmetic [A]. *)
Definition computeNumberOfIterations_double (A : double_arith)
    (relative_obj_size_ : R) (success_probability : R) : option Z :=
  (* 'p_obj' is the probability that given that the first sample point belongs
     to an object, the second sample point will belong to the same object *)
  let p_obj := 0.25 in
  let p := p_obj * relative_obj_size_ in
  if Rle_dec (d_sub A 1.0 p) 0.0 then Some 1%Z
  else
    num ← d_log A (d_sub A 1.0 success_probability);
    den ← d_log A (d_sub A 1.0 p);
    q ← d_div A num den;
    static_cast_int (d_add A q 1.0).

(** The [double] that the [return] statement converts to [int]:
    [log (1.0-success_probability)/log (1.0-p) + 1.0] as [A] computes it. *)
Definition converted_double (A : double_arith)
    (relative_obj_size_ : R) (success_probability : R) : option R :=
  num ← d_log A (d_sub A 1.0 success_probability);
  den ← d_log A (d_sub A 1.0 (0.25 * relative_obj_size_));
  q ← d_div A num den;
  Some (d_add A q 1.0).

(** What the rounding to nearest of IEEE 754 and a monotone [log] give:
    the operations are monotone, exact where the exact result is 0, 1 or a
    small integer, [1.0 - x] of a [double] [x < 1] is a positive [double],
    the logarithm of a [double] below 1 is negative, and a division by zero
    has no finite value. *)
Record double_laws (A : double_arith) : Prop := Double_laws {
  sub_double : forall x : R, is_double A x -> is_double A (d_sub A 1.0 x);
  sub_antitone : forall x y : R, x <= y -> d_sub A 1.0 y <= d_sub A 1.0 x;
  sub_0 : d_sub A 1.0 0 = 1;
  sub_1 : d_sub A 1.0 1 = 0;
  sub_pos : forall x : R, is_double A x -> x < 1 -> 0 < d_sub A 1.0 x;
  log_defined : forall x : R, is_double A x -> 0 < x -> is_Some (d_log A x);
  log_monotone : forall x y a b : R,
    x <= y -> d_log A x = Some a -> d_log A y = Some b -> a <= b;
  log_1 : d_log A 1 = Some 0;
  log_neg : forall x l : R, is_double A x -> x < 1 -> d_log A x = Some l -> l < 0;
  div_by_0 : forall x : R, d_div A x 0 = None;
  div_0 : forall y : R, y <> 0 -> d_div A 0 y = Some 0;
  div_self : forall x : R, x <> 0 -> d_div A x x = Some 1;
  div_monotone : forall x1 x2 y1 y2 a b : R,
    x2 <= x1 -> x1 <= 0 -> y1 <= y2 -> y2 < 0 ->
    d_div A x1 y1 = Some a -> d_div A x2 y2 = Some b -> a <= b;
  add_monotone : forall a b : R, a <= b -> d_add A a 1.0 <= d_add A b 1.0;
  add_int : forall k : Z, (0 <= k < 2 ^ 53)%Z -> d_add A (IZR k) 1.0 = IZR k + 1 }.

End Double.

(* ===================================================================== *)
(** * Machine integers *)
(* ===================================================================== *)

Lemma int_wrap_small (z : Z) :
  (INT_MIN <= z <= INT_MAX)%Z -> int_wrap z = z.
Proof.
  unfold INT_MIN, INT_MAX, int_wrap. intros Hz.
  rewrite Z.mod_small by lia. lia.
Qed.

Lemma int_wrap_idemp_add (a b : Z) :
  int_wrap (int_wrap a + b) = int_wrap (a + b).
Proof.
  unfold int_wrap.
  replace ((a + 2147483648) mod 4294967296 - 2147483648 + b + 2147483648)%Z
    with ((a + 2147483648) mod 4294967296 + b)%Z by lia.
  replace (a + b + 2147483648)%Z with ((a + 2147483648) + b)%Z by lia.
  now rewrite Zplus_mod_idemp_l.
Qed.

(** [++] on [INT_MAX] wraps to [INT_MIN]. *)
Example int_incr_INT_MAX : int_incr INT_MAX = INT_MIN.
Proof. reflexivity. Qed.

Lemma int_wrap_range (z : Z) : (INT_MIN <= int_wrap z <= INT_MAX)%Z.
Proof.
  unfold INT_MIN, INT_MAX, int_wrap.
  pose proof (Z.mod_pos_bound (z + 2147483648) 4294967296 ltac:(lia)). lia.
Qed.

(* ===================================================================== *)
(** * Entries of a pose cell *)
(* ===================================================================== *)

Section Entry_facts.
Local Open Scope R_scope.

(** The decimal constants of the header. *)
Lemma dec_0 : 0.0 = 0.
Proof. lra. Qed.

Lemma dec_1 : 1.0 = 1.
Proof. lra. Qed.

Lemma vec3_eq (a b : vec3) :
  e0 a = e0 b -> e1 a = e1 b -> e2 a = e2 b -> a = b.
Proof. destruct a, b; simpl; intros; subst; reflexivity. Qed.

(** Averaging changes nothing in an entry that counts fewer than two
    transforms. *)
Lemma computeAverage_below_2 (e : Entry.t) :
  (Entry.num_transforms_ e < 2)%Z -> Entry.computeAverageRigidTransform e = e.
Proof.
  intros H. unfold Entry.computeAverageRigidTransform.
  destruct (Z.ltb_spec (Entry.num_transforms_ e) 2); [reflexivity | lia].
Qed.

Lemma computeAverage_from_2 (e : Entry.t) :
  (2 <= Entry.num_transforms_ e)%Z ->
  Entry.computeAverageRigidTransform e =
    Entry.mk (aux.mult3 (Entry.axis_angle_ e) (1.0 / IZR (Entry.num_transforms_ e)))
             (aux.mult3 (Entry.translation_ e) (1.0 / IZR (Entry.num_transforms_ e)))
             1.
Proof.
  intros H. unfold Entry.computeAverageRigidTransform.
  destruct (Z.ltb_spec (Entry.num_transforms_ e) 2); [lia | reflexivity].
Qed.

Lemma computeAverage_count (e : Entry.t) :
  (Entry.num_transforms_ (Entry.computeAverageRigidTransform e) < 2)%Z.
Proof.
  destruct (Z.lt_ge_cases (Entry.num_transforms_ e) 2) as [H|H].
  - now rewrite computeAverage_below_2.
  - rewrite computeAverage_from_2 by assumption. simpl. lia.
Qed.

Lemma computeAverage_idempotent (e : Entry.t) :
  Entry.computeAverageRigidTransform (Entry.computeAverageRigidTransform e)
  = Entry.computeAverageRigidTransform e.
Proof. apply computeAverage_below_2, computeAverage_count. Qed.

Lemma add_all_snoc (calls : list (vec3 * vec3)) (vt : vec3 * vec3) (e : Entry.t) :
  Entry_calls.add_all (calls ++ [vt]) e
  = Entry.addRigidTransform (Entry_calls.add_all calls e) vt.1 vt.2.
Proof. unfold Entry_calls.add_all. now rewrite foldl_app. Qed.

Lemma vsum_snoc (l : list vec3) (v : vec3) :
  vsum (l ++ [v]) = aux.sum3 (vsum l) v.
Proof.
  induction l as [|w l IH]; simpl.
  - apply vec3_eq; simpl; lra.
  - rewrite IH. apply vec3_eq; simpl; lra.
Qed.

(** The fields of an entry after a sequence of insertions. *)
Lemma add_all_fields (calls : list (vec3 * vec3)) (e : Entry.t) :
  (INT_MIN <= Entry.num_transforms_ e <= INT_MAX)%Z ->
  Entry.axis_angle_ (Entry_calls.add_all calls e)
    = aux.sum3 (Entry.axis_angle_ e) (vsum calls.*1) /\
  Entry.translation_ (Entry_calls.add_all calls e)
    = aux.sum3 (Entry.translation_ e) (vsum calls.*2) /\
  Entry.num_transforms_ (Entry_calls.add_all calls e)
    = int_wrap (Entry.num_transforms_ e + Z.of_nat (length calls)).
Proof.
  intros Hrange.
  induction calls as [|vt calls IH] using rev_ind.
  - simpl. rewrite Z.add_0_r, int_wrap_small by assumption.
    repeat split; apply vec3_eq; simpl; lra.
  - destruct IH as (Ha & Ht & Hn).
    rewrite add_all_snoc, !fmap_app, length_app.
    change ([vt].*1) with [vt.1]. change ([vt].*2) with [vt.2].
    rewrite !vsum_snoc.
    unfold Entry.addRigidTransform; simpl.
    rewrite Ha, Ht, Hn.
    repeat split; try (apply vec3_eq; simpl; lra).
    unfold int_incr. rewrite int_wrap_idemp_add. f_equal. lia.
Qed.

(** The mean is what averaging leaves in a new entry that received between
    one and [INT_MAX] transforms. *)
Lemma computeAverage_add_all_new (calls : list (vec3 * vec3)) :
  calls <> [] ->
  (Z.of_nat (length calls) <= INT_MAX)%Z ->
  Entry.computeAverageRigidTransform (Entry_calls.add_all calls Entry.new)
  = Entry.mk (vmean calls.*1) (vmean calls.*2) 1.
Proof.
  intros Hne Hmax.
  assert (Hlen : (1 <= Z.of_nat (length calls))%Z).
  { destruct calls; [congruence | simpl; lia]. }
  destruct (add_all_fields calls Entry.new) as (Ha & Ht & Hn).
  { simpl. unfold INT_MIN, INT_MAX. lia. }
  change (Entry.num_transforms_ Entry.new) with 0%Z in Hn.
  rewrite Z.add_0_l, int_wrap_small in Hn by (unfold INT_MIN; lia).
  assert (HnR : IZR (Z.of_nat (length calls)) = INR (length calls))
    by (symmetry; apply INR_IZR_INZ).
  assert (Hpos : 1 <= INR (length calls)).
  { rewrite <- HnR. apply IZR_le in Hlen. exact Hlen. }
  destruct (Z.lt_ge_cases (Z.of_nat (length calls)) 2) as [Hone|Htwo].
  - (* a single transform: the entry is left as it is *)
    rewrite computeAverage_below_2 by (rewrite Hn; lia).
    assert (H1 : INR (length calls) = 1).
    { rewrite <- HnR. replace (Z.of_nat (length calls)) with 1%Z by lia. reflexivity. }
    destruct (Entry_calls.add_all calls Entry.new) as [a t n]; simpl in *.
    subst a t n. unfold vmean. rewrite !length_fmap, H1.
    f_equal; [apply vec3_eq; simpl; lra .. | lia].
  - rewrite computeAverage_from_2 by (rewrite Hn; lia).
    rewrite Ha, Ht, Hn, HnR. unfold vmean. rewrite !length_fmap.
    f_equal; apply vec3_eq; simpl; rewrite dec_0, dec_1; field; lra.
Qed.

End Entry_facts.

(* ===================================================================== *)
(** * Pose cells *)
(* ===================================================================== *)

Section Cell_facts.
Local Open Scope R_scope.

(** What the loop over the entries appends to [out]. *)
Lemma entries_fold_out (c : Cell.t) (l : list (N * Entry.t))
    (st : gmap N Entry.t * list Hypothesis_t) :
  (foldl (Cell.entries_step c) st l).2
  = st.2 ++ ((fun it => Cell.new_hypothesis c it.1 (Entry.computeAverageRigidTransform it.2)) <$> l).
Proof.
  revert st. induction l as [|it l IH]; intros st; simpl.
  - now rewrite app_nil_r.
  - rewrite IH. simpl. now rewrite <- app_assoc.
Qed.

(** What the loop over the entries leaves in the map. *)
Lemma entries_fold_map (c : Cell.t) (l : list (N * Entry.t))
    (st : gmap N Entry.t * list Hypothesis_t) (k : N) :
  NoDup l.*1 ->
  (foldl (Cell.entries_step c) st l).1 !! k
  = match (list_to_map l : gmap N Entry.t) !! k with
    | Some e => Some (Entry.computeAverageRigidTransform e)
    | None => st.1 !! k
    end.
Proof.
  revert st. induction l as [|[k' e'] l IH]; intros st Hnd; simpl.
  - now rewrite lookup_empty.
  - apply NoDup_cons in Hnd as [Hnotin Hnd].
    rewrite IH by assumption. simpl.
    destruct (decide (k' = k)) as [->|Hne].
    + rewrite lookup_insert_eq.
      rewrite (not_elem_of_list_to_map_1 l k) by assumption.
      now rewrite lookup_insert_eq.
    + now rewrite !lookup_insert_ne by assumption.
Qed.

(** [computeAverageRigidTransformInEntries] in closed form. *)
Lemma computeAverageRigidTransformInEntries_eq (c : Cell.t) (out : list Hypothesis_t)
    (counter : Z) :
  Cell.computeAverageRigidTransformInEntries c out counter
  = (Cell.mk (Entry.computeAverageRigidTransform <$> Cell.model_to_entry_ c)
             (Cell.rot_3dId_ c) (Cell.t_3dId_ c),
     out ++ ((fun it => Cell.new_hypothesis c it.1 (Entry.computeAverageRigidTransform it.2))
               <$> map_to_list (Cell.model_to_entry_ c)),
     int_add counter (int_wrap (Z.of_nat (size (Cell.model_to_entry_ c))))).
Proof.
  unfold Cell.computeAverageRigidTransformInEntries.
  rewrite entries_fold_out. simpl. do 3 f_equal.
  apply map_eq. intros k.
  rewrite entries_fold_map by apply NoDup_fst_map_to_list.
  rewrite list_to_map_to_list, lookup_fmap. simpl.
  now destruct (Cell.model_to_entry_ c !! k).
Qed.

Lemma cell_add_all_snoc (calls : list (N * vec3 * vec3)) (x : N * vec3 * vec3) (c : Cell.t) :
  Cell_calls.add_all (calls ++ [x]) c
  = Cell.addRigidTransform (Cell_calls.add_all calls c) x.1.1 x.1.2 x.2.
Proof. unfold Cell_calls.add_all. now rewrite foldl_app. Qed.

Lemma calls_of_snoc (m : N) (calls : list (N * vec3 * vec3)) (x : N * vec3 * vec3) :
  Cell_calls.calls_of m (calls ++ [x])
  = Cell_calls.calls_of m calls ++ (if decide (x.1.1 = m) then [(x.1.2, x.2)] else []).
Proof.
  unfold Cell_calls.calls_of. rewrite omap_app. simpl.
  now destruct (decide (x.1.1 = m)).
Qed.

(** The entry of a model in a cell is the entry that received the
    transforms of this model, in the order of the calls. *)
Lemma cell_add_all_entry (calls : list (N * vec3 * vec3)) (c : Cell.t) (m : N) :
  Cell.entry_of (Cell_calls.add_all calls c) m
  = Entry_calls.add_all (Cell_calls.calls_of m calls) (Cell.entry_of c m).
Proof.
  induction calls as [|x calls IH] using rev_ind; [reflexivity|].
  rewrite cell_add_all_snoc, calls_of_snoc.
  unfold Cell.entry_of at 1, Cell.addRigidTransform; simpl.
  destruct (decide (x.1.1 = m)) as [->|Hne].
  - rewrite lookup_insert_eq. simpl. now rewrite add_all_snoc, IH.
  - rewrite lookup_insert_ne by assumption. rewrite app_nil_r. exact IH.
Qed.

(** The models of a cell are those it had and those of the calls. *)
Lemma cell_add_all_models (calls : list (N * vec3 * vec3)) (c : Cell.t) (m : N) :
  is_Some (Cell.model_to_entry_ (Cell_calls.add_all calls c) !! m)
  <-> is_Some (Cell.model_to_entry_ c !! m) \/ m ∈ calls.*1.*1.
Proof.
  induction calls as [|x calls IH] using rev_ind.
  - simpl. split; [now left | intros [H|H]; [exact H | inversion H]].
  - rewrite cell_add_all_snoc, !fmap_app. unfold Cell.addRigidTransform; simpl.
    rewrite elem_of_app, list_elem_of_singleton.
    destruct (decide (x.1.1 = m)) as [->|Hne].
    + rewrite lookup_insert_eq. split; [intros _; right; now right | eauto].
    + rewrite lookup_insert_ne by assumption. rewrite IH.
      split; [tauto | intros [H|[H|H]]; [tauto | tauto | congruence]].
Qed.

Lemma calls_of_nonempty (m : N) (calls : list (N * vec3 * vec3)) :
  m ∈ calls.*1.*1 -> Cell_calls.calls_of m calls <> [].
Proof.
  induction calls as [|x calls IH]; simpl; [inversion 1|].
  intros H. destruct (decide (x.1.1 = m)); [discriminate|].
  apply elem_of_cons in H as [H|H]; [congruence | now apply IH].
Qed.

Lemma calls_of_length (m : N) (calls : list (N * vec3 * vec3)) :
  (length (Cell_calls.calls_of m calls) <= length calls)%nat.
Proof.
  induction calls as [|x calls IH]; simpl; [lia|].
  destruct (decide (x.1.1 = m)); simpl; lia.
Qed.

End Cell_facts.

(* ===================================================================== *)
(** * Vectors: lengths, unit vectors, projections *)
(* ===================================================================== *)

Section Vector_facts.
Local Open Scope R_scope.

Lemma dot3_self_nonneg (v : vec3) : 0 <= aux.dot3 v v.
Proof. unfold aux.dot3. nra. Qed.

Lemma dot3_comm (a b : vec3) : aux.dot3 a b = aux.dot3 b a.
Proof. unfold aux.dot3. ring. Qed.

Lemma length3_nonneg (v : vec3) : 0 <= aux.length3 v.
Proof. apply sqrt_pos. Qed.

Lemma length3_zero_iff (v : vec3) : aux.length3 v = 0 <-> aux.dot3 v v = 0.
Proof.
  unfold aux.length3. split; intros H.
  - apply sqrt_eq_0; [apply dot3_self_nonneg | exact H].
  - rewrite H. apply sqrt_0.
Qed.

Lemma length3_sqr (v : vec3) : aux.length3 v * aux.length3 v = aux.dot3 v v.
Proof. apply sqrt_sqrt, dot3_self_nonneg. Qed.

Lemma dot3_zero_iff (v : vec3) : aux.dot3 v v = 0 <-> v = V3 0 0 0.
Proof.
  split.
  - destruct v as [a b c]. unfold aux.dot3; simpl. intros H.
    assert (a = 0) by nra. assert (b = 0) by nra. assert (c = 0) by nra.
    now subst.
  - intros ->. unfold aux.dot3; simpl. ring.
Qed.

Lemma fdiv_Some (a b : R) : b <> 0 -> fdiv a b = Some (a / b).
Proof. intros H. unfold fdiv. destruct (Req_dec_T b 0); [contradiction | reflexivity]. Qed.

Lemma fdiv_None (a : R) : fdiv a 0 = None.
Proof. unfold fdiv. destruct (Req_dec_T 0 0); [reflexivity | contradiction]. Qed.

(** Normalisation is defined for the vectors that are not null, and for
    them only. *)
Lemma normalize3_defined (v : vec3) :
  aux.dot3 v v <> 0 ->
  aux.normalize3 v
  = Some (V3 (e0 v * (1 / aux.length3 v)) (e1 v * (1 / aux.length3 v)) (e2 v * (1 / aux.length3 v))).
Proof.
  intros H. unfold aux.normalize3.
  rewrite fdiv_Some; [reflexivity|]. now rewrite length3_zero_iff.
Qed.

Lemma normalize3_null (v : vec3) : aux.dot3 v v = 0 -> aux.normalize3 v = None.
Proof.
  intros H. unfold aux.normalize3.
  apply length3_zero_iff in H. rewrite H, fdiv_None. reflexivity.
Qed.

Lemma normalize3_Some_inv (v u : vec3) :
  aux.normalize3 v = Some u ->
  aux.dot3 v v <> 0 /\
  u = V3 (e0 v * (1 / aux.length3 v)) (e1 v * (1 / aux.length3 v)) (e2 v * (1 / aux.length3 v)).
Proof.
  intros H. destruct (Req_dec_T (aux.dot3 v v) 0) as [Hz|Hnz].
  - rewrite normalize3_null in H by assumption. discriminate.
  - rewrite normalize3_defined in H by assumption. split; [assumption | congruence].
Qed.

(** A normalised vector is a unit vector. *)
Lemma normalize3_unit (v u : vec3) :
  aux.normalize3 v = Some u -> aux.dot3 u u = 1.
Proof.
  intros H. apply normalize3_Some_inv in H as [Hnz ->].
  assert (HL : aux.length3 v <> 0) by now rewrite length3_zero_iff.
  pose proof (length3_sqr v) as Hs.
  unfold aux.dot3 in *; simpl.
  replace (e0 v * (1 / aux.length3 v) * (e0 v * (1 / aux.length3 v)) +
           e1 v * (1 / aux.length3 v) * (e1 v * (1 / aux.length3 v)) +
           e2 v * (1 / aux.length3 v) * (e2 v * (1 / aux.length3 v)))
    with ((e0 v * e0 v + e1 v * e1 v + e2 v * e2 v) / (aux.length3 v * aux.length3 v))
    by (field; exact HL).
  rewrite Hs. field. exact Hnz.
Qed.

(** Normalisation keeps the vectors that a vector is orthogonal to. *)
Lemma normalize3_orthogonal (v u w : vec3) :
  aux.normalize3 v = Some u -> aux.dot3 w v = 0 -> aux.dot3 w u = 0.
Proof.
  intros H Hw. apply normalize3_Some_inv in H as [_ ->].
  unfold aux.dot3 in *; simpl.
  replace (e0 w * (e0 v * (1 / aux.length3 v)) + e1 w * (e1 v * (1 / aux.length3 v)) +
           e2 w * (e2 v * (1 / aux.length3 v)))
    with ((e0 w * e0 v + e1 w * e1 v + e2 w * e2 v) * (1 / aux.length3 v)) by ring.
  rewrite Hw. ring.
Qed.

(** A vector of squared length [k*k], [k > 0], is normalised by the
    division of its components by [k]. *)
Lemma normalize3_is (v u : vec3) (k : R) :
  0 < k -> aux.dot3 v v = k * k ->
  e0 u * k = e0 v -> e1 u * k = e1 v -> e2 u * k = e2 v ->
  aux.normalize3 v = Some u.
Proof.
  intros Hk Hv H0 H1 H2.
  assert (HL : aux.length3 v = k).
  { unfold aux.length3. rewrite Hv. apply sqrt_square. lra. }
  rewrite normalize3_defined by (rewrite Hv; nra).
  rewrite HL. f_equal. apply vec3_eq; simpl; rewrite <- ?H0, <- ?H1, <- ?H2; field; lra.
Qed.

(** The unit vector of a vector does not change when the vector is scaled
    by a positive number. *)
Lemma normalize3_scale (v : vec3) (k : R) :
  0 < k -> aux.normalize3 (aux.mult3 v k) = aux.normalize3 v.
Proof.
  intros Hk.
  assert (Hd : aux.dot3 (aux.mult3 v k) (aux.mult3 v k) = (k * k) * aux.dot3 v v)
    by (unfold aux.dot3, aux.mult3; simpl; ring).
  destruct (Req_dec_T (aux.dot3 v v) 0) as [Hz|Hnz].
  - rewrite !normalize3_null; [reflexivity | assumption | rewrite Hd, Hz; ring].
  - assert (HL : aux.length3 (aux.mult3 v k) = k * aux.length3 v).
    { unfold aux.length3. rewrite Hd, sqrt_mult by (try apply dot3_self_nonneg; nra).
      rewrite sqrt_square by lra. reflexivity. }
    assert (HLv : aux.length3 v <> 0) by now rewrite length3_zero_iff.
    assert (Hpos : 0 < aux.dot3 v v)
      by (destruct (dot3_self_nonneg v) as [H|H]; [exact H | congruence]).
    rewrite !normalize3_defined;
      [| assumption | rewrite Hd; apply Rgt_not_eq, Rmult_lt_0_compat; [nra | lra]].
    rewrite HL. f_equal. apply vec3_eq; simpl; field; lra.
Qed.

(** The projection on the plane of a unit normal is orthogonal to it. *)
Lemma projectOnPlane3_orthogonal (x n : vec3) :
  aux.dot3 n n = 1 -> aux.dot3 n (aux.projectOnPlane3 x n) = 0.
Proof.
  intros Hn. unfold aux.projectOnPlane3, aux.sum3, aux.dot3 in *; simpl.
  replace (e0 n * (e0 x + - (e0 n * e0 x + e1 n * e1 x + e2 n * e2 x) * e0 n) +
           e1 n * (e1 x + - (e0 n * e0 x + e1 n * e1 x + e2 n * e2 x) * e1 n) +
           e2 n * (e2 x + - (e0 n * e0 x + e1 n * e1 x + e2 n * e2 x) * e2 n))
    with ((e0 n * e0 x + e1 n * e1 x + e2 n * e2 x)
          * (1 - (e0 n * e0 n + e1 n * e1 n + e2 n * e2 n))) by ring.
  rewrite Hn. ring.
Qed.

Lemma dot3_sum3_r (w a b : vec3) :
  aux.dot3 w (aux.sum3 a b) = aux.dot3 w a + aux.dot3 w b.
Proof. unfold aux.dot3, aux.sum3; simpl. ring. Qed.

(** [x], [y] and [x × y] are orthonormal when [x] and [y] are unit vectors
    orthogonal to each other. *)
Lemma cross3_orthonormal (x y : vec3) :
  aux.dot3 x x = 1 -> aux.dot3 y y = 1 -> aux.dot3 x y = 0 ->
  orthonormal x y (aux.cross3 x y).
Proof.
  intros Hx Hy Hxy. unfold orthonormal. repeat split; try assumption.
  - unfold aux.cross3, aux.dot3 in *; simpl.
    replace ((e1 x * e2 y - e2 x * e1 y) * (e1 x * e2 y - e2 x * e1 y) +
             (e2 x * e0 y - e0 x * e2 y) * (e2 x * e0 y - e0 x * e2 y) +
             (e0 x * e1 y - e1 x * e0 y) * (e0 x * e1 y - e1 x * e0 y))
      with ((e0 x * e0 x + e1 x * e1 x + e2 x * e2 x) * (e0 y * e0 y + e1 y * e1 y + e2 y * e2 y)
            - (e0 x * e0 y + e1 x * e1 y + e2 x * e2 y) * (e0 x * e0 y + e1 x * e1 y + e2 x * e2 y))
      by ring.
    rewrite Hx, Hy, Hxy. ring.
  - unfold aux.cross3, aux.dot3; simpl. ring.
  - unfold aux.cross3, aux.dot3; simpl. ring.
Qed.

End Vector_facts.

(* ===================================================================== *)
(** * The frames and the transform of two oriented point pairs *)
(* ===================================================================== *)

Section Transform_facts.
Local Open Scope R_scope.

Lemma dec_half : 0.5 = / 2.
Proof. lra. Qed.

(** How [computeRigidTransform] builds the frames it returns. *)
Lemma frames_inv (a1 a1_n b1 b1_n a2 a2_n b2 b2_n : vec3) (f : frames) :
  computeRigidTransform_frames a1 a1_n b1 b1_n a2 a2_n b2 b2_n = Some f ->
  exists ta1 tb1 ta2 tb2 : vec3,
    o1 f = midpoint a1 b1 /\ o2 f = midpoint a2 b2 /\
    aux.normalize3 (aux.diff3 b1 a1) = Some (x1 f) /\
    aux.normalize3 (aux.diff3 b2 a2) = Some (x2 f) /\
    aux.normalize3 (aux.projectOnPlane3 a1_n (x1 f)) = Some ta1 /\
    aux.normalize3 (aux.projectOnPlane3 b1_n (x1 f)) = Some tb1 /\
    aux.normalize3 (aux.sum3 ta1 tb1) = Some (y1 f) /\
    aux.normalize3 (aux.projectOnPlane3 a2_n (x2 f)) = Some ta2 /\
    aux.normalize3 (aux.projectOnPlane3 b2_n (x2 f)) = Some tb2 /\
    aux.normalize3 (aux.sum3 ta2 tb2) = Some (y2 f) /\
    z1 f = aux.cross3 (x1 f) (y1 f) /\
    z2 f = aux.cross3 (x2 f) (y2 f).
Proof.
  unfold computeRigidTransform_frames. intros H.
  destruct (aux.normalize3 (aux.diff3 b1 a1)) as [vx1|] eqn:Hx1; [|discriminate].
  destruct (aux.normalize3 (aux.diff3 b2 a2)) as [vx2|] eqn:Hx2; [|discriminate].
  simpl in H.
  destruct (aux.normalize3 (aux.projectOnPlane3 a1_n vx1)) as [ta1|] eqn:Ha1; [|discriminate].
  destruct (aux.normalize3 (aux.projectOnPlane3 b1_n vx1)) as [tb1|] eqn:Hb1; [|discriminate].
  simpl in H.
  destruct (aux.normalize3 (aux.sum3 ta1 tb1)) as [vy1|] eqn:Hy1; [|discriminate].
  simpl in H.
  destruct (aux.normalize3 (aux.projectOnPlane3 a2_n vx2)) as [ta2|] eqn:Ha2; [|discriminate].
  destruct (aux.normalize3 (aux.projectOnPlane3 b2_n vx2)) as [tb2|] eqn:Hb2; [|discriminate].
  simpl in H.
  destruct (aux.normalize3 (aux.sum3 ta2 tb2)) as [vy2|] eqn:Hy2; [|discriminate].
  simpl in H. injection H as <-. simpl.
  exists ta1, tb1, ta2, tb2.
  repeat split; try assumption; unfold midpoint; apply vec3_eq; simpl; lra.
Qed.

(** The frames, from the unit vectors of the construction. *)
Lemma frames_intro (a1 a1_n b1 b1_n a2 a2_n b2 b2_n vx1 vx2 ta1 tb1 vy1 ta2 tb2 vy2 : vec3) :
  aux.normalize3 (aux.diff3 b1 a1) = Some vx1 ->
  aux.normalize3 (aux.diff3 b2 a2) = Some vx2 ->
  aux.normalize3 (aux.projectOnPlane3 a1_n vx1) = Some ta1 ->
  aux.normalize3 (aux.projectOnPlane3 b1_n vx1) = Some tb1 ->
  aux.normalize3 (aux.sum3 ta1 tb1) = Some vy1 ->
  aux.normalize3 (aux.projectOnPlane3 a2_n vx2) = Some ta2 ->
  aux.normalize3 (aux.projectOnPlane3 b2_n vx2) = Some tb2 ->
  aux.normalize3 (aux.sum3 ta2 tb2) = Some vy2 ->
  computeRigidTransform_frames a1 a1_n b1 b1_n a2 a2_n b2 b2_n
  = Some (Frames (V3 (0.5 * (e0 a1 + e0 b1)) (0.5 * (e1 a1 + e1 b1)) (0.5 * (e2 a1 + e2 b1)))
                 (V3 (0.5 * (e0 a2 + e0 b2)) (0.5 * (e1 a2 + e1 b2)) (0.5 * (e2 a2 + e2 b2)))
                 vx1 vx2 vy1 vy2 (aux.cross3 vx1 vy1) (aux.cross3 vx2 vy2)).
Proof.
  intros Hx1 Hx2 Ha1 Hb1 Hy1 Ha2 Hb2 Hy2. unfold computeRigidTransform_frames.
  rewrite Hx1, Hx2. cbn [mbind option_bind].
  rewrite Ha1, Hb1. cbn [mbind option_bind].
  rewrite Hy1. cbn [mbind option_bind].
  rewrite Ha2, Hb2. cbn [mbind option_bind].
  rewrite Hy2. reflexivity.
Qed.

(** In exact arithmetic the frames that [computeRigidTransform] builds are
    orthonormal whenever it builds them. *)
Lemma frames_orthonormal (a1 a1_n b1 b1_n a2 a2_n b2 b2_n : vec3) (f : frames) :
  computeRigidTransform_frames a1 a1_n b1 b1_n a2 a2_n b2 b2_n = Some f ->
  orthonormal (x1 f) (y1 f) (z1 f) /\ orthonormal (x2 f) (y2 f) (z2 f).
Proof.
  intros H. apply frames_inv in H
    as (ta1 & tb1 & ta2 & tb2 & _ & _ & Hx1 & Hx2 & Ha1 & Hb1 & Hy1 & Ha2 & Hb2 & Hy2 & -> & ->).
  pose proof (normalize3_unit _ _ Hx1) as Ux1.
  pose proof (normalize3_unit _ _ Hx2) as Ux2.
  split; apply cross3_orthonormal; eauto using normalize3_unit.
  - eapply normalize3_orthogonal; [exact Hy1|]. rewrite dot3_sum3_r.
    rewrite (normalize3_orthogonal _ _ _ Ha1), (normalize3_orthogonal _ _ _ Hb1);
      [lra | now apply projectOnPlane3_orthogonal ..].
  - eapply normalize3_orthogonal; [exact Hy2|]. rewrite dot3_sum3_r.
    rewrite (normalize3_orthogonal _ _ _ Ha2), (normalize3_orthogonal _ _ _ Hb2);
      [lra | now apply projectOnPlane3_orthogonal ..].
Qed.

(** The rotation [[x2|y2|z2]*[x1|y1|z1]^T] applied to a vector [v]. *)
Lemma solve_rotation_apply (f : frames) (v : vec3) :
  aux.mult3x3 (rot9 (computeRigidTransform_solve f)) v
  = V3 (e0 (x2 f) * aux.dot3 (x1 f) v + e0 (y2 f) * aux.dot3 (y1 f) v + e0 (z2 f) * aux.dot3 (z1 f) v)
       (e1 (x2 f) * aux.dot3 (x1 f) v + e1 (y2 f) * aux.dot3 (y1 f) v + e1 (z2 f) * aux.dot3 (z1 f) v)
       (e2 (x2 f) * aux.dot3 (x1 f) v + e2 (y2 f) * aux.dot3 (y1 f) v + e2 (z2 f) * aux.dot3 (z1 f) v).
Proof.
  unfold computeRigidTransform_solve, aux.mult3x3, aux.mult3x3_cols, aux.dot3; simpl.
  apply vec3_eq; simpl; ring.
Qed.

(** The translation is [o2 - R*o1]. *)
Lemma solve_translation (f : frames) :
  apply_rigid (computeRigidTransform_solve f) (o1 f) = o2 f.
Proof.
  unfold apply_rigid, computeRigidTransform_solve, aux.sum3; simpl.
  apply vec3_eq; simpl; ring.
Qed.

End Transform_facts.

(* ===================================================================== *)
(** * Rigid transform from two oriented point pairs *)
(* ===================================================================== *)

(** Linear arithmetic on the components of concrete vectors. *)
Ltac vec_lra :=
  cbv beta iota zeta delta
    [aux.projectOnPlane3 aux.sum3 aux.diff3 aux.dot3 aux.cross3 aux.mult3 e0 e1 e2];
  lra.

Section Rigid_transform_claims.
Local Open Scope R_scope.

(** C1.  For two oriented point pairs whose frames, as built by
    [computeRigidTransform], are orthonormal, the function returns a
    transform whose rotation block maps the axes of the first frame to the
    axes of the second ([R*x1 = x2], [R*y1 = y2], [R*z1 = z2]) and which maps
    the midpoint of the first pair to the midpoint of the second
    ([R*o1 + t = o2]).  In exact arithmetic the equalities are exact. *)
Theorem computeRigidTransform_maps_frame
    (a1 a1_n b1 b1_n a2 a2_n b2 b2_n : vec3) (f : frames) :
  computeRigidTransform_frames a1 a1_n b1 b1_n a2 a2_n b2 b2_n = Some f ->
  orthonormal (x1 f) (y1 f) (z1 f) ->
  orthonormal (x2 f) (y2 f) (z2 f) ->
  exists T : rigid12,
    computeRigidTransform a1 a1_n b1 b1_n a2 a2_n b2 b2_n = Some T /\
    aux.mult3x3 (rot9 T) (x1 f) = x2 f /\
    aux.mult3x3 (rot9 T) (y1 f) = y2 f /\
    aux.mult3x3 (rot9 T) (z1 f) = z2 f /\
    o1 f = midpoint a1 b1 /\ o2 f = midpoint a2 b2 /\
    apply_rigid T (midpoint a1 b1) = midpoint a2 b2.
Proof.
  intros Hf (Hxx & Hyy & Hzz & Hxy & Hxz & Hyz) _.
  exists (computeRigidTransform_solve f).
  destruct (frames_inv _ _ _ _ _ _ _ _ _ Hf) as (_ & _ & _ & _ & Ho1 & Ho2 & _).
  split; [unfold computeRigidTransform; now rewrite Hf|].
  rewrite !solve_rotation_apply, <- Ho1, <- Ho2, solve_translation.
  rewrite Hxx, Hyy, Hzz, Hxy, Hxz, Hyz.
  rewrite (dot3_comm (y1 f) (x1 f)), (dot3_comm (z1 f) (x1 f)), (dot3_comm (z1 f) (y1 f)).
  rewrite Hxy, Hxz, Hyz.
  repeat split; apply vec3_eq; simpl; ring.
Qed.

(** The frames of the pair ((0,0,0),(2,0,0)) with normals (0,1,0) and of the
    pair ((0,0,0),(0,2,0)) with normals (0,0,1). *)
Lemma frames_of_two_axis_pairs :
  exists f : frames,
    computeRigidTransform_frames
      (V3 0 0 0) (V3 0 1 0) (V3 2 0 0) (V3 0 1 0)
      (V3 0 0 0) (V3 0 0 1) (V3 0 2 0) (V3 0 0 1) = Some f /\
    x1 f = V3 1 0 0 /\ x2 f = V3 0 1 0 /\ y1 f = V3 0 1 0 /\ y2 f = V3 0 0 1.
Proof.
  eexists. split.
  - apply (frames_intro _ _ _ _ _ _ _ _
             (V3 1 0 0) (V3 0 1 0) (V3 0 1 0) (V3 0 1 0) (V3 0 1 0)
             (V3 0 0 1) (V3 0 0 1) (V3 0 0 1)).
    + apply (normalize3_is _ _ 2); vec_lra.
    + apply (normalize3_is _ _ 2); vec_lra.
    + apply (normalize3_is _ _ 1); vec_lra.
    + apply (normalize3_is _ _ 1); vec_lra.
    + apply (normalize3_is _ _ 2); vec_lra.
    + apply (normalize3_is _ _ 1); vec_lra.
    + apply (normalize3_is _ _ 1); vec_lra.
    + apply (normalize3_is _ _ 2); vec_lra.
  - repeat split.
Qed.

(** The pair ((0,0,0),(2,0,0)) with normals (0,1,0) and the pair
    ((0,0,0),(0,2,0)) with normals (0,0,1): the frames are orthonormal, the
    x-axis (1,0,0) is rotated to (0,1,0) and the midpoint (1,0,0) is mapped
    to the midpoint (0,1,0). *)
Lemma computeRigidTransform_maps_frame_witness :
  exists (f : frames) (T : rigid12),
    computeRigidTransform_frames
      (V3 0 0 0) (V3 0 1 0) (V3 2 0 0) (V3 0 1 0)
      (V3 0 0 0) (V3 0 0 1) (V3 0 2 0) (V3 0 0 1) = Some f /\
    orthonormal (x1 f) (y1 f) (z1 f) /\
    orthonormal (x2 f) (y2 f) (z2 f) /\
    computeRigidTransform
      (V3 0 0 0) (V3 0 1 0) (V3 2 0 0) (V3 0 1 0)
      (V3 0 0 0) (V3 0 0 1) (V3 0 2 0) (V3 0 0 1) = Some T /\
    aux.mult3x3 (rot9 T) (V3 1 0 0) = V3 0 1 0 /\
    apply_rigid T (midpoint (V3 0 0 0) (V3 2 0 0)) = midpoint (V3 0 0 0) (V3 0 2 0).
Proof.
  destruct frames_of_two_axis_pairs as (f & Hf & Hx1 & Hx2 & _).
  destruct (frames_orthonormal _ _ _ _ _ _ _ _ _ Hf) as [H1 H2].
  destruct (computeRigidTransform_maps_frame _ _ _ _ _ _ _ _ _ Hf H1 H2)
    as (T & HT & Hx & _ & _ & _ & _ & Ho).
  exists f, T. rewrite Hx1, Hx2 in Hx.
  split; [exact Hf|]. split; [exact H1|]. split; [exact H2|].
  split; [exact HT|]. split; [exact Hx | exact Ho].
Defined.

End Rigid_transform_claims.

(* ===================================================================== *)
(** * The y-axis of a frame *)
(* ===================================================================== *)

Section Y_axis_claims.
Local Open Scope R_scope.

Lemma length3_pos (v : vec3) : aux.dot3 v v <> 0 -> 0 < aux.length3 v.
Proof.
  intros H. destruct (length3_nonneg v) as [Hlt|Heq]; [exact Hlt|].
  symmetry in Heq. apply length3_zero_iff in Heq. contradiction.
Qed.

(** The sum of two normalised vectors of the same length is the sum of the
    vectors, up to the scale: both sums have the same unit vector. *)
Lemma normalize3_sum_same_length (p q tp tq : vec3) :
  aux.normalize3 p = Some tp -> aux.normalize3 q = Some tq ->
  aux.length3 p = aux.length3 q ->
  aux.normalize3 (aux.sum3 tp tq) = aux.normalize3 (aux.sum3 p q).
Proof.
  intros Hp Hq HL.
  apply normalize3_Some_inv in Hp as [Hpz ->].
  apply normalize3_Some_inv in Hq as [Hqz ->].
  rewrite <- HL.
  rewrite <- (normalize3_scale (aux.sum3 p q) (1 / aux.length3 p)).
  - f_equal. apply vec3_eq; simpl; ring.
  - apply Rdiv_lt_0_compat; [lra | now apply length3_pos].
Qed.

(** C7, as the code has it.  The y-axis of each frame is the unit vector of
    the sum of the two unit vectors of the projections of the normals on the
    plane orthogonal to the x-axis of the pair: each projection is normalised
    before the sum.  It is a unit vector orthogonal to the x-axis, and it is
    the unit vector of the sum of the projections themselves when the two
    projections have the same length. *)
Theorem y_axis_unit_sum_of_unit_projections
    (a1 a1_n b1 b1_n a2 a2_n b2 b2_n : vec3) (f : frames) :
  computeRigidTransform_frames a1 a1_n b1 b1_n a2 a2_n b2 b2_n = Some f ->
  (exists ta tb : vec3,
      aux.normalize3 (aux.projectOnPlane3 a1_n (x1 f)) = Some ta /\
      aux.normalize3 (aux.projectOnPlane3 b1_n (x1 f)) = Some tb /\
      aux.normalize3 (aux.sum3 ta tb) = Some (y1 f)) /\
  (exists ta tb : vec3,
      aux.normalize3 (aux.projectOnPlane3 a2_n (x2 f)) = Some ta /\
      aux.normalize3 (aux.projectOnPlane3 b2_n (x2 f)) = Some tb /\
      aux.normalize3 (aux.sum3 ta tb) = Some (y2 f)) /\
  aux.dot3 (y1 f) (y1 f) = 1 /\ aux.dot3 (x1 f) (y1 f) = 0 /\
  aux.dot3 (y2 f) (y2 f) = 1 /\ aux.dot3 (x2 f) (y2 f) = 0 /\
  (aux.length3 (aux.projectOnPlane3 a1_n (x1 f)) = aux.length3 (aux.projectOnPlane3 b1_n (x1 f)) ->
   aux.normalize3 (aux.sum3 (aux.projectOnPlane3 a1_n (x1 f)) (aux.projectOnPlane3 b1_n (x1 f)))
   = Some (y1 f)) /\
  (aux.length3 (aux.projectOnPlane3 a2_n (x2 f)) = aux.length3 (aux.projectOnPlane3 b2_n (x2 f)) ->
   aux.normalize3 (aux.sum3 (aux.projectOnPlane3 a2_n (x2 f)) (aux.projectOnPlane3 b2_n (x2 f)))
   = Some (y2 f)).
Proof.
  intros Hf.
  destruct (frames_orthonormal _ _ _ _ _ _ _ _ _ Hf)
    as [(_ & Hy1 & _ & Hxy1 & _) (_ & Hy2 & _ & Hxy2 & _)].
  destruct (frames_inv _ _ _ _ _ _ _ _ _ Hf)
    as (ta1 & tb1 & ta2 & tb2 & _ & _ & _ & _ & Ha1 & Hb1 & Hs1 & Ha2 & Hb2 & Hs2 & _).
  split; [now exists ta1, tb1|]. split; [now exists ta2, tb2|].
  repeat split; try assumption.
  - intros HL. now rewrite <- (normalize3_sum_same_length _ _ _ _ Ha1 Hb1 HL).
  - intros HL. now rewrite <- (normalize3_sum_same_length _ _ _ _ Ha2 Hb2 HL).
Qed.

(** The frames of the pair ((0,0,0),(1,0,0)) with the unit normals (0,1,0)
    and (4/5,0,3/5), taken as first and as second pair. *)
Lemma frames_of_tilted_pair :
  exists f : frames,
    computeRigidTransform_frames
      (V3 0 0 0) (V3 0 1 0) (V3 1 0 0) (V3 (4/5) 0 (3/5))
      (V3 0 0 0) (V3 0 1 0) (V3 1 0 0) (V3 (4/5) 0 (3/5)) = Some f /\
    x1 f = V3 1 0 0 /\
    aux.normalize3 (aux.sum3 (V3 0 1 0) (V3 0 0 1)) = Some (y1 f).
Proof.
  assert (Hx : aux.normalize3 (aux.diff3 (V3 1 0 0) (V3 0 0 0)) = Some (V3 1 0 0))
    by (apply (normalize3_is _ _ 1); vec_lra).
  assert (Ha : aux.normalize3 (aux.projectOnPlane3 (V3 0 1 0) (V3 1 0 0)) = Some (V3 0 1 0))
    by (apply (normalize3_is _ _ 1); vec_lra).
  assert (Hb : aux.normalize3 (aux.projectOnPlane3 (V3 (4/5) 0 (3/5)) (V3 1 0 0)) = Some (V3 0 0 1))
    by (apply (normalize3_is _ _ (3/5)); vec_lra).
  assert (Hy : aux.dot3 (aux.sum3 (V3 0 1 0) (V3 0 0 1)) (aux.sum3 (V3 0 1 0) (V3 0 0 1)) <> 0)
    by (apply Rgt_not_eq; vec_lra).
  pose proof (normalize3_defined _ Hy) as Hs.
  pose proof (frames_intro _ _ _ _ _ _ _ _ _ _ _ _ _ _ _ _ Hx Hx Ha Hb Hs Ha Hb Hs) as Hf.
  eexists. split; [exact Hf|]. split; [reflexivity | exact Hs].
Qed.

(** C7, as it is stated, fails: for the pair ((0,0,0),(1,0,0)) with the unit
    normals (0,1,0) and (4/5,0,3/5) the projections are (0,1,0) and
    (0,0,3/5); the unit vector of their sum is not the y-axis of the frame,
    which is the unit vector of (0,1,0) + (0,0,1). *)
Lemma y_axis_not_unit_sum_of_projections :
  exists (f : frames) (y : vec3),
    computeRigidTransform_frames
      (V3 0 0 0) (V3 0 1 0) (V3 1 0 0) (V3 (4/5) 0 (3/5))
      (V3 0 0 0) (V3 0 1 0) (V3 1 0 0) (V3 (4/5) 0 (3/5)) = Some f /\
    aux.normalize3 (aux.sum3 (aux.projectOnPlane3 (V3 0 1 0) (x1 f))
                             (aux.projectOnPlane3 (V3 (4/5) 0 (3/5)) (x1 f))) = Some y /\
    y <> y1 f.
Proof.
  destruct frames_of_tilted_pair as (f & Hf & Hx & Hy).
  exists f. rewrite Hx.
  set (s := aux.sum3 (aux.projectOnPlane3 (V3 0 1 0) (V3 1 0 0))
                     (aux.projectOnPlane3 (V3 (4/5) 0 (3/5)) (V3 1 0 0))).
  assert (Hs : aux.dot3 s s <> 0) by (apply Rgt_not_eq; subst s; vec_lra).
  eexists. split; [exact Hf|]. split; [apply (normalize3_defined _ Hs)|].
  apply normalize3_Some_inv in Hy as [Hyz Hy]. rewrite Hy.
  pose proof (length3_pos _ Hs) as Ls. pose proof (length3_pos _ Hyz) as Ly.
  apply Rinv_0_lt_compat in Ls.
  intros Heq. injection Heq as _ H1 H2.
  revert Ls H1 H2. generalize (aux.length3 s).
  generalize (aux.length3 (aux.sum3 (V3 0 1 0) (V3 0 0 1))).
  subst s. intros L L'. vec_lra.
Qed.

(** The same two pairs: the y-axis of the first frame is a unit vector
    orthogonal to its x-axis. *)
Lemma y_axis_unit_sum_of_unit_projections_witness :
  exists f : frames,
    computeRigidTransform_frames
      (V3 0 0 0) (V3 0 1 0) (V3 2 0 0) (V3 0 1 0)
      (V3 0 0 0) (V3 0 0 1) (V3 0 2 0) (V3 0 0 1) = Some f /\
    aux.dot3 (y1 f) (y1 f) = 1 /\ aux.dot3 (x1 f) (y1 f) = 0.
Proof.
  destruct frames_of_two_axis_pairs as (f & Hf & _).
  exists f. split; [exact Hf|].
  destruct (y_axis_unit_sum_of_unit_projections _ _ _ _ _ _ _ _ _ Hf)
    as (_ & _ & H1 & H2 & _).
  split; [exact H1 | exact H2].
Defined.

End Y_axis_claims.

(* ===================================================================== *)
(** * The signature of an oriented point pair *)
(* ===================================================================== *)

Section Signature_claims.
Local Open Scope R_scope.

(** The clamp to [-1,1] gives a number of [-1,1], and the number itself
    when it is there already. *)
Lemma clamp_range (x : R) : -1 <= aux.clamp x (-1) 1 <= 1.
Proof.
  unfold aux.clamp.
  destruct (Rlt_dec x (-1)); [lra|]. destruct (Rlt_dec 1 x); lra.
Qed.

Lemma clamp_id (x : R) : -1 <= x <= 1 -> aux.clamp x (-1) 1 = x.
Proof.
  intros H. unfold aux.clamp.
  destruct (Rlt_dec x (-1)); [lra|]. destruct (Rlt_dec 1 x); [lra | reflexivity].
Qed.

Lemma std_acos_in_domain (x : R) : -1 <= x <= 1 -> std_acos x = Some (acos x).
Proof.
  intros H. unfold std_acos.
  destruct (Rle_dec (-1) x); [|lra]. destruct (Rle_dec x 1); [reflexivity | lra].
Qed.

Lemma std_acos_clamp (x : R) :
  std_acos (aux.clamp x (-1) 1) = Some (acos (aux.clamp x (-1) 1)).
Proof. apply std_acos_in_domain, clamp_range. Qed.

Lemma diff3_distinct (p q : vec3) :
  p <> q -> aux.dot3 (aux.diff3 q p) (aux.diff3 q p) <> 0.
Proof.
  intros Hne Hz. apply dot3_zero_iff in Hz. apply Hne.
  injection Hz as H0 H1 H2. apply vec3_eq; lra.
Qed.

Lemma diff3_swap (p q : vec3) : aux.diff3 p q = vopp (aux.diff3 q p).
Proof. apply vec3_eq; simpl; ring. Qed.

(** The unit vector of the opposite vector is the opposite unit vector. *)
Lemma normalize3_vopp (v u : vec3) :
  aux.normalize3 v = Some u -> aux.normalize3 (vopp v) = Some (vopp u).
Proof.
  intros H. apply normalize3_Some_inv in H as [Hnz ->].
  assert (Hd : aux.dot3 (vopp v) (vopp v) = aux.dot3 v v)
    by (unfold aux.dot3, vopp; simpl; ring).
  rewrite normalize3_defined by now rewrite Hd.
  unfold aux.length3. rewrite Hd. f_equal. apply vec3_eq; simpl; ring.
Qed.

(** The signature, in closed form, from the unit vector of the chord. *)
Lemma signature_of_chord (p1 n1 p2 n2 u : vec3) :
  aux.normalize3 (aux.diff3 p2 p1) = Some u ->
  compute_oriented_point_pair_signature p1 n1 p2 n2
  = Some (V3 (acos (aux.clamp (aux.dot3 n1 u) (-1) 1))
             (acos (aux.clamp (aux.dot3 n2 (vopp u)) (-1) 1))
             (acos (aux.clamp (aux.dot3 n1 n2) (-1) 1))).
Proof.
  intros Hu. unfold compute_oriented_point_pair_signature.
  change (V3 (e0 p2 - e0 p1) (e1 p2 - e1 p1) (e2 p2 - e2 p1)) with (aux.diff3 p2 p1).
  rewrite Hu. cbn [mbind option_bind].
  rewrite std_acos_clamp. cbn [mbind option_bind].
  change (V3 (- e0 u) (- e1 u) (- e2 u)) with (vopp u).
  rewrite !std_acos_clamp. reflexivity.
Qed.

(** C6.  For two distinct points the signature is
    [acos (clamp (n1 . unit (p2 - p1)))], [acos (clamp (n2 . unit (p1 - p2)))],
    [acos (clamp (n1 . n2))], each dot product clamped to [-1,1]; for
    p1 = (0,0,0), n1 = (0,0,1), p2 = (1,0,0), n2 = (0,0,1) it is
    (π/2, π/2, 0). *)
Theorem signature_formula (p1 n1 p2 n2 : vec3) :
  p1 <> p2 ->
  (exists u12 u21 : vec3,
      aux.normalize3 (aux.diff3 p2 p1) = Some u12 /\
      aux.normalize3 (aux.diff3 p1 p2) = Some u21 /\
      compute_oriented_point_pair_signature p1 n1 p2 n2
      = Some (V3 (acos (aux.clamp (aux.dot3 n1 u12) (-1) 1))
                 (acos (aux.clamp (aux.dot3 n2 u21) (-1) 1))
                 (acos (aux.clamp (aux.dot3 n1 n2) (-1) 1)))) /\
  compute_oriented_point_pair_signature (V3 0 0 0) (V3 0 0 1) (V3 1 0 0) (V3 0 0 1)
  = Some (V3 (PI / 2) (PI / 2) 0).
Proof.
  intros Hne. split.
  - pose proof (normalize3_defined _ (diff3_distinct _ _ Hne)) as Hu.
    eexists; eexists. split; [exact Hu|]. split.
    + rewrite diff3_swap. apply normalize3_vopp. exact Hu.
    + apply signature_of_chord. exact Hu.
  - rewrite (signature_of_chord _ _ _ _ (V3 1 0 0))
      by (apply (normalize3_is _ _ 1); vec_lra).
    rewrite !clamp_id by (unfold vopp; vec_lra).
    replace (aux.dot3 (V3 0 0 1) (V3 1 0 0)) with 0 by vec_lra.
    replace (aux.dot3 (V3 0 0 1) (vopp (V3 1 0 0))) with 0 by (unfold vopp; vec_lra).
    replace (aux.dot3 (V3 0 0 1) (V3 0 0 1)) with 1 by vec_lra.
    now rewrite acos_0, acos_1.
Qed.

(** The literal pair of the specification. *)
Lemma signature_formula_witness :
  V3 0 0 0 <> V3 1 0 0 /\
  compute_oriented_point_pair_signature (V3 0 0 0) (V3 0 0 1) (V3 1 0 0) (V3 0 0 1)
  = Some (V3 (PI / 2) (PI / 2) 0).
Proof.
  assert (H : V3 0 0 0 <> V3 1 0 0) by (intros H; injection H as H; lra).
  split; [exact H|].
  exact (proj2 (signature_formula (V3 0 0 0) (V3 0 0 1) (V3 1 0 0) (V3 0 0 1) H)).
Defined.

(** C8.  For two distinct points the signature is computed, every
    arccosine being taken of a number that the clamp has put in [-1,1],
    whatever the length of the normals; each of its three components lies
    in [0, π]. *)
Theorem signature_range (p1 n1 p2 n2 : vec3) :
  p1 <> p2 ->
  exists (s : vec3) (c0 c1 c2 : R),
    compute_oriented_point_pair_signature p1 n1 p2 n2 = Some s /\
    s = V3 (acos c0) (acos c1) (acos c2) /\
    (-1 <= c0 <= 1 /\ -1 <= c1 <= 1 /\ -1 <= c2 <= 1) /\
    std_acos c0 = Some (e0 s) /\ std_acos c1 = Some (e1 s) /\ std_acos c2 = Some (e2 s) /\
    0 <= e0 s <= PI /\ 0 <= e1 s <= PI /\ 0 <= e2 s <= PI.
Proof.
  intros Hne.
  pose proof (normalize3_defined _ (diff3_distinct _ _ Hne)) as Hu.
  eexists. eexists. eexists. eexists.
  split; [apply (signature_of_chord _ _ _ _ _ Hu)|].
  split; [reflexivity|].
  split; [repeat split; apply clamp_range|].
  simpl. repeat split; try apply std_acos_clamp; apply acos_bound.
Qed.

(** Two distinct points with normals of length 3. *)
Lemma signature_range_witness :
  V3 0 0 0 <> V3 1 0 0 /\
  exists s : vec3,
    compute_oriented_point_pair_signature (V3 0 0 0) (V3 0 0 3) (V3 1 0 0) (V3 0 0 3) = Some s /\
    0 <= e0 s <= PI /\ 0 <= e1 s <= PI /\ 0 <= e2 s <= PI.
Proof.
  assert (H : V3 0 0 0 <> V3 1 0 0) by (intros H; injection H as H; lra).
  split; [exact H|].
  destruct (signature_range (V3 0 0 0) (V3 0 0 3) (V3 1 0 0) (V3 0 0 3) H)
    as (s & c0 & c1 & c2 & Hs & _ & _ & _ & _ & _ & H0 & H1 & H2).
  exists s. split; [exact Hs|]. split; [exact H0|]. split; [exact H1 | exact H2].
Defined.

End Signature_claims.

(* ===================================================================== *)
(** * The number of iterations *)
(* ===================================================================== *)

Section Iterations_claims.
Local Open Scope R_scope.

Lemma log_pos (d : R) : 0 < d -> log d = Some (ln d).
Proof. intros H. unfold log. destruct (Rlt_dec 0 d); [reflexivity | contradiction]. Qed.

Lemma ln_below_1 (x : R) : 0 < x -> x < 1 -> ln x < 0.
Proof. intros H0 H1. rewrite <- ln_1. now apply ln_increasing. Qed.

Lemma ln_le_1 (x : R) : 0 < x -> x <= 1 -> ln x <= 0.
Proof.
  intros H0 [H1 | ->]; [left; now apply ln_below_1 | rewrite ln_1; lra].
Qed.

(** The quotient of two logarithms of numbers of (0,1] and (0,1) is not
    negative. *)
Lemma ln_quotient_nonneg (x y : R) :
  0 < x <= 1 -> 0 < y < 1 -> 0 <= ln x / ln y.
Proof.
  intros [Hx0 Hx1] [Hy0 Hy1].
  pose proof (ln_le_1 x Hx0 Hx1) as Hx. pose proof (ln_below_1 y Hy0 Hy1) as Hy.
  replace (ln x / ln y) with ((- ln x) * / (- ln y)) by (field; lra).
  apply Rmult_le_pos; [lra|]. left. apply Rinv_0_lt_compat. lra.
Qed.

(** The conversion to [int] of [q + 1.0] for a [q] that is not negative. *)
Lemma static_cast_int_succ (q : R) :
  0 <= q ->
  static_cast_int (q + 1.0)
  = if (Zfloor q + 1 <=? INT_MAX)%Z then Some (Zfloor q + 1)%Z else None.
Proof.
  intros Hq. unfold static_cast_int, Ztrunc.
  destruct (Rle_dec 0 (q + 1.0)) as [_|Hn]; [|exfalso; apply Hn; lra].
  rewrite dec_1. change 1 with (IZR 1). rewrite Zfloor_addz.
  assert (H0 : (0 <= Zfloor q)%Z) by (apply Zfloor_lub; exact Hq).
  replace (INT_MIN <=? Zfloor q + 1)%Z with true
    by (symmetry; apply Z.leb_le; unfold INT_MIN; lia).
  reflexivity.
Qed.

(** [computeNumberOfIterations] outside the degenerate case. *)
Lemma computeNumberOfIterations_regular (r P : R) :
  P < 1 -> 0 < 0.25 * r < 1 ->
  computeNumberOfIterations r P
  = static_cast_int (ln (1.0 - P) / ln (1.0 - 0.25 * r) + 1.0).
Proof.
  intros HP [Hp0 Hp1]. unfold computeNumberOfIterations.
  destruct (Rle_dec (1.0 - 0.25 * r) 0.0) as [H|_]; [lra|].
  rewrite !log_pos by lra. cbn [mbind option_bind].
  rewrite fdiv_Some by (apply ln_neq_0; lra). reflexivity.
Qed.

Lemma Zceil_of_non_integer (q : R) :
  q <> IZR (Zfloor q) -> Zceil q = (Zfloor q + 1)%Z.
Proof.
  intros H. pose proof (Zfloor_bound q) as [Hl Hu].
  apply Zceil_eq. rewrite plus_IZR. lra.
Qed.

Lemma Zceil_of_integer (q : R) :
  q = IZR (Zfloor q) -> Zceil q = Zfloor q.
Proof.
  intros H. apply Zceil_eq. lra.
Qed.

(** C2, as it is stated, fails: for [P = 0.25] and [r = 1] the quotient
    [ln (1-P) / ln (1-p)] is 1 and its ceiling is 1, and the code returns 2. *)
Lemma computeNumberOfIterations_not_ceil :
  computeNumberOfIterations 1 0.25 = Some 2%Z /\
  Zceil (ln (1 - 0.25) / ln (1 - 0.25 * 1)) = 1%Z /\
  computeNumberOfIterations 1 0.25 <> Some (Zceil (ln (1 - 0.25) / ln (1 - 0.25 * 1))).
Proof.
  assert (HL : ln (3 / 4) <> 0) by (apply ln_neq_0; lra).
  assert (Hq : ln (1 - 0.25) / ln (1 - 0.25 * 1) = 1).
  { replace (1 - 0.25) with (3 / 4) by lra. replace (1 - 0.25 * 1) with (3 / 4) by lra.
    now field. }
  assert (Hcode : computeNumberOfIterations 1 0.25 = Some 2%Z).
  { rewrite computeNumberOfIterations_regular by lra.
    replace (1.0 - 0.25) with (3 / 4) by lra. replace (1.0 - 0.25 * 1) with (3 / 4) by lra.
    replace (ln (3 / 4) / ln (3 / 4)) with 1 by now field.
    rewrite static_cast_int_succ by lra.
    change 1 with (IZR 1). rewrite ZfloorZ. reflexivity. }
  assert (Hceil : Zceil (ln (1 - 0.25) / ln (1 - 0.25 * 1)) = 1%Z).
  { rewrite Hq. apply Zceil_eq. simpl. lra. }
  split; [exact Hcode|]. split; [exact Hceil|].
  rewrite Hcode, Hceil. discriminate.
Qed.

End Iterations_claims.

(* ===================================================================== *)
(** * Averaging in the entries of a pose cell *)
(* ===================================================================== *)

Section Averaging_claims.
Local Open Scope R_scope.

(** C3.  [Entry::computeAverageRigidTransform] is idempotent: for an entry,
    after a sequence of insertions and one averaging, a second averaging
    leaves the axis-angle, the translation and the count as they are; the
    first one has set the count to 1 when it was at least 2, and has left
    the entry as it was otherwise. *)
Theorem computeAverageRigidTransform_idempotent (e : Entry.t) (calls : list (vec3 * vec3)) :
  let inserted := Entry_calls.add_all calls e in
  let once := Entry.computeAverageRigidTransform inserted in
  let twice := Entry.computeAverageRigidTransform once in
  Entry.axis_angle_ twice = Entry.axis_angle_ once /\
  Entry.translation_ twice = Entry.translation_ once /\
  Entry.num_transforms_ twice = Entry.num_transforms_ once /\
  ((2 <= Entry.num_transforms_ inserted)%Z -> Entry.num_transforms_ once = 1%Z) /\
  ((Entry.num_transforms_ inserted < 2)%Z -> once = inserted).
Proof.
  intros inserted once twice. subst twice once.
  rewrite computeAverage_idempotent. repeat split.
  - intros H. now rewrite computeAverage_from_2.
  - apply computeAverage_below_2.
Qed.

(** Two transforms, averaged once and once more. *)
Lemma computeAverageRigidTransform_idempotent_witness :
  let once := Entry.computeAverageRigidTransform
                (Entry_calls.add_all [(V3 1 2 3, V3 0 0 0); (V3 3 2 1, V3 4 0 2)] Entry.new) in
  Entry.computeAverageRigidTransform once = once /\ Entry.num_transforms_ once = 1%Z.
Proof.
  intros once.
  pose proof (computeAverageRigidTransform_idempotent Entry.new
                [(V3 1 2 3, V3 0 0 0); (V3 3 2 1, V3 4 0 2)]) as H.
  cbv zeta in H. fold once in H. destruct H as (Ha & Ht & Hn & Hone & _).
  split.
  - destruct (Entry.computeAverageRigidTransform once), once. simpl in *. congruence.
  - apply Hone. change (2 <= int_incr (int_incr 0))%Z. vm_compute. discriminate.
Defined.

(** The hypotheses that [computeAverageRigidTransformInEntries] appends for
    a cell filled by a sequence of calls: one for each model of the calls,
    with the mean transform of the model. *)
Lemma emitted_hypotheses (calls : list (N * vec3 * vec3)) (out : list Hypothesis_t)
    (counter : Z) :
  (Z.of_nat (length calls) <= INT_MAX)%Z ->
  exists new : list Hypothesis_t,
    (Cell.computeAverageRigidTransformInEntries (Cell_calls.add_all calls Cell.new) out counter).1.2
    = out ++ new /\
    NoDup (obj_model_ <$> new) /\
    (forall m : N, m ∈ obj_model_ <$> new <-> m ∈ calls.*1.*1) /\
    (forall h : Hypothesis_t, h ∈ new ->
       rigid_transform_rot h
       = Some (aux.axisAngleToRotationMatrix (vmean (Cell_calls.calls_of (obj_model_ h) calls).*1)) /\
       rigid_transform_trans h
       = Some (vmean (Cell_calls.calls_of (obj_model_ h) calls).*2)).
Proof.
  intros Hmax. rewrite computeAverageRigidTransformInEntries_eq. simpl.
  set (c := Cell_calls.add_all calls Cell.new).
  set (emit := fun it : N * Entry.t =>
                 Cell.new_hypothesis c it.1 (Entry.computeAverageRigidTransform it.2)).
  exists (emit <$> map_to_list (Cell.model_to_entry_ c)).
  assert (Hmodels : obj_model_ <$> (emit <$> map_to_list (Cell.model_to_entry_ c))
                    = (map_to_list (Cell.model_to_entry_ c)).*1).
  { rewrite <- list_fmap_compose. apply list_fmap_ext. intros i [k e] _. reflexivity. }
  assert (Hdom : forall m, m ∈ (map_to_list (Cell.model_to_entry_ c)).*1 <-> m ∈ calls.*1.*1).
  { intros m. rewrite list_elem_of_fmap. split.
    - intros ([k e] & -> & Hin). apply elem_of_map_to_list in Hin.
      assert (Hs : is_Some (Cell.model_to_entry_ c !! k)) by eauto.
      apply cell_add_all_models in Hs as [Hs|Hs]; [|exact Hs].
      simpl in Hs. rewrite lookup_empty in Hs. now destruct Hs.
    - intros Hin.
      assert (Hs : is_Some (Cell.model_to_entry_ c !! m))
        by (apply cell_add_all_models; now right).
      destruct Hs as [e He]. exists (m, e). split; [reflexivity|].
      now apply elem_of_map_to_list. }
  split; [reflexivity|]. rewrite Hmodels.
  split; [apply NoDup_fst_map_to_list|]. split; [exact Hdom|].
  intros h Hh. apply list_elem_of_fmap in Hh as ([k e] & -> & Hin).
  assert (Hk : k ∈ calls.*1.*1).
  { apply Hdom. apply list_elem_of_fmap. now exists (k, e). }
  apply elem_of_map_to_list in Hin.
  assert (He : e = Entry_calls.add_all (Cell_calls.calls_of k calls) Entry.new).
  { pose proof (cell_add_all_entry calls Cell.new k) as H.
    unfold Cell.entry_of in H. fold c in H. rewrite Hin in H. simpl in H.
    rewrite lookup_empty in H. exact H. }
  subst emit. cbn [fst snd]. unfold Cell.new_hypothesis; simpl.
  rewrite He, computeAverage_add_all_new.
  - simpl. split; reflexivity.
  - now apply calls_of_nonempty.
  - pose proof (calls_of_length k calls). lia.
Qed.

(** C4.  After [n] calls [addRigidTransform (v_i, t_i)] on a new entry,
    [1 <= n <= INT_MAX], one call of [computeAverageRigidTransform] leaves
    the means [(v_1 + ... + v_n)/n] and [(t_1 + ... + t_n)/n] in the entry,
    with the count 1.  For a cell filled by calls
    [addRigidTransform (model_i, v_i, t_i)],
    [computeAverageRigidTransformInEntries] appends to [out] one hypothesis
    for each model of the cell and no other, whose rotation is the matrix of
    the mean axis-angle of the model and whose translation is its mean
    translation. *)
Theorem pose_cell_mean (entry_calls : list (vec3 * vec3))
    (cell_calls : list (N * vec3 * vec3)) (out : list Hypothesis_t) (counter : Z) :
  entry_calls <> [] ->
  (Z.of_nat (length entry_calls) <= INT_MAX)%Z ->
  (Z.of_nat (length cell_calls) <= INT_MAX)%Z ->
  Entry.computeAverageRigidTransform (Entry_calls.add_all entry_calls Entry.new)
  = Entry.mk (vmean entry_calls.*1) (vmean entry_calls.*2) 1 /\
  exists new : list Hypothesis_t,
    (Cell.computeAverageRigidTransformInEntries
       (Cell_calls.add_all cell_calls Cell.new) out counter).1.2 = out ++ new /\
    NoDup (obj_model_ <$> new) /\
    (forall m : N, m ∈ obj_model_ <$> new <-> m ∈ cell_calls.*1.*1) /\
    (forall h : Hypothesis_t, h ∈ new ->
       rigid_transform_rot h
       = Some (aux.axisAngleToRotationMatrix
                 (vmean (Cell_calls.calls_of (obj_model_ h) cell_calls).*1)) /\
       rigid_transform_trans h
       = Some (vmean (Cell_calls.calls_of (obj_model_ h) cell_calls).*2)).
Proof.
  intros Hne He Hc. split.
  - now apply computeAverage_add_all_new.
  - now apply emitted_hypotheses.
Qed.

(** Two transforms: the entry ends with their mean. *)
Lemma pose_cell_mean_witness :
  [(V3 1 2 3, V3 0 0 0); (V3 3 2 1, V3 4 0 2)] <> [] /\
  Entry.computeAverageRigidTransform
    (Entry_calls.add_all [(V3 1 2 3, V3 0 0 0); (V3 3 2 1, V3 4 0 2)] Entry.new)
  = Entry.mk (V3 2 2 2) (V3 2 0 1) 1.
Proof.
  assert (Hne : [(V3 1 2 3, V3 0 0 0); (V3 3 2 1, V3 4 0 2)] <> []) by discriminate.
  split; [exact Hne|].
  destruct (pose_cell_mean [(V3 1 2 3, V3 0 0 0); (V3 3 2 1, V3 4 0 2)]
              [(1%N, V3 1 2 3, V3 0 0 0)] [] 0 Hne) as [H _].
  - unfold INT_MAX. simpl. lia.
  - unfold INT_MAX. simpl. lia.
  - rewrite H. f_equal; apply vec3_eq; simpl; lra.
Defined.

(** Every hypothesis is created with the match confidence -1. *)
Lemma new_hypothesis_confidence (c : Cell.t) (m : N) (e : Entry.t) :
  match_confidence_ (Cell.new_hypothesis c m e) = -1.0.
Proof. reflexivity. Qed.

Lemma not_in_0_1_minus_1 : ~ in_0_1 (-1.0).
Proof. unfold in_0_1. lra. Qed.

(** What one step of the loop over the full cells appends to [out] has the
    match confidence -1. *)
Lemma cells_step_unscored (st : RotationSpace.t * list Hypothesis_t * Z) (it : int3) :
  exists new : list Hypothesis_t,
    (RotationSpace.cells_step st it).1.2 = st.1.2 ++ new /\
    forall h : Hypothesis_t, h ∈ new -> match_confidence_ h = -1.0.
Proof.
  destruct st as [[rs out] counter]. unfold RotationSpace.cells_step.
  destruct (RotationSpace.cell_at rs it) as [cell|].
  - rewrite computeAverageRigidTransformInEntries_eq. cbn [fst snd].
    eexists. split; [reflexivity|].
    intros h Hh. apply list_elem_of_fmap in Hh as ([k e] & -> & _). reflexivity.
  - exists []. split; [cbn [fst snd]; now rewrite app_nil_r | intros h Hh; inversion Hh].
Qed.

Lemma cells_fold_unscored (l : list int3) (st : RotationSpace.t * list Hypothesis_t * Z) :
  exists new : list Hypothesis_t,
    (foldl RotationSpace.cells_step st l).1.2 = st.1.2 ++ new /\
    forall h : Hypothesis_t, h ∈ new -> match_confidence_ h = -1.0.
Proof.
  revert st. induction l as [|it l IH]; intros st; cbn [foldl].
  - exists []. split; [now rewrite app_nil_r | intros h Hh; inversion Hh].
  - destruct (IH (RotationSpace.cells_step st it)) as (new2 & H2 & Hall2).
    destruct (cells_step_unscored st it) as (new1 & H1 & Hall1).
    exists (new1 ++ new2). split.
    + now rewrite H2, H1, app_assoc.
    + intros h [Hh|Hh]%elem_of_app; [now apply Hall1 | now apply Hall2].
Qed.

(** C9, as the code has it.  The constructor of [Hypothesis] sets the match
    confidence to -1, which is not in (0,1], and every hypothesis that
    [Cell::computeAverageRigidTransformInEntries] appends to [out], one for
    each entry of the cell, still has the match confidence -1; so has every
    hypothesis appended by [computeAverageRigidTransformInCells].  The pose
    clusterer assigns no confidence. *)
Theorem grouped_hypotheses_unscored (obj_model : N) (c : Cell.t) (rs : RotationSpace.t)
    (out : list Hypothesis_t) (counter : Z) :
  match_confidence_ (Hypothesis_new obj_model) = -1.0 /\
  ~ in_0_1 (match_confidence_ (Hypothesis_new obj_model)) /\
  (exists new : list Hypothesis_t,
      (Cell.computeAverageRigidTransformInEntries c out counter).1.2 = out ++ new /\
      length new = size (Cell.model_to_entry_ c) /\
      forall h : Hypothesis_t, h ∈ new ->
        match_confidence_ h = -1.0 /\ ~ in_0_1 (match_confidence_ h)) /\
  (exists new : list Hypothesis_t,
      (RotationSpace.computeAverageRigidTransformInCells rs out counter).1.2 = out ++ new /\
      forall h : Hypothesis_t, h ∈ new ->
        match_confidence_ h = -1.0 /\ ~ in_0_1 (match_confidence_ h)).
Proof.
  split; [reflexivity|]. split; [apply not_in_0_1_minus_1|]. split.
  - rewrite computeAverageRigidTransformInEntries_eq. simpl.
    eexists. split; [reflexivity|]. split.
    + now rewrite length_fmap, length_map_to_list.
    + intros h Hh. apply list_elem_of_fmap in Hh as ([k e] & -> & _).
      split; [reflexivity | apply not_in_0_1_minus_1].
  - unfold RotationSpace.computeAverageRigidTransformInCells.
    destruct (cells_fold_unscored (RotationSpace.full_cells_ rs) (rs, out, counter))
      as (new & Hnew & Hall).
    exists new. split; [exact Hnew|].
    intros h Hh. rewrite (Hall h Hh). split; [reflexivity | apply not_in_0_1_minus_1].
Qed.

(** C9, as it is stated, fails: the cell that received one transform for
    the model at address 1 emits one hypothesis, of match confidence -1. *)
Lemma grouped_hypothesis_confidence_not_in_0_1 :
  exists h : Hypothesis_t,
    (Cell.computeAverageRigidTransformInEntries
       (Cell.addRigidTransform Cell.new 1%N (V3 0 0 0) (V3 0 0 0)) [] 0).1.2 = [h] /\
    match_confidence_ h = -1.0 /\
    ~ in_0_1 (match_confidence_ h).
Proof.
  rewrite computeAverageRigidTransformInEntries_eq. simpl.
  unfold Cell.addRigidTransform. simpl.
  rewrite insert_empty, map_to_list_singleton. simpl.
  eexists. split; [reflexivity|].
  split; [reflexivity | apply not_in_0_1_minus_1].
Qed.

End Averaging_claims.

(* ===================================================================== *)
(** * Insertion in the rotation space *)
(* ===================================================================== *)

Section RotationSpace_claims.
Local Open Scope R_scope.

(** An insertion outside the bounds: nothing changes, a warning is printed. *)
Lemma addRigidTransform_outside (rs : RotationSpace.t) (model : N)
    (axis_angle translation : vec3) :
  RotationSpace.outside rs axis_angle = true ->
  RotationSpace.addRigidTransform rs model axis_angle translation
  = (false, rs,
     [WARNING_out_of_bounds "addRigidTransform" axis_angle
        (ORROctree.bounds_ (RotationSpace.rot_octree_ rs))]).
Proof.
  unfold RotationSpace.outside, RotationSpace.addRigidTransform, ORROctree.createLeaf.
  intros ->. reflexivity.
Qed.

(** An insertion inside the bounds, by the state of the leaf of the point:
    the cell of the leaf afterwards is the cell it had, or a new one, with
    the transform added to the entry of the model. *)
Lemma addRigidTransform_inside (rs : RotationSpace.t) (model : N)
    (axis_angle translation : vec3) :
  RotationSpace.outside rs axis_angle = false ->
  exists (cell : Cell.t) (rs' : RotationSpace.t),
    RotationSpace.addRigidTransform rs model axis_angle translation = (true, rs', []) /\
    (Cell.model_to_entry_ cell
     = default ∅ (Cell.model_to_entry_
                    <$> RotationSpace.cell_at rs (RotationSpace.leaf_of rs axis_angle))) /\
    RotationSpace.cell_at rs' (RotationSpace.leaf_of rs axis_angle)
    = Some (Cell.addRigidTransform cell model axis_angle translation) /\
    forall leaf : int3, leaf <> RotationSpace.leaf_of rs axis_angle ->
      RotationSpace.cell_at rs' leaf = RotationSpace.cell_at rs leaf.
Proof.
  unfold RotationSpace.outside, RotationSpace.addRigidTransform, ORROctree.createLeaf,
    RotationSpace.cell_at, RotationSpace.leaf_of.
  intros ->.
  set (leaf := ORROctree.voxel_of (RotationSpace.rot_octree_ rs)
                 (e0 axis_angle) (e1 axis_angle) (e2 axis_angle)).
  unfold ORROctree.getUserData, ORROctree.setUserData.
  destruct (ORROctree.full_leaves_ (RotationSpace.rot_octree_ rs) !! leaf)
    as [[cell|]|] eqn:Hleaf; simpl.
  - rewrite Hleaf. simpl. eexists; eexists. split; [reflexivity|].
    split; [reflexivity|]. split; [simpl; now rewrite lookup_insert_eq|].
    intros leaf' Hne. simpl. now rewrite lookup_insert_ne.
  - rewrite Hleaf. simpl. eexists (Cell.mk ∅ _ _); eexists. split; [reflexivity|].
    split; [reflexivity|]. split; [simpl; now rewrite lookup_insert_eq|].
    intros leaf' Hne. simpl. now rewrite lookup_insert_ne.
  - rewrite lookup_insert_eq. simpl. eexists (Cell.mk ∅ _ _); eexists. split; [reflexivity|].
    split; [reflexivity|]. split; [simpl; now rewrite lookup_insert_eq|].
    intros leaf' Hne. simpl. now rewrite !lookup_insert_ne.
Qed.

(** The list of the full cells after an insertion inside the bounds: the
    leaf of the point is pushed back when it had no cell. *)
Lemma addRigidTransform_full_cells (rs : RotationSpace.t) (model : N)
    (axis_angle translation : vec3) :
  RotationSpace.outside rs axis_angle = false ->
  RotationSpace.full_cells_
    (RotationSpace.addRigidTransform rs model axis_angle translation).1.2
  = RotationSpace.full_cells_ rs
    ++ (if RotationSpace.cell_at rs (RotationSpace.leaf_of rs axis_angle) is Some _
        then [] else [RotationSpace.leaf_of rs axis_angle]).
Proof.
  unfold RotationSpace.outside, RotationSpace.addRigidTransform, ORROctree.createLeaf,
    RotationSpace.cell_at, RotationSpace.leaf_of.
  intros ->.
  set (leaf := ORROctree.voxel_of (RotationSpace.rot_octree_ rs)
                 (e0 axis_angle) (e1 axis_angle) (e2 axis_angle)).
  unfold ORROctree.getUserData, ORROctree.setUserData.
  destruct (ORROctree.full_leaves_ (RotationSpace.rot_octree_ rs) !! leaf)
    as [[cell|]|] eqn:Hleaf; simpl.
  - rewrite Hleaf. simpl. now rewrite app_nil_r.
  - rewrite Hleaf. reflexivity.
  - rewrite lookup_insert_eq. reflexivity.
Qed.

(** C5.  [RotationSpace::addRigidTransform] either returns true, prints
    nothing and adds the transform to the entry of the model in the cell of
    the voxel owning the axis-angle point: afterwards this entry holds the
    axis-angle vector and the translation it held (zero for a new entry, in
    a new cell when the voxel had none) plus those of the call, by
    component, and its count is one more ([++] on an [int]), while every
    other entry of every cell stays as it was and the leaf is pushed back on
    the list of the full cells when it had no cell; or, for an axis-angle
    point outside the bounds, prints a warning, returns false and leaves the
    rotation space unchanged. *)
Theorem addRigidTransform_atomic (rs : RotationSpace.t) (model : N)
    (axis_angle translation : vec3) :
  let res := RotationSpace.addRigidTransform rs model axis_angle translation in
  let rs' := res.1.2 in
  let leaf := RotationSpace.leaf_of rs axis_angle in
  let old := default Entry.new (RotationSpace.entry_at rs leaf model) in
  (RotationSpace.outside rs axis_angle = false /\
   res.1.1 = true /\ res.2 = [] /\
   RotationSpace.entry_at rs' leaf model
   = Some (Entry.mk
             (V3 (e0 (Entry.axis_angle_ old) + e0 axis_angle)
                 (e1 (Entry.axis_angle_ old) + e1 axis_angle)
                 (e2 (Entry.axis_angle_ old) + e2 axis_angle))
             (V3 (e0 (Entry.translation_ old) + e0 translation)
                 (e1 (Entry.translation_ old) + e1 translation)
                 (e2 (Entry.translation_ old) + e2 translation))
             (int_incr (Entry.num_transforms_ old))) /\
   (RotationSpace.entry_at rs leaf model = None ->
    RotationSpace.entry_at rs' leaf model = Some (Entry.mk axis_angle translation 1)) /\
   ((INT_MIN <= Entry.num_transforms_ old < INT_MAX)%Z ->
    int_incr (Entry.num_transforms_ old) = (Entry.num_transforms_ old + 1)%Z) /\
   (forall (leaf' : int3) (model' : N), (leaf', model') <> (leaf, model) ->
      RotationSpace.entry_at rs' leaf' model' = RotationSpace.entry_at rs leaf' model') /\
   (forall leaf' : int3, leaf' <> leaf ->
      RotationSpace.cell_at rs' leaf' = RotationSpace.cell_at rs leaf') /\
   RotationSpace.full_cells_ rs'
   = RotationSpace.full_cells_ rs
     ++ (if RotationSpace.cell_at rs leaf is Some _ then [] else [leaf]))
  \/
  (RotationSpace.outside rs axis_angle = true /\
   res.1.1 = false /\ rs' = rs /\
   res.2 = [WARNING_out_of_bounds "addRigidTransform" axis_angle
              (ORROctree.bounds_ (RotationSpace.rot_octree_ rs))]).
Proof.
  intros res rs' leaf old. subst res rs'.
  destruct (RotationSpace.outside rs axis_angle) eqn:Hout.
  - right. rewrite addRigidTransform_outside by assumption. simpl. tauto.
  - left.
    pose proof (addRigidTransform_full_cells rs model axis_angle translation Hout) as Hfull.
    destruct (addRigidTransform_inside rs model axis_angle translation Hout)
      as (cell & rs' & Hadd & Hcell & Hat & Hother).
    rewrite Hadd in Hfull |- *.
    fold leaf in Hcell, Hat, Hother, Hfull. simpl in Hfull |- *.
    assert (Hold : Cell.entry_of cell model = old).
    { subst old. unfold Cell.entry_of, RotationSpace.entry_at. rewrite Hcell.
      destruct (RotationSpace.cell_at rs leaf); simpl; [reflexivity|].
      now rewrite lookup_empty. }
    assert (Hnew : RotationSpace.entry_at rs' leaf model
                   = Some (Entry.addRigidTransform old axis_angle translation)).
    { unfold RotationSpace.entry_at. rewrite Hat. simpl.
      now rewrite lookup_insert_eq, Hold. }
    split; [reflexivity|]. split; [reflexivity|]. split; [reflexivity|].
    split; [exact Hnew|]. split; [|split; [|split; [|split]]]; [| | | |exact Hfull].
    + intros Hnone. rewrite Hnew. subst old. rewrite Hnone. simpl.
      unfold Entry.addRigidTransform, Entry.new, aux.add3, aux.set3. simpl.
      f_equal. destruct axis_angle, translation. simpl. f_equal; f_equal; lra.
    + intros Hrange. unfold int_incr.
      apply int_wrap_small. unfold INT_MIN, INT_MAX in *. lia.
    + intros leaf' model' Hne. unfold RotationSpace.entry_at.
      destruct (decide (leaf' = leaf)) as [->|Hl].
      * assert (Hm : model <> model') by congruence.
        rewrite Hat. simpl. rewrite lookup_insert_ne by assumption. rewrite Hcell.
        destruct (RotationSpace.cell_at rs leaf); simpl; [reflexivity|].
        now rewrite lookup_empty.
      * now rewrite Hother.
    + exact Hother.
Qed.

Lemma new_outside_5 : RotationSpace.outside RotationSpace.new (V3 5 0 0) = true.
Proof.
  unfold RotationSpace.outside, ORROctree.out_of_bounds, Rltb; simpl.
  unfold aux.AUX_PI_FLOAT. pose proof PI_4.
  destruct (Rlt_dec 5 (- (PI + 0.000000001))); [lra|].
  destruct (Rlt_dec (PI + 0.000000001) 5); [reflexivity | lra].
Qed.

Lemma new_inside_0 : RotationSpace.outside RotationSpace.new (V3 0 0 0) = false.
Proof.
  unfold RotationSpace.outside, ORROctree.out_of_bounds, Rltb; simpl.
  unfold aux.AUX_PI_FLOAT. pose proof PI_RGT_0.
  destruct (Rlt_dec 0 (- (PI + 0.000000001))); [lra|].
  destruct (Rlt_dec (PI + 0.000000001) 0); [lra | reflexivity].
Qed.

(** In a new rotation space, the rotation (5,0,0) is refused and the null
    rotation is added to a new entry, which then counts one transform. *)
Lemma addRigidTransform_atomic_witness :
  (RotationSpace.addRigidTransform RotationSpace.new 1%N (V3 5 0 0) (V3 0 0 0)).1
  = (false, RotationSpace.new) /\
  (RotationSpace.addRigidTransform RotationSpace.new 1%N (V3 0 0 0) (V3 1 2 3)).1.1 = true /\
  RotationSpace.entry_at
    (RotationSpace.addRigidTransform RotationSpace.new 1%N (V3 0 0 0) (V3 1 2 3)).1.2
    (RotationSpace.leaf_of RotationSpace.new (V3 0 0 0)) 1%N
  = Some (Entry.mk (V3 0 0 0) (V3 1 2 3) 1).
Proof.
  split.
  - pose proof (addRigidTransform_atomic RotationSpace.new 1%N (V3 5 0 0) (V3 0 0 0)) as H.
    cbv zeta in H. destruct H as [(Hout & _) | (_ & Hret & Hrs & _)].
    + rewrite new_outside_5 in Hout. discriminate.
    + destruct (RotationSpace.addRigidTransform _ _ _ _) as [[b rs] pr]. simpl in *.
      now subst.
  - pose proof (addRigidTransform_atomic RotationSpace.new 1%N (V3 0 0 0) (V3 1 2 3)) as H.
    cbv zeta in H. destruct H as [(_ & Hret & _ & _ & Hentry & _) | (Hout & _)].
    + split; [exact Hret|]. apply Hentry.
      unfold RotationSpace.entry_at, RotationSpace.cell_at, ORROctree.getUserData. simpl.
      now rewrite lookup_empty.
    + rewrite new_inside_0 in Hout. discriminate.
Defined.

End RotationSpace_claims.

(* ===================================================================== *)
(** * [clear] and the accepted hypotheses *)
(* ===================================================================== *)

Section Clear_claims.

(** The free store after the [delete] of every pointer of a list. *)
Lemma delete_all_lookup (l : list N) (h : gmap N Hypothesis_t) (p : N) :
  foldl (fun h it => delete it h) h l !! p
  = if decide (p ∈ l) then None else h !! p.
Proof.
  revert h. induction l as [|q l IH]; intros h; simpl.
  - destruct (decide (p ∈ [])) as [H|_]; [inversion H | reflexivity].
  - rewrite IH. destruct (decide (p ∈ l)) as [Hin|Hnin].
    + rewrite decide_True by (now right). reflexivity.
    + destruct (decide (p = q)) as [->|Hne].
      * rewrite decide_True by (now left). apply lookup_delete_eq.
      * rewrite decide_False by (intros [?|?]%elem_of_cons; contradiction).
        now apply lookup_delete_ne.
Qed.

(** The calls that leave [accepted_hypotheses_] and the free store as they
    are: all but [clearTestData] and the destructor, which calls it. *)
Lemma run_keeps_accepted (c : ObjRecRANSAC.call) (h : gmap N Hypothesis_t)
    (r : ObjRecRANSAC.t) :
  c <> ObjRecRANSAC.call_clearTestData -> c <> ObjRecRANSAC.call_destructor ->
  (ObjRecRANSAC.run c (h, r)).1 = h /\
  ObjRecRANSAC.getAcceptedHypotheses (ObjRecRANSAC.run c (h, r)).2
  = ObjRecRANSAC.getAcceptedHypotheses r.
Proof.
  intros H1 H2. destruct c; try contradiction; simpl; try (split; reflexivity).
  unfold ObjRecRANSAC.addModel.
  destruct (ModelLibrary.addModel _ _ _ _ _). split; reflexivity.
Qed.

(** C10.  [clear ()] empties the model library, the scene octree, the
    transform octree, the scene projection and the sampled pairs, and leaves
    [accepted_hypotheses_] and the hypotheses it points to as they are:
    [getAcceptedHypotheses ()] returns the same pointers to the same
    objects.  [clearTestData ()] deletes every accepted hypothesis and
    empties the vector; the destructor calls [clear ()], then
    [clearTestData ()].  No other function of the header changes the vector
    or deletes a hypothesis. *)
Theorem clear_keeps_accepted_hypotheses (h : gmap N Hypothesis_t) (r : ObjRecRANSAC.t) :
  (ObjRecRANSAC.getAcceptedHypotheses (ObjRecRANSAC.clear r)
   = ObjRecRANSAC.getAcceptedHypotheses r /\
   ObjRecRANSAC.run ObjRecRANSAC.call_clear (h, r) = (h, ObjRecRANSAC.clear r) /\
   ObjRecRANSAC.accepted (ObjRecRANSAC.run ObjRecRANSAC.call_clear (h, r))
   = ObjRecRANSAC.accepted (h, r)) /\
  (ModelLibrary.models_ (ObjRecRANSAC.model_library_ (ObjRecRANSAC.clear r)) = ∅ /\
   ORROctree.full_leaves_ (ObjRecRANSAC.scene_octree_ (ObjRecRANSAC.clear r)) = ∅ /\
   ORROctree.full_leaves_ (ObjRecRANSAC.transform_octree_ (ObjRecRANSAC.clear r)) = ∅ /\
   ORROctreeZProjection.full_pixels_ (ObjRecRANSAC.scene_octree_proj_ (ObjRecRANSAC.clear r)) = [] /\
   ObjRecRANSAC.sampled_oriented_point_pairs_ (ObjRecRANSAC.clear r) = []) /\
  (ObjRecRANSAC.getAcceptedHypotheses (ObjRecRANSAC.clearTestData h r).2 = [] /\
   (forall p : N, p ∈ ObjRecRANSAC.accepted_hypotheses_ r ->
      (ObjRecRANSAC.clearTestData h r).1 !! p = None) /\
   (forall p : N, p ∉ ObjRecRANSAC.accepted_hypotheses_ r ->
      (ObjRecRANSAC.clearTestData h r).1 !! p = h !! p)) /\
  (ObjRecRANSAC.destructor h r = ObjRecRANSAC.clearTestData h (ObjRecRANSAC.clear r) /\
   ObjRecRANSAC.getAcceptedHypotheses (ObjRecRANSAC.destructor h r).2 = [] /\
   (forall p : N, p ∈ ObjRecRANSAC.accepted_hypotheses_ r ->
      (ObjRecRANSAC.destructor h r).1 !! p = None)) /\
  (forall c : ObjRecRANSAC.call,
     c <> ObjRecRANSAC.call_clearTestData -> c <> ObjRecRANSAC.call_destructor ->
     (ObjRecRANSAC.run c (h, r)).1 = h /\
     ObjRecRANSAC.getAcceptedHypotheses (ObjRecRANSAC.run c (h, r)).2
     = ObjRecRANSAC.getAcceptedHypotheses r).
Proof.
  split; [|split; [|split; [|split]]].
  - repeat split.
  - repeat split.
  - split; [reflexivity|]. split; intros p Hp; simpl; rewrite delete_all_lookup.
    + now rewrite decide_True.
    + now rewrite decide_False.
  - split; [reflexivity|]. split; [reflexivity|].
    intros p Hp. unfold ObjRecRANSAC.destructor. simpl. rewrite delete_all_lookup.
    now rewrite decide_True.
  - intros c. apply run_keeps_accepted.
Qed.

End Clear_claims.

(* ===================================================================== *)
(** * Orthonormal frames and rotations *)
(* ===================================================================== *)

Section Rotation_facts.
Local Open Scope R_scope.

Lemma mat3_eq (A B : mat3) :
  m00 A = m00 B -> m01 A = m01 B -> m02 A = m02 B ->
  m10 A = m10 B -> m11 A = m11 B -> m12 A = m12 B ->
  m20 A = m20 B -> m21 A = m21 B -> m22 A = m22 B -> A = B.
Proof. destruct A, B; simpl; intros; subst; reflexivity. Qed.

(** A right-handed orthonormal frame resolves the identity:
    [x x^T + y y^T + z z^T = I] for [z = x × y]. *)
Lemma frame_complete (x y v : vec3) :
  aux.dot3 x x = 1 -> aux.dot3 y y = 1 -> aux.dot3 x y = 0 ->
  V3 (e0 x * aux.dot3 x v + e0 y * aux.dot3 y v
      + e0 (aux.cross3 x y) * aux.dot3 (aux.cross3 x y) v)
     (e1 x * aux.dot3 x v + e1 y * aux.dot3 y v
      + e1 (aux.cross3 x y) * aux.dot3 (aux.cross3 x y) v)
     (e2 x * aux.dot3 x v + e2 y * aux.dot3 y v
      + e2 (aux.cross3 x y) * aux.dot3 (aux.cross3 x y) v) = v.
Proof.
  destruct x as [a b c], y as [d e f], v as [p q r].
  unfold aux.dot3, aux.cross3; simpl. intros H1 H2 H3.
  f_equal; nsatz.
Qed.

(** The image of a vector under the rotation that [computeRigidTransform]
    solves for, in a frame [f] whose first frame is right-handed and
    orthonormal, has in the second frame the coordinates that the vector has
    in the first. *)
Lemma solve_rotation_coordinates (f : frames) (v : vec3) :
  orthonormal (x2 f) (y2 f) (z2 f) ->
  aux.dot3 (x2 f) (aux.mult3x3 (rot9 (computeRigidTransform_solve f)) v) = aux.dot3 (x1 f) v /\
  aux.dot3 (y2 f) (aux.mult3x3 (rot9 (computeRigidTransform_solve f)) v) = aux.dot3 (y1 f) v /\
  aux.dot3 (z2 f) (aux.mult3x3 (rot9 (computeRigidTransform_solve f)) v) = aux.dot3 (z1 f) v.
Proof.
  intros (Hxx & Hyy & Hzz & Hxy & Hxz & Hyz). rewrite solve_rotation_apply.
  set (p := aux.dot3 (x1 f) v). set (q := aux.dot3 (y1 f) v). set (r := aux.dot3 (z1 f) v).
  unfold aux.dot3 in *. simpl.
  repeat split; nsatz.
Qed.

(** An orthogonal matrix keeps the dot product. *)
Lemma orthogonal_dot3 (M : mat3) (v w : vec3) :
  orthogonal_matrix M ->
  aux.dot3 (aux.mult3x3 M v) (aux.mult3x3 M w) = aux.dot3 v w.
Proof.
  intros (H00 & H11 & H22 & H01 & H02 & H12).
  destruct M, v as [v0 v1 v2], w as [w0 w1 w2].
  unfold aux.dot3, aux.mult3x3, col0, col1, col2 in *; simpl in *.
  nsatz.
Qed.

(** A rotation commutes with the cross product. *)
Lemma rotation_cross3 (M : mat3) (v w : vec3) :
  rotation_matrix M ->
  aux.cross3 (aux.mult3x3 M v) (aux.mult3x3 M w) = aux.mult3x3 M (aux.cross3 v w).
Proof.
  intros [(H00 & H11 & _ & H01 & _) H2].
  destruct M, v as [v0 v1 v2], w as [w0 w1 w2].
  unfold aux.dot3, aux.cross3, aux.mult3x3, col0, col1, col2 in *; simpl in *.
  injection H2 as -> -> ->.
  f_equal; nsatz.
Qed.

Lemma mult3x3_sum3 (M : mat3) (a b : vec3) :
  aux.mult3x3 M (aux.sum3 a b) = aux.sum3 (aux.mult3x3 M a) (aux.mult3x3 M b).
Proof. apply vec3_eq; simpl; ring. Qed.

Lemma mult3x3_mult3 (M : mat3) (a : vec3) (k : R) :
  aux.mult3x3 M (aux.mult3 a k) = aux.mult3 (aux.mult3x3 M a) k.
Proof. apply vec3_eq; simpl; ring. Qed.

Lemma diff3_move (M : mat3) (t p q : vec3) :
  aux.diff3 (move M t p) (move M t q) = aux.mult3x3 M (aux.diff3 p q).
Proof. apply vec3_eq; simpl; ring. Qed.

(** An orthogonal matrix commutes with the normalisation. *)
Lemma orthogonal_normalize3 (M : mat3) (v u : vec3) :
  orthogonal_matrix M ->
  aux.normalize3 v = Some u ->
  aux.normalize3 (aux.mult3x3 M v) = Some (aux.mult3x3 M u).
Proof.
  intros HM Hv. apply normalize3_Some_inv in Hv as [Hnz ->].
  assert (Hd : aux.dot3 (aux.mult3x3 M v) (aux.mult3x3 M v) = aux.dot3 v v)
    by now apply orthogonal_dot3.
  rewrite normalize3_defined by now rewrite Hd.
  unfold aux.length3. rewrite Hd. f_equal. apply vec3_eq; simpl; ring.
Qed.

(** An orthogonal matrix commutes with the projection on a plane. *)
Lemma orthogonal_projectOnPlane3 (M : mat3) (n x : vec3) :
  orthogonal_matrix M ->
  aux.projectOnPlane3 (aux.mult3x3 M n) (aux.mult3x3 M x)
  = aux.mult3x3 M (aux.projectOnPlane3 n x).
Proof.
  intros HM. unfold aux.projectOnPlane3. rewrite orthogonal_dot3 by assumption.
  apply vec3_eq; simpl; ring.
Qed.

End Rotation_facts.

(* ===================================================================== *)
(** * Further properties of the rigid transform of two pairs *)
(* ===================================================================== *)

Section Transform_extra.
Local Open Scope R_scope.

(** [computeRigidTransform] returns the transform solved for the frames. *)
Lemma computeRigidTransform_Some_inv (a1 a1_n b1 b1_n a2 a2_n b2 b2_n : vec3) (T : rigid12) :
  computeRigidTransform a1 a1_n b1 b1_n a2 a2_n b2 b2_n = Some T ->
  exists f : frames,
    computeRigidTransform_frames a1 a1_n b1 b1_n a2 a2_n b2 b2_n = Some f /\
    T = computeRigidTransform_solve f.
Proof.
  unfold computeRigidTransform. intros H.
  destruct (computeRigidTransform_frames a1 a1_n b1 b1_n a2 a2_n b2 b2_n) as [f|];
    [|discriminate].
  exists f. split; [reflexivity|]. simpl in H. congruence.
Qed.

(** The frames are determined by their unit vectors. *)
Lemma frames_explicit (a1 a1_n b1 b1_n a2 a2_n b2 b2_n : vec3) (f : frames) :
  computeRigidTransform_frames a1 a1_n b1 b1_n a2 a2_n b2 b2_n = Some f ->
  f = Frames (V3 (0.5 * (e0 a1 + e0 b1)) (0.5 * (e1 a1 + e1 b1)) (0.5 * (e2 a1 + e2 b1)))
             (V3 (0.5 * (e0 a2 + e0 b2)) (0.5 * (e1 a2 + e1 b2)) (0.5 * (e2 a2 + e2 b2)))
             (x1 f) (x2 f) (y1 f) (y2 f)
             (aux.cross3 (x1 f) (y1 f)) (aux.cross3 (x2 f) (y2 f)).
Proof.
  intros Hf.
  destruct (frames_inv _ _ _ _ _ _ _ _ _ Hf)
    as (ta1 & tb1 & ta2 & tb2 & _ & _ & Hx1 & Hx2 & Ha1 & Hb1 & Hy1 & Ha2 & Hb2 & Hy2 & _).
  pose proof (frames_intro _ _ _ _ _ _ _ _ _ _ _ _ _ _ _ _ Hx1 Hx2 Ha1 Hb1 Hy1 Ha2 Hb2 Hy2) as Hf'.
  congruence.
Qed.

Lemma apply_rigid_point_on_line (T : rigid12) (o x : vec3) (s : R) :
  apply_rigid T (point_on_line o x s)
  = point_on_line (apply_rigid T o) (aux.mult3x3 (rot9 T) x) s.
Proof. apply vec3_eq; simpl; ring. Qed.

(** The x-axis of the first frame is rotated to the x-axis of the second. *)
Lemma solve_rotation_x (f : frames) :
  orthonormal (x1 f) (y1 f) (z1 f) ->
  aux.mult3x3 (rot9 (computeRigidTransform_solve f)) (x1 f) = x2 f.
Proof.
  intros (Hxx & _ & _ & Hxy & Hxz & _). rewrite solve_rotation_apply.
  rewrite (dot3_comm (y1 f)), (dot3_comm (z1 f)), Hxx, Hxy, Hxz.
  apply vec3_eq; simpl; ring.
Qed.

(** An end of a segment, from the midpoint and the unit chord. *)
Lemma end_on_line (a b u : vec3) :
  aux.normalize3 (aux.diff3 b a) = Some u ->
  a = point_on_line (midpoint a b) u (- (aux.length3 (aux.diff3 b a) / 2)) /\
  b = point_on_line (midpoint a b) u (aux.length3 (aux.diff3 b a) / 2).
Proof.
  intros Hu. apply normalize3_Some_inv in Hu as [Hnz ->].
  apply length3_pos in Hnz.
  split; apply vec3_eq; simpl; field; lra.
Qed.

(** X1.  The transform maps the line through the first pair to the line
    through the second: the point at the signed distance [s] from the
    midpoint of the first pair goes to the point at the distance [s] from the
    midpoint of the second.  When the two pairs have the same length it maps
    [a1] to [a2] and [b1] to [b2]. *)
Theorem computeRigidTransform_maps_line
    (a1 a1_n b1 b1_n a2 a2_n b2 b2_n : vec3) (T : rigid12) :
  computeRigidTransform a1 a1_n b1 b1_n a2 a2_n b2 b2_n = Some T ->
  exists u1 u2 : vec3,
    aux.normalize3 (aux.diff3 b1 a1) = Some u1 /\
    aux.normalize3 (aux.diff3 b2 a2) = Some u2 /\
    (forall s : R,
       apply_rigid T (point_on_line (midpoint a1 b1) u1 s)
       = point_on_line (midpoint a2 b2) u2 s) /\
    (aux.length3 (aux.diff3 b1 a1) = aux.length3 (aux.diff3 b2 a2) ->
     apply_rigid T a1 = a2 /\ apply_rigid T b1 = b2).
Proof.
  intros HT. apply computeRigidTransform_Some_inv in HT as (f & Hf & ->).
  destruct (frames_orthonormal _ _ _ _ _ _ _ _ _ Hf) as [H1 _].
  destruct (frames_inv _ _ _ _ _ _ _ _ _ Hf)
    as (_ & _ & _ & _ & Ho1 & Ho2 & Hx1 & Hx2 & _).
  exists (x1 f), (x2 f). split; [exact Hx1|]. split; [exact Hx2|].
  assert (Hline : forall s,
             apply_rigid (computeRigidTransform_solve f) (point_on_line (midpoint a1 b1) (x1 f) s)
             = point_on_line (midpoint a2 b2) (x2 f) s).
  { intros s. rewrite apply_rigid_point_on_line, solve_rotation_x by assumption.
    now rewrite <- Ho1, solve_translation, Ho2. }
  split; [exact Hline|].
  intros HL.
  destruct (end_on_line _ _ _ Hx1) as [Ea1 Eb1].
  destruct (end_on_line _ _ _ Hx2) as [Ea2 Eb2].
  split.
  - rewrite Ea1 at 1. rewrite Hline, HL. now rewrite <- Ea2.
  - rewrite Eb1 at 1. rewrite Hline, HL. now rewrite <- Eb2.
Qed.

(** X2.  The rotation block that [computeRigidTransform] writes is a
    rotation matrix (orthonormal columns, determinant 1), and the transform
    keeps the distances. *)
Theorem computeRigidTransform_is_rigid
    (a1 a1_n b1 b1_n a2 a2_n b2 b2_n : vec3) (T : rigid12) :
  computeRigidTransform a1 a1_n b1 b1_n a2 a2_n b2 b2_n = Some T ->
  rotation_matrix (rot9 T) /\
  (forall v w : vec3,
     aux.dot3 (aux.mult3x3 (rot9 T) v) (aux.mult3x3 (rot9 T) w) = aux.dot3 v w) /\
  (forall p q : vec3, sqr_dist (apply_rigid T p) (apply_rigid T q) = sqr_dist p q).
Proof.
  intros HT. apply computeRigidTransform_Some_inv in HT as (f & Hf & ->).
  destruct (frames_orthonormal _ _ _ _ _ _ _ _ _ Hf) as [H1 H2].
  destruct (frames_inv _ _ _ _ _ _ _ _ _ Hf)
    as (_ & _ & _ & _ & _ & _ & _ & _ & _ & _ & _ & _ & _ & _ & Hz1 & Hz2).
  assert (HR : rotation_matrix (rot9 (computeRigidTransform_solve f))).
  { clear Hf. destruct f as [p1 p2 [a b c] [a' b' c'] [d e g] [d' e' g'] w1 w2].
    simpl in *. subst w1 w2.
    destruct H1 as (H1 & H2' & _ & H3 & _). destruct H2 as (H4 & H5 & _ & H6 & _).
    unfold rotation_matrix, orthogonal_matrix, orthonormal, col0, col1, col2,
      computeRigidTransform_solve, aux.mult3x3_cols, aux.dot3, aux.cross3 in *; simpl in *.
    split; [repeat split; nsatz | f_equal; nsatz]. }
  split; [exact HR|]. split.
  - intros v w. apply orthogonal_dot3, HR.
  - intros p q. unfold sqr_dist.
    replace (aux.diff3 (apply_rigid (computeRigidTransform_solve f) p)
                       (apply_rigid (computeRigidTransform_solve f) q))
      with (aux.mult3x3 (rot9 (computeRigidTransform_solve f)) (aux.diff3 p q))
      by (apply vec3_eq; simpl; ring).
    apply orthogonal_dot3, HR.
Qed.

End Transform_extra.

Section Transform_extra2.
Local Open Scope R_scope.

Lemma orthogonal_sum3 (M : mat3) (a b : vec3) :
  aux.sum3 (aux.mult3x3 M a) (aux.mult3x3 M b) = aux.mult3x3 M (aux.sum3 a b).
Proof. symmetry. apply mult3x3_sum3. Qed.

(** The matrix that takes a right-handed orthonormal frame to its image
    under [M] is [M]. *)
Lemma solve_rotation_of_moved_frame (M : mat3) (x y : vec3) (p q : vec3) :
  rotation_matrix M ->
  aux.dot3 x x = 1 -> aux.dot3 y y = 1 -> aux.dot3 x y = 0 ->
  rot9 (computeRigidTransform_solve
          (Frames p q x (aux.mult3x3 M x) y (aux.mult3x3 M y)
                  (aux.cross3 x y) (aux.cross3 (aux.mult3x3 M x) (aux.mult3x3 M y)))) = M.
Proof.
  intros HM Hx Hy Hxy. rewrite (rotation_cross3 M x y HM).
  destruct M, x as [a b c], y as [d e g].
  unfold computeRigidTransform_solve, aux.mult3x3_cols, aux.mult3x3, aux.cross3, aux.dot3 in *;
    simpl in *.
  apply mat3_eq; simpl; nsatz.
Qed.

(** X3.  A pair that [computeRigidTransform] can align with itself is
    aligned with its image under a rotation [M] and a translation [t] by
    the transform [(M, t)] itself, and with itself by the identity. *)
Theorem computeRigidTransform_recovers_motion
    (a a_n b b_n : vec3) (M : mat3) (t : vec3) (T0 : rigid12) :
  rotation_matrix M ->
  computeRigidTransform a a_n b b_n a a_n b b_n = Some T0 ->
  computeRigidTransform a a_n b b_n
    (move M t a) (aux.mult3x3 M a_n) (move M t b) (aux.mult3x3 M b_n)
  = Some (Rigid12 M t) /\
  T0 = Rigid12 (M3 1 0 0 0 1 0 0 0 1) (V3 0 0 0).
Proof.
  intros HM H0. apply computeRigidTransform_Some_inv in H0 as (f & Hf & ->).
  destruct (frames_orthonormal _ _ _ _ _ _ _ _ _ Hf) as [(Hxx & Hyy & _ & Hxy & _) _].
  destruct (frames_inv _ _ _ _ _ _ _ _ _ Hf)
    as (ta & tb & ta' & tb' & Ho1 & Ho2 & Hx1 & Hx2 & Ha1 & Hb1 & Hy1 & Ha2 & Hb2 & Hy2 & Hz1 & Hz2).
  assert (HO : orthogonal_matrix M) by apply HM.
  assert (Ex : x2 f = x1 f) by congruence. rewrite Ex in *.
  assert (Eta : ta' = ta) by congruence. assert (Etb : tb' = tb) by congruence. subst ta' tb'.
  assert (Ey : y2 f = y1 f) by congruence. rewrite Ey in *.
  split.
  - unfold computeRigidTransform.
    rewrite (frames_intro a a_n b b_n (move M t a) (aux.mult3x3 M a_n) (move M t b)
               (aux.mult3x3 M b_n) (x1 f) (aux.mult3x3 M (x1 f)) ta tb (y1 f)
               (aux.mult3x3 M ta) (aux.mult3x3 M tb) (aux.mult3x3 M (y1 f))); try assumption.
    + cbn [mbind option_bind]. f_equal.
      set (F := Frames _ _ _ _ _ _ _ _).
      assert (HR : rot9 (computeRigidTransform_solve F) = M)
        by (apply solve_rotation_of_moved_frame; assumption).
      assert (Ht : trans3 (computeRigidTransform_solve F)
                   = V3 (e0 (o2 F) - e0 (aux.mult3x3 (rot9 (computeRigidTransform_solve F)) (o1 F)))
                        (e1 (o2 F) - e1 (aux.mult3x3 (rot9 (computeRigidTransform_solve F)) (o1 F)))
                        (e2 (o2 F) - e2 (aux.mult3x3 (rot9 (computeRigidTransform_solve F)) (o1 F))))
        by reflexivity.
      rewrite HR in Ht.
      destruct (computeRigidTransform_solve F) as [R tr]. simpl in HR, Ht. subst R tr.
      f_equal. subst F. apply vec3_eq; simpl; lra.
    + rewrite diff3_move. now apply orthogonal_normalize3.
    + rewrite orthogonal_projectOnPlane3 by assumption. now apply orthogonal_normalize3.
    + rewrite orthogonal_projectOnPlane3 by assumption. now apply orthogonal_normalize3.
    + rewrite orthogonal_sum3. now apply orthogonal_normalize3.
  - rewrite (frames_explicit _ _ _ _ _ _ _ _ _ Hf). rewrite Ex, Ey.
    destruct (x1 f) as [p q r], (y1 f) as [u v w].
    unfold computeRigidTransform_solve, aux.mult3x3_cols, aux.mult3x3, aux.cross3, aux.dot3 in *;
      simpl in *.
    f_equal; [apply mat3_eq | apply vec3_eq]; simpl; nsatz.
Qed.

End Transform_extra2.

Section Transform_extra3.
Local Open Scope R_scope.

(** The transform solved for the frames, around the two origins. *)
Lemma apply_solve (f : frames) (p : vec3) :
  apply_rigid (computeRigidTransform_solve f) p
  = aux.sum3 (aux.mult3x3 (rot9 (computeRigidTransform_solve f)) (aux.diff3 p (o1 f))) (o2 f).
Proof. apply vec3_eq; simpl; ring. Qed.

Lemma frames_swapped (a1 a1_n b1 b1_n a2 a2_n b2 b2_n : vec3) (f : frames) :
  computeRigidTransform_frames a1 a1_n b1 b1_n a2 a2_n b2 b2_n = Some f ->
  computeRigidTransform_frames a2 a2_n b2 b2_n a1 a1_n b1 b1_n = Some (frames_swapped_of f).
Proof.
  intros Hf. rewrite (frames_explicit _ _ _ _ _ _ _ _ _ Hf) at 1.
  destruct (frames_inv _ _ _ _ _ _ _ _ _ Hf)
    as (ta1 & tb1 & ta2 & tb2 & _ & _ & Hx1 & Hx2 & Ha1 & Hb1 & Hy1 & Ha2 & Hb2 & Hy2 & _).
  apply (frames_intro _ _ _ _ _ _ _ _ _ _ ta2 tb2 _ ta1 tb1); assumption.
Qed.

(** The rotation solved for the exchanged frames undoes the rotation. *)
Lemma solve_rotation_swapped (f : frames) (v : vec3) :
  orthonormal (x1 f) (y1 f) (z1 f) -> z1 f = aux.cross3 (x1 f) (y1 f) ->
  orthonormal (x2 f) (y2 f) (z2 f) ->
  aux.mult3x3 (rot9 (computeRigidTransform_solve (frames_swapped_of f)))
    (aux.mult3x3 (rot9 (computeRigidTransform_solve f)) v) = v.
Proof.
  intros H1 Hz1 H2.
  rewrite (solve_rotation_apply (frames_swapped_of f)).
  unfold frames_swapped_of; cbn [x1 x2 y1 y2 z1 z2].
  destruct (solve_rotation_coordinates f v H2) as (-> & -> & ->).
  rewrite Hz1. destruct H1 as (Hxx & Hyy & _ & Hxy & _).
  now apply frame_complete.
Qed.

(** X4.  Exchanging the two pairs gives the inverse transform. *)
Theorem computeRigidTransform_swap_inverse
    (a1 a1_n b1 b1_n a2 a2_n b2 b2_n : vec3) (T : rigid12) :
  computeRigidTransform a1 a1_n b1 b1_n a2 a2_n b2 b2_n = Some T ->
  exists T' : rigid12,
    computeRigidTransform a2 a2_n b2 b2_n a1 a1_n b1 b1_n = Some T' /\
    (forall p : vec3, apply_rigid T' (apply_rigid T p) = p) /\
    (forall p : vec3, apply_rigid T (apply_rigid T' p) = p).
Proof.
  intros HT. apply computeRigidTransform_Some_inv in HT as (f & Hf & ->).
  pose proof (frames_swapped _ _ _ _ _ _ _ _ _ Hf) as Hf'.
  destruct (frames_orthonormal _ _ _ _ _ _ _ _ _ Hf) as [H1 H2].
  destruct (frames_inv _ _ _ _ _ _ _ _ _ Hf)
    as (_ & _ & _ & _ & _ & _ & _ & _ & _ & _ & _ & _ & _ & _ & Hz1 & Hz2).
  exists (computeRigidTransform_solve (frames_swapped_of f)).
  split; [unfold computeRigidTransform; now rewrite Hf'|].
  assert (Hback : forall (g : frames) (p : vec3),
            orthonormal (x1 g) (y1 g) (z1 g) -> z1 g = aux.cross3 (x1 g) (y1 g) ->
            orthonormal (x2 g) (y2 g) (z2 g) ->
            apply_rigid (computeRigidTransform_solve (frames_swapped_of g))
              (apply_rigid (computeRigidTransform_solve g) p) = p).
  { intros g p G1 Gz G2.
    rewrite (apply_solve (frames_swapped_of g)), (apply_solve g).
    change (o1 (frames_swapped_of g)) with (o2 g).
    change (o2 (frames_swapped_of g)) with (o1 g).
    replace (aux.diff3
               (aux.sum3 (aux.mult3x3 (rot9 (computeRigidTransform_solve g)) (aux.diff3 p (o1 g)))
                         (o2 g)) (o2 g))
      with (aux.mult3x3 (rot9 (computeRigidTransform_solve g)) (aux.diff3 p (o1 g)))
      by (apply vec3_eq; simpl; ring).
    rewrite solve_rotation_swapped by assumption.
    apply vec3_eq; simpl; ring. }
  split.
  - intros p. now apply Hback.
  - intros p.
    change (computeRigidTransform_solve f)
      with (computeRigidTransform_solve (frames_swapped_of (frames_swapped_of f))) at 1.
    apply Hback; simpl; assumption.
Qed.



End Transform_extra3.

(* ===================================================================== *)
(** * Further properties of the signature *)
(* ===================================================================== *)

Section Signature_extra.
Local Open Scope R_scope.

Lemma vopp_vopp (v : vec3) : vopp (vopp v) = v.
Proof. apply vec3_eq; simpl; ring. Qed.

Lemma vec3_dec (p q : vec3) : p = q \/ p <> q.
Proof.
  destruct p as [a b c], q as [d e f].
  destruct (Req_dec_T a d) as [->|H]; [|right; congruence].
  destruct (Req_dec_T b e) as [->|H]; [|right; congruence].
  destruct (Req_dec_T c f) as [->|H]; [left; reflexivity | right; congruence].
Qed.

Lemma signature_coincident (p n1 n2 : vec3) :
  compute_oriented_point_pair_signature p n1 p n2 = None.
Proof.
  unfold compute_oriented_point_pair_signature.
  rewrite normalize3_null; [reflexivity|]. unfold aux.dot3; simpl. ring.
Qed.

Lemma signature_Some_distinct (p1 n1 p2 n2 s : vec3) :
  compute_oriented_point_pair_signature p1 n1 p2 n2 = Some s -> p1 <> p2.
Proof. intros H E. subst p2. rewrite signature_coincident in H. discriminate. Qed.

(** X6.  The signature is defined exactly for two distinct points: for
    coincident points the chord has no direction. *)
Theorem signature_defined_iff (p1 n1 p2 n2 : vec3) :
  compute_oriented_point_pair_signature p1 n1 p2 n2 = None <-> p1 = p2.
Proof.
  split.
  - intros H. destruct (vec3_dec p1 p2) as [E|Hne]; [exact E|].
    rewrite (signature_of_chord _ _ _ _ _ (normalize3_defined _ (diff3_distinct _ _ Hne))) in H.
    discriminate.
  - intros ->. apply signature_coincident.
Qed.

(** X7.  Exchanging the two oriented points exchanges the first two
    angles of the signature and keeps the third. *)
Theorem signature_swap (p1 n1 p2 n2 : vec3) (s : vec3) :
  compute_oriented_point_pair_signature p1 n1 p2 n2 = Some s ->
  compute_oriented_point_pair_signature p2 n2 p1 n1 = Some (swap_angles s).
Proof.
  intros Hs.
  pose proof (signature_Some_distinct _ _ _ _ _ Hs) as Hne.
  pose proof (normalize3_defined _ (diff3_distinct _ _ Hne)) as Hu.
  rewrite (signature_of_chord _ _ _ _ _ Hu) in Hs. injection Hs as <-.
  assert (Hu' := normalize3_vopp _ _ Hu). rewrite <- diff3_swap in Hu'.
  rewrite (signature_of_chord _ _ _ _ _ Hu'). rewrite vopp_vopp.
  unfold swap_angles; simpl. now rewrite (dot3_comm n2 n1).
Qed.

(** X8.  The signature does not change when the two oriented points are
    moved by the same rigid motion: the points by [p -> M*p + t], the
    normals by [n -> M*n], for an orthogonal matrix [M]. *)
Theorem signature_rigid_invariant (M : mat3) (t p1 n1 p2 n2 : vec3) :
  orthogonal_matrix M ->
  compute_oriented_point_pair_signature
    (move M t p1) (aux.mult3x3 M n1) (move M t p2) (aux.mult3x3 M n2)
  = compute_oriented_point_pair_signature p1 n1 p2 n2.
Proof.
  intros HM.
  destruct (vec3_dec p1 p2) as [->|Hne].
  - unfold move. now rewrite !signature_coincident.
  - pose proof (normalize3_defined _ (diff3_distinct _ _ Hne)) as Hu.
    pose proof (orthogonal_normalize3 M _ _ HM Hu) as Hu'.
    rewrite <- diff3_move with (t := t) in Hu'.
    rewrite (signature_of_chord _ _ _ _ _ Hu), (signature_of_chord _ _ _ _ _ Hu').
    replace (vopp (aux.mult3x3 M
               (V3 (e0 (aux.diff3 p2 p1) * (1 / aux.length3 (aux.diff3 p2 p1)))
                   (e1 (aux.diff3 p2 p1) * (1 / aux.length3 (aux.diff3 p2 p1)))
                   (e2 (aux.diff3 p2 p1) * (1 / aux.length3 (aux.diff3 p2 p1))))))
      with (aux.mult3x3 M (vopp
               (V3 (e0 (aux.diff3 p2 p1) * (1 / aux.length3 (aux.diff3 p2 p1)))
                   (e1 (aux.diff3 p2 p1) * (1 / aux.length3 (aux.diff3 p2 p1)))
                   (e2 (aux.diff3 p2 p1) * (1 / aux.length3 (aux.diff3 p2 p1))))))
      by (apply vec3_eq; simpl; ring).
    now rewrite !orthogonal_dot3.
Qed.

End Signature_extra.

(* ===================================================================== *)
(** * Further properties of the number of iterations *)
(* ===================================================================== *)

Section Iterations_extra.
Local Open Scope R_scope.

Lemma ln_le_compat (x y : R) : 0 < x -> x <= y -> ln x <= ln y.
Proof.
  intros Hx [Hlt | ->]; [left; now apply ln_increasing | lra].
Qed.

Lemma log_nonpos (d : R) : d <= 0 -> log d = None.
Proof. intros H. unfold log. destruct (Rlt_dec 0 d); [lra | reflexivity]. Qed.

(** X11.  The function has no result ([log] of a non-positive number, or
    a division by [log (1)]) when the success probability is 1 or more while
    [p < 1], and when the relative object size is 0. *)
Theorem computeNumberOfIterations_undefined (r P : R) :
  (0.25 * r < 1 -> 1 <= P -> computeNumberOfIterations r P = None) /\
  computeNumberOfIterations 0 P = None.
Proof.
  split.
  - intros Hp HP. unfold computeNumberOfIterations.
    destruct (Rle_dec (1.0 - 0.25 * r) 0.0) as [H|_]; [lra|].
    rewrite (log_nonpos (1.0 - P)) by lra. reflexivity.
  - unfold computeNumberOfIterations.
    destruct (Rle_dec (1.0 - 0.25 * 0) 0.0) as [H|_]; [lra|].
    destruct (Rlt_dec 0 (1.0 - P)) as [HP|HP].
    + rewrite !log_pos by lra. cbn [mbind option_bind].
      replace (1.0 - 0.25 * 0) with 1 by lra. rewrite ln_1, fdiv_None. reflexivity.
    + rewrite (log_nonpos (1.0 - P)) by lra. reflexivity.
Qed.

End Iterations_extra.

(* ===================================================================== *)
(** * The number of iterations in the arithmetic of [double] *)
(* ===================================================================== *)

Section Double_facts.
Local Open Scope R_scope.

(** Without rounding, [computeNumberOfIterations_double] is
    [computeNumberOfIterations]. *)
Lemma computeNumberOfIterations_double_exact (r P : R) :
  computeNumberOfIterations_double exact_arith r P = computeNumberOfIterations r P.
Proof. reflexivity. Qed.

(** The arithmetic that does not round has the laws. *)
Lemma exact_arith_laws : double_laws exact_arith.
Proof.
  split; simpl.
  - trivial.
  - intros x y H. lra.
  - lra.
  - lra.
  - intros x _ H. lra.
  - intros x _ H. rewrite log_pos by assumption. eauto.
  - intros x y a b Hxy Ha Hb. unfold log in *.
    destruct (Rlt_dec 0 x) as [Hx|]; [|discriminate].
    destruct (Rlt_dec 0 y) as [Hy|]; [|discriminate].
    injection Ha as <-. injection Hb as <-. now apply ln_le_compat.
  - rewrite log_pos by lra. now rewrite ln_1.
  - intros x l _ Hx Hl. unfold log in Hl.
    destruct (Rlt_dec 0 x) as [H0|]; [|discriminate].
    injection Hl as <-. now apply ln_below_1.
  - intros x. apply fdiv_None.
  - intros y Hy. rewrite fdiv_Some by assumption. f_equal. now field.
  - intros x Hx. rewrite fdiv_Some by assumption. f_equal. now field.
  - intros x1 x2 y1 y2 a b Hx Hx1 Hy Hy2 Ha Hb.
    rewrite fdiv_Some in Ha, Hb by lra. injection Ha as <-. injection Hb as <-.
    apply Rmult_le_reg_r with (r := (- y1) * (- y2)); [nra|].
    replace (x1 / y1 * (- y1 * - y2)) with (x1 * y2) by (field; lra).
    replace (x2 / y2 * (- y1 * - y2)) with (x2 * y1) by (field; lra).
    nra.
  - intros a b H. lra.
  - intros k _. lra.
Qed.

Lemma pow_2_60 : 2 ^ 60 = IZR (2 ^ 60).
Proof. change 2 with (IZR 2). now rewrite pow_IZR. Qed.

Lemma pow_2_60_pos : 0 < 2 ^ 60.
Proof. apply pow_lt. lra. Qed.

Lemma round_down_le (x : R) : round_down x <= x.
Proof.
  unfold round_down. pose proof pow_2_60_pos as H.
  pose proof (Zfloor_bound (x * 2 ^ 60)) as [Hl _].
  apply Rmult_le_reg_r with (r := 2 ^ 60); [exact H|].
  replace (IZR (Zfloor (x * 2 ^ 60)) / 2 ^ 60 * 2 ^ 60) with (IZR (Zfloor (x * 2 ^ 60)))
    by (field; lra).
  exact Hl.
Qed.

Lemma round_down_monotone (x y : R) : x <= y -> round_down x <= round_down y.
Proof.
  intros H. unfold round_down. pose proof pow_2_60_pos as Hp.
  apply Rmult_le_compat_r; [left; now apply Rinv_0_lt_compat|].
  apply IZR_le, Zfloor_le. nra.
Qed.

(** A multiple of 2^-60 is not rounded. *)
Lemma round_down_grid (k : Z) : round_down (IZR k / 2 ^ 60) = IZR k / 2 ^ 60.
Proof.
  unfold round_down. pose proof pow_2_60_pos as Hp.
  replace (IZR k / 2 ^ 60 * 2 ^ 60) with (IZR k) by (field; lra).
  now rewrite ZfloorZ.
Qed.

Lemma round_down_Z (k : Z) : round_down (IZR k) = IZR k.
Proof.
  replace (IZR k) with (IZR (k * 2 ^ 60) / 2 ^ 60) at 1 2.
  - apply round_down_grid.
  - rewrite mult_IZR, <- pow_2_60. field; pose proof pow_2_60_pos; lra.
Qed.

Lemma round_down_idempotent (x : R) : round_down (round_down x) = round_down x.
Proof. unfold round_down at 2 3. apply round_down_grid. Qed.

(** The difference [1 - x] of a multiple of 2^-60 is one. *)
Lemma round_down_1_minus (x : R) : round_down x = x -> round_down (1 - x) = 1 - x.
Proof.
  intros H. pose proof pow_2_60_pos as Hp.
  assert (E : 1 - x = IZR (2 ^ 60 - Zfloor (x * 2 ^ 60)) / 2 ^ 60).
  { rewrite <- H at 1. unfold round_down. rewrite minus_IZR, <- pow_2_60. field; lra. }
  rewrite E. apply round_down_grid.
Qed.

(** The arithmetic that rounds down to the multiples of 2^-60 has the laws. *)
Lemma grid_arith_laws : double_laws grid_arith.
Proof.
  split; cbn [is_double d_sub d_add d_div d_log grid_arith].
  - intros x _. apply round_down_idempotent.
  - intros x y H. apply round_down_monotone. lra.
  - replace (1.0 - 0) with (IZR 1) by (simpl; lra). apply round_down_Z.
  - replace (1.0 - 1) with (IZR 0) by (simpl; lra). apply round_down_Z.
  - intros x Hx H. rewrite dec_1, round_down_1_minus by exact Hx. lra.
  - intros x _ H. rewrite log_pos by assumption. cbn [mbind option_bind]. eauto.
  - intros x y a b Hxy Ha Hb. unfold log in *.
    destruct (Rlt_dec 0 x) as [Hx|]; [|discriminate].
    destruct (Rlt_dec 0 y) as [Hy|]; [|discriminate].
    cbn [mbind option_bind] in *. injection Ha as <-. injection Hb as <-.
    apply round_down_monotone. now apply ln_le_compat.
  - rewrite log_pos by lra. cbn [mbind option_bind]. rewrite ln_1.
    f_equal. apply (round_down_Z 0).
  - intros x l _ Hx Hl. unfold log in Hl.
    destruct (Rlt_dec 0 x) as [H0|]; [|discriminate].
    cbn [mbind option_bind] in Hl. injection Hl as <-.
    pose proof (round_down_le (ln x)). pose proof (ln_below_1 x H0 Hx). lra.
  - intros x. now rewrite fdiv_None.
  - intros y Hy. rewrite fdiv_Some by assumption. cbn [mbind option_bind].
    f_equal. replace (0 / y) with (IZR 0) by (simpl; field; exact Hy). apply round_down_Z.
  - intros x Hx. rewrite fdiv_Some by assumption. cbn [mbind option_bind].
    f_equal. replace (x / x) with (IZR 1) by (simpl; field; exact Hx). apply round_down_Z.
  - intros x1 x2 y1 y2 a b Hx Hx1 Hy Hy2 Ha Hb.
    rewrite fdiv_Some in Ha, Hb by lra. cbn [mbind option_bind] in *.
    injection Ha as <-. injection Hb as <-. apply round_down_monotone.
    apply Rmult_le_reg_r with (r := (- y1) * (- y2)); [nra|].
    replace (x1 / y1 * (- y1 * - y2)) with (x1 * y2) by (field; lra).
    replace (x2 / y2 * (- y1 * - y2)) with (x2 * y1) by (field; lra).
    nra.
  - intros a b H. apply round_down_monotone. lra.
  - intros k _. rewrite dec_1. change 1 with (IZR 1). rewrite <- plus_IZR.
    apply round_down_Z.
Qed.

(** The guard [1.0 - p <= 0.0] is taken exactly when [p >= 1]. *)
Lemma guard_taken (A : double_arith) (p : R) :
  double_laws A -> 1 <= p -> d_sub A 1.0 p <= 0.
Proof.
  intros L Hp. rewrite <- (sub_1 A L). now apply (sub_antitone A L).
Qed.

Lemma guard_not_taken (A : double_arith) (p : R) :
  double_laws A -> is_double A p -> p < 1 -> 0 < d_sub A 1.0 p.
Proof. intros L Hd Hp. now apply (sub_pos A L). Qed.

Lemma computeNumberOfIterations_double_guard (A : double_arith) (r P : R) :
  d_sub A 1.0 (0.25 * r) <= 0 -> computeNumberOfIterations_double A r P = Some 1%Z.
Proof.
  intros H. unfold computeNumberOfIterations_double.
  destruct (Rle_dec (d_sub A 1.0 (0.25 * r)) 0.0) as [_|Hn]; [reflexivity|].
  exfalso. apply Hn. lra.
Qed.

Lemma computeNumberOfIterations_double_converted (A : double_arith) (r P : R) :
  0 < d_sub A 1.0 (0.25 * r) ->
  computeNumberOfIterations_double A r P = (c ← converted_double A r P; static_cast_int c).
Proof.
  intros H. unfold computeNumberOfIterations_double, converted_double.
  destruct (Rle_dec (d_sub A 1.0 (0.25 * r)) 0.0) as [Hn|_]; [lra|].
  destruct (d_log A (d_sub A 1.0 P)) as [num|]; [|reflexivity]. cbn [mbind option_bind].
  destruct (d_log A (d_sub A 1.0 (0.25 * r))) as [den|]; [|reflexivity].
  cbn [mbind option_bind].
  destruct (d_div A num den) as [q|]; reflexivity.
Qed.

(** The conversion to [int] of a [double] that is not negative. *)
Lemma static_cast_int_nonneg (c : R) :
  0 <= c ->
  static_cast_int c = if (Zfloor c <=? INT_MAX)%Z then Some (Zfloor c) else None.
Proof.
  intros Hc. unfold static_cast_int, Ztrunc.
  destruct (Rle_dec 0 c) as [_|Hn]; [|contradiction].
  assert (H0 : (0 <= Zfloor c)%Z) by (apply Zfloor_lub; exact Hc).
  replace (INT_MIN <=? Zfloor c)%Z with true
    by (symmetry; apply Z.leb_le; unfold INT_MIN; lia).
  reflexivity.
Qed.

Lemma Zfloor_below_2_31 (c : R) : (Zfloor c <= INT_MAX)%Z <-> c < 2147483648.
Proof.
  pose proof (Zfloor_bound c) as [Hl Hu]. unfold INT_MAX. split.
  - intros H. apply IZR_le in H. lra.
  - intros H. assert (Hlt : (Zfloor c < 2147483648)%Z) by (apply lt_IZR; lra). lia.
Qed.

(** The logarithms, the quotient and the sum of a call, by their signs. *)
Lemma converted_double_inv (A : double_arith) (r P c : R) :
  double_laws A -> 0 <= P -> 0 <= r ->
  converted_double A r P = Some c ->
  exists num den q : R,
    d_log A (d_sub A 1.0 P) = Some num /\
    d_log A (d_sub A 1.0 (0.25 * r)) = Some den /\
    d_div A num den = Some q /\
    c = d_add A q 1.0 /\
    num <= 0 /\ den < 0 /\ 0 <= q /\ 1 <= c.
Proof.
  intros L HP Hr H. unfold converted_double in H.
  destruct (d_log A (d_sub A 1.0 P)) as [num|] eqn:Hnum; [|discriminate].
  cbn [mbind option_bind] in H.
  destruct (d_log A (d_sub A 1.0 (0.25 * r))) as [den|] eqn:Hden; [|discriminate].
  cbn [mbind option_bind] in H.
  destruct (d_div A num den) as [q|] eqn:Hq; [|discriminate].
  cbn [mbind option_bind] in H. injection H as <-.
  assert (Hx1 : d_sub A 1.0 P <= 1)
    by (rewrite <- (sub_0 A L); now apply (sub_antitone A L)).
  assert (Hx2 : d_sub A 1.0 (0.25 * r) <= 1)
    by (rewrite <- (sub_0 A L); apply (sub_antitone A L); lra).
  assert (Hn : num <= 0) by exact (log_monotone A L _ _ _ _ Hx1 Hnum (log_1 A L)).
  assert (Hd : den <= 0) by exact (log_monotone A L _ _ _ _ Hx2 Hden (log_1 A L)).
  assert (Hd0 : den <> 0) by (intros ->; rewrite (div_by_0 A L) in Hq; discriminate).
  assert (Hd' : den < 0) by lra.
  assert (Hq0 : 0 <= q).
  { apply (div_monotone A L 0 num den den 0 q); try lra; [now apply (div_0 A L) | exact Hq]. }
  exists num, den, q. repeat split; try assumption; try reflexivity.
  pose proof (add_monotone A L 0 q Hq0) as Hc.
  change 0 with (IZR 0) in Hc at 1. rewrite (add_int A L 0) in Hc by lia. simpl in Hc. lra.
Qed.

End Double_facts.

Section Iterations_double.
Local Open Scope R_scope.

(** A comparison of two powers of fractions, by a comparison of integers. *)
Lemma pow_ratio_lt (a b c d n m : Z) :
  (0 < b)%Z -> (0 < d)%Z -> (0 <= n)%Z -> (0 <= m)%Z ->
  (a ^ n * d ^ m < c ^ m * b ^ n)%Z ->
  (IZR a / IZR b) ^ Z.to_nat n < (IZR c / IZR d) ^ Z.to_nat m.
Proof.
  intros Hb Hd Hn Hm H. unfold Rdiv.
  rewrite !Rpow_mult_distr, !pow_inv, !pow_IZR, !Z2Nat.id by assumption.
  assert (Hbn : 0 < IZR (b ^ n)) by (apply IZR_lt, Z.pow_pos_nonneg; assumption).
  assert (Hdm : 0 < IZR (d ^ m)) by (apply IZR_lt, Z.pow_pos_nonneg; assumption).
  apply IZR_lt in H. rewrite !mult_IZR in H.
  apply Rmult_lt_reg_r with (r := IZR (b ^ n) * IZR (d ^ m)); [nra|].
  replace (IZR (a ^ n) * / IZR (b ^ n) * (IZR (b ^ n) * IZR (d ^ m)))
    with (IZR (a ^ n) * IZR (d ^ m)) by (field; lra).
  replace (IZR (c ^ m) * / IZR (d ^ m) * (IZR (b ^ n) * IZR (d ^ m)))
    with (IZR (c ^ m) * IZR (b ^ n)) by (field; lra).
  exact H.
Qed.

Lemma ln_pow_Z (x : R) (n : Z) :
  0 < x -> (0 <= n)%Z -> ln (x ^ Z.to_nat n) = IZR n * ln x.
Proof.
  intros Hx Hn. rewrite ln_pow by assumption. now rewrite INR_IZR_INZ, Z2Nat.id.
Qed.

(** 16.005 < ln 0.01 / ln 0.75 < 16.995, since
    0.75^3399 < 0.01^200 < 0.75^3201. *)
Lemma ln_quotient_99_margin :
  16 + 0.005 < ln (/ 100) / ln (3 / 4) < 17 - 0.005.
Proof.
  assert (HL : ln (3 / 4) < 0) by (apply ln_below_1; lra).
  assert (Hlow : 200 * ln (/ 100) < 3201 * ln (3 / 4)).
  { rewrite <- (ln_pow_Z (/ 100) 200), <- (ln_pow_Z (3 / 4) 3201) by (lra || lia).
    apply ln_increasing; [apply pow_lt; lra|].
    replace (/ 100) with (1 / 100) by lra.
    apply pow_ratio_lt; [lia | lia | lia | lia | vm_compute; reflexivity]. }
  assert (Hup : 3399 * ln (3 / 4) < 200 * ln (/ 100)).
  { rewrite <- (ln_pow_Z (/ 100) 200), <- (ln_pow_Z (3 / 4) 3399) by (lra || lia).
    apply ln_increasing; [apply pow_lt; lra|].
    replace (/ 100) with (1 / 100) by lra.
    apply pow_ratio_lt; [lia | lia | lia | lia | vm_compute; reflexivity]. }
  assert (Hq : ln (/ 100) / ln (3 / 4) * ln (3 / 4) = ln (/ 100)) by (field; lra).
  split; nra.
Qed.

(** The truncation of a number within [eps] of [q + 1], for a [q] farther
    than [eps] from the integers around it. *)
Lemma Zfloor_within (c q eps : R) :
  Rabs (c - (q + 1)) <= eps ->
  IZR (Zfloor q) + eps < q -> q + eps < IZR (Zfloor q) + 1 ->
  Zfloor c = Zceil q /\ Zceil q = (Zfloor q + 1)%Z.
Proof.
  intros Hc Hl Hu.
  assert (Habs : - eps <= c - (q + 1) <= eps).
  { unfold Rabs in Hc. destruct (Rcase_abs (c - (q + 1))); lra. }
  assert (He : 0 <= eps) by lra.
  assert (Hceil : Zceil q = (Zfloor q + 1)%Z).
  { apply Zceil_eq. rewrite plus_IZR. lra. }
  split; [|exact Hceil]. rewrite Hceil.
  apply Zfloor_eq. rewrite plus_IZR. lra.
Qed.

(** The result when the quotient computed is an integer. *)
Lemma computeNumberOfIterations_double_integer (A : double_arith) (r P num den : R) (k : Z) :
  double_laws A ->
  0 < d_sub A 1.0 (0.25 * r) ->
  d_log A (d_sub A 1.0 P) = Some num ->
  d_log A (d_sub A 1.0 (0.25 * r)) = Some den ->
  d_div A num den = Some (IZR k) ->
  (0 <= k < INT_MAX)%Z ->
  computeNumberOfIterations_double A r P = Some (k + 1)%Z.
Proof.
  intros L Hg Hnum Hden Hk Hrange.
  rewrite computeNumberOfIterations_double_converted by exact Hg.
  unfold converted_double. rewrite Hnum, Hden. cbn [mbind option_bind].
  rewrite Hk. cbn [mbind option_bind].
  rewrite (add_int A L k) by (unfold INT_MAX in Hrange; lia).
  rewrite <- plus_IZR.
  rewrite static_cast_int_nonneg by (apply IZR_le; lia).
  rewrite ZfloorZ.
  replace (k + 1 <=? INT_MAX)%Z with true by (symmetry; apply Z.leb_le; lia).
  reflexivity.
Qed.

(** The result for [P = p], when [1.0 - p] as computed is below 1. *)
Lemma computeNumberOfIterations_double_same (A : double_arith) (r : R) :
  double_laws A -> is_double A (0.25 * r) ->
  0.25 * r < 1 -> d_sub A 1.0 (0.25 * r) < 1 ->
  computeNumberOfIterations_double A r (0.25 * r) = Some 2%Z.
Proof.
  intros L Hdp Hp Hlt.
  assert (Hg : 0 < d_sub A 1.0 (0.25 * r)) by now apply guard_not_taken.
  destruct (log_defined A L _ (sub_double A L _ Hdp) Hg) as [l Hl].
  assert (Hneg : l < 0) by exact (log_neg A L _ _ (sub_double A L _ Hdp) Hlt Hl).
  apply (computeNumberOfIterations_double_integer A r (0.25 * r) l l 1%Z L Hg Hl Hl);
    [|unfold INT_MAX; lia].
  apply (div_self A L). lra.
Qed.

(** The result when the [double] converted is near the exact value. *)
Lemma computeNumberOfIterations_double_near (A : double_arith) (r P c eps : R) :
  0 < d_sub A 1.0 (0.25 * r) ->
  converted_double A r P = Some c ->
  Rabs (c - (ln (1 - P) / ln (1 - 0.25 * r) + 1)) <= eps ->
  IZR (Zfloor (ln (1 - P) / ln (1 - 0.25 * r))) + eps < ln (1 - P) / ln (1 - 0.25 * r) ->
  ln (1 - P) / ln (1 - 0.25 * r) + eps < IZR (Zfloor (ln (1 - P) / ln (1 - 0.25 * r))) + 1 ->
  0 <= ln (1 - P) / ln (1 - 0.25 * r) ->
  (Zceil (ln (1 - P) / ln (1 - 0.25 * r)) <= INT_MAX)%Z ->
  computeNumberOfIterations_double A r P = Some (Zceil (ln (1 - P) / ln (1 - 0.25 * r))).
Proof.
  intros Hg Hc Habs Hl Hu Hq0 Hfit.
  rewrite computeNumberOfIterations_double_converted by exact Hg.
  rewrite Hc. cbn [mbind option_bind].
  destruct (Zfloor_within c _ eps Habs Hl Hu) as [Hfl Hce].
  assert (Hc0 : 0 <= c).
  { pose proof (Zfloor_bound (ln (1 - P) / ln (1 - 0.25 * r))) as [Hb _].
    unfold Rabs in Habs. destruct (Rcase_abs _); lra. }
  rewrite static_cast_int_nonneg by exact Hc0. rewrite Hfl.
  apply Z.leb_le in Hfit. now rewrite Hfit.
Qed.

(** The [double] converted for [P = 0.99] and [r = 1.0] when nothing is
    rounded. *)
Lemma converted_double_exact_99 :
  converted_double exact_arith 1.0 0.99
  = Some (ln (1 - 0.99) / ln (1 - 0.25 * 1.0) + 1).
Proof.
  unfold converted_double. cbn [d_log d_sub d_div d_add exact_arith].
  rewrite !log_pos by lra. cbn [mbind option_bind].
  rewrite fdiv_Some by (apply ln_neq_0; lra). cbn [mbind option_bind].
  rewrite !dec_1. reflexivity.
Qed.

(** 0.25 is a multiple of 2^-60, and [1.0 - 0.25] stays below 1 when it is
    rounded down. *)
Lemma grid_quarter :
  is_double grid_arith (0.25 * 1) /\ d_sub grid_arith 1.0 (0.25 * 1) < 1.
Proof.
  cbn [is_double d_sub grid_arith]. split.
  - replace (0.25 * 1) with (IZR (2 ^ 58) / 2 ^ 60); [apply round_down_grid|].
    rewrite pow_2_60. simpl. lra.
  - pose proof (round_down_le (1.0 - 0.25 * 1)). lra.
Qed.

(** C2, as the code has it.  For a probability [0 <= P < 1] and a relative
    size [r > 0], with [p = 0.25 r] a [double], in an arithmetic of
    [double] that has the laws of rounding: the result is 1 when [p >= 1];
    otherwise it is the truncation of the [double] [c] computed for
    [log (1.0-P)/log (1.0-p) + 1.0].  When [c] is within [eps] of the exact
    [q + 1], [q = ln (1-P) / ln (1-p)], and [q] is farther than [eps] from
    every integer, the result is [ceil (q)], provided it is an [int].  When
    the quotient computed is an integer [k], the result is [k + 1]: for
    [P = p] the quotient computed is 1 and the result 2, while [ceil (q)]
    is 1.  For [P = 0.99] and [r = 1.0] the result is 17 as soon as [c] is
    within 0.005 of the exact value. *)
Theorem computeNumberOfIterations_value (A : double_arith) (r P : R) :
  double_laws A -> is_double A (0.25 * r) ->
  0 <= P < 1 -> 0 < r ->
  let q := ln (1 - P) / ln (1 - 0.25 * r) in
  (1 <= 0.25 * r -> computeNumberOfIterations_double A r P = Some 1%Z) /\
  (0.25 * r < 1 ->
     0 <= q /\
     computeNumberOfIterations_double A r P
     = (c ← converted_double A r P; static_cast_int c) /\
     (forall c eps : R,
        converted_double A r P = Some c ->
        Rabs (c - (q + 1)) <= eps ->
        IZR (Zfloor q) + eps < q -> q + eps < IZR (Zfloor q) + 1 ->
        (Zceil q <= INT_MAX)%Z ->
        computeNumberOfIterations_double A r P = Some (Zceil q)) /\
     (forall (num den : R) (k : Z),
        d_log A (d_sub A 1.0 P) = Some num ->
        d_log A (d_sub A 1.0 (0.25 * r)) = Some den ->
        d_div A num den = Some (IZR k) ->
        (0 <= k < INT_MAX)%Z ->
        computeNumberOfIterations_double A r P = Some (k + 1)%Z) /\
     (P = 0.25 * r -> d_sub A 1.0 (0.25 * r) < 1 ->
        computeNumberOfIterations_double A r P = Some 2%Z /\ Zceil q = 1%Z)) /\
  (forall c : R,
     converted_double A 1.0 0.99 = Some c ->
     Rabs (c - (ln (1 - 0.99) / ln (1 - 0.25 * 1.0) + 1)) <= 0.005 ->
     is_double A (0.25 * 1.0) ->
     computeNumberOfIterations_double A 1.0 0.99 = Some 17%Z).
Proof.
  intros L Hdp [HP0 HP1] Hr q. split; [|split].
  - intros Hp. apply computeNumberOfIterations_double_guard. now apply guard_taken.
  - intros Hp.
    assert (Hg : 0 < d_sub A 1.0 (0.25 * r)) by now apply guard_not_taken.
    assert (Hq : 0 <= q) by (apply ln_quotient_nonneg; lra).
    split; [exact Hq|]. split; [now apply computeNumberOfIterations_double_converted|].
    split; [|split].
    + intros c eps Hc Habs Hl Hu Hfit.
      now apply (computeNumberOfIterations_double_near A r P c eps).
    + intros num den k. now apply computeNumberOfIterations_double_integer.
    + intros HPp Hlt. subst P. split.
      * now apply computeNumberOfIterations_double_same.
      * subst q. replace (ln (1 - 0.25 * r) / ln (1 - 0.25 * r)) with 1.
        -- apply Zceil_eq. simpl. lra.
        -- field. apply Rlt_not_eq, ln_below_1; lra.
  - intros c Hc Habs Hd.
    assert (Hg : 0 < d_sub A 1.0 (0.25 * 1.0)) by (apply guard_not_taken; [assumption..|lra]).
    pose proof ln_quotient_99_margin as [Hl Hu].
    assert (E : ln (1 - 0.99) / ln (1 - 0.25 * 1.0) = ln (/ 100) / ln (3 / 4)).
    { f_equal; f_equal; lra. }
    assert (Hfl : Zfloor (ln (1 - 0.99) / ln (1 - 0.25 * 1.0)) = 16%Z).
    { rewrite E. apply Zfloor_eq. simpl. lra. }
    assert (Hce : Zceil (ln (1 - 0.99) / ln (1 - 0.25 * 1.0)) = 17%Z).
    { rewrite E. apply Zceil_eq. simpl. lra. }
    rewrite <- Hce.
    apply (computeNumberOfIterations_double_near A 1.0 0.99 c 0.005 Hg); try assumption.
    + rewrite Hfl, E. lra.
    + rewrite Hfl, E. lra.
    + rewrite E. lra.
    + rewrite Hce. unfold INT_MAX. lia.
Qed.

(** The default success probability 0.99 with the relative size 1.0 in the
    arithmetic that does not round, and [P = p = 0.25] in the arithmetic
    that rounds down to the multiples of 2^-60. *)
Lemma computeNumberOfIterations_value_witness :
  (double_laws exact_arith /\ is_double exact_arith (0.25 * 1.0) /\
   0 <= 0.99 < 1 /\ 0 < 1.0 /\
   computeNumberOfIterations_double exact_arith 1.0 0.99 = Some 17%Z) /\
  (double_laws grid_arith /\ is_double grid_arith (0.25 * 1) /\
   0 <= 0.25 * 1 < 1 /\ 0 < 1 /\
   computeNumberOfIterations_double grid_arith 1 (0.25 * 1) = Some 2%Z /\
   Zceil (ln (1 - 0.25 * 1) / ln (1 - 0.25 * 1)) = 1%Z).
Proof.
  split.
  - assert (HP : 0 <= 0.99 < 1) by lra.
    assert (Hr : 0 < 1.0) by lra.
    assert (Hd : is_double exact_arith (0.25 * 1.0)) by exact I.
    split; [exact exact_arith_laws|]. split; [exact Hd|].
    split; [exact HP|]. split; [exact Hr|].
    apply (proj2 (proj2 (computeNumberOfIterations_value exact_arith 1.0 0.99
                           exact_arith_laws Hd HP Hr))
             (ln (1 - 0.99) / ln (1 - 0.25 * 1.0) + 1)).
    + exact converted_double_exact_99.
    + rewrite Rminus_diag, Rabs_R0. lra.
    + exact Hd.
  - assert (HP : 0 <= 0.25 * 1 < 1) by lra.
    assert (Hr : 0 < 1) by lra.
    destruct grid_quarter as [Hd Hlt].
    split; [exact grid_arith_laws|]. split; [exact Hd|].
    split; [exact HP|]. split; [exact Hr|].
    assert (Hp : 0.25 * 1 < 1) by lra.
    exact (proj2 (proj2 (proj2 (proj2
             (proj1 (proj2 (computeNumberOfIterations_value grid_arith 1 (0.25 * 1)
                              grid_arith_laws Hd HP Hr)) Hp))))
             eq_refl Hlt).
Defined.

End Iterations_double.

Section Iterations_double_extra.
Local Open Scope R_scope.

(** The result of a call for a probability and a relative size that are
    not negative, by cases. *)
Lemma computeNumberOfIterations_double_cases (A : double_arith) (r P : R) :
  double_laws A -> 0 <= P -> 0 <= r ->
  (d_sub A 1.0 (0.25 * r) <= 0 /\ computeNumberOfIterations_double A r P = Some 1%Z) \/
  (0 < d_sub A 1.0 (0.25 * r) /\ converted_double A r P = None /\
   computeNumberOfIterations_double A r P = None) \/
  (exists c : R,
     0 < d_sub A 1.0 (0.25 * r) /\ converted_double A r P = Some c /\ 1 <= c /\
     computeNumberOfIterations_double A r P
     = if (Zfloor c <=? INT_MAX)%Z then Some (Zfloor c) else None).
Proof.
  intros L HP Hr.
  destruct (Rle_dec (d_sub A 1.0 (0.25 * r)) 0) as [Hg|Hg].
  { left. split; [exact Hg | now apply computeNumberOfIterations_double_guard]. }
  right. assert (Hg' : 0 < d_sub A 1.0 (0.25 * r)) by lra.
  rewrite computeNumberOfIterations_double_converted by exact Hg'.
  destruct (converted_double A r P) as [c|] eqn:Hc.
  - right. exists c.
    destruct (converted_double_inv A r P c L HP Hr Hc) as (num & den & q & _ & _ & _ & _ & _ & _ & _ & Hc1).
    cbn [mbind option_bind]. rewrite static_cast_int_nonneg by lra.
    repeat split; first [assumption | reflexivity].
  - left. repeat split; first [assumption | reflexivity].
Qed.

(** X9.  For a probability of [0,1) and a positive relative size, in an
    arithmetic of [double] that has the laws of rounding, every result of
    the function is at least one iteration: when the guard
    [1.0 - p <= 0.0] holds the result is 1; otherwise the [double] [c] that
    is converted is at least 1, the result is its truncation, at least 1,
    when [c < 2^31], and the conversion has no value when [c >= 2^31] or
    when [c] is not a finite number. *)
Theorem computeNumberOfIterations_at_least_1 (A : double_arith) (r P : R) :
  double_laws A -> 0 <= P < 1 -> 0 < r ->
  (d_sub A 1.0 (0.25 * r) <= 0 -> computeNumberOfIterations_double A r P = Some 1%Z) /\
  (0 < d_sub A 1.0 (0.25 * r) ->
     (converted_double A r P = None -> computeNumberOfIterations_double A r P = None) /\
     (forall c : R, converted_double A r P = Some c ->
        1 <= c /\
        (c < 2147483648 ->
           computeNumberOfIterations_double A r P = Some (Zfloor c) /\ (1 <= Zfloor c)%Z) /\
        (2147483648 <= c -> computeNumberOfIterations_double A r P = None))) /\
  (forall n : Z, computeNumberOfIterations_double A r P = Some n -> (1 <= n)%Z).
Proof.
  intros L [HP0 HP1] Hr.
  assert (Hfloor : forall c : R, 1 <= c -> (1 <= Zfloor c)%Z).
  { intros c Hc. apply Zfloor_lub. simpl. exact Hc. }
  destruct (computeNumberOfIterations_double_cases A r P L HP0 ltac:(lra))
    as [(Hg & H) | [(Hg & Hc & H) | (c & Hg & Hc & Hc1 & H)]].
  - split; [intros _; exact H|]. split; [intros Hg'; lra|].
    intros n Hn. rewrite H in Hn. injection Hn as <-. lia.
  - split; [intros Hg'; lra|]. split.
    + intros _. split; [intros _; exact H|]. intros c Hc'. congruence.
    + intros n Hn. congruence.
  - split; [intros Hg'; lra|]. split.
    + intros _. split; [intros Hc'; congruence|].
      intros c' Hc'. assert (E : c' = c) by congruence. subst c'.
      split; [exact Hc1|]. split.
      * intros Hlt. apply Zfloor_below_2_31, Z.leb_le in Hlt. rewrite Hlt in H.
        split; [exact H | now apply Hfloor].
      * intros Hge. rewrite H.
        destruct (Zfloor c <=? INT_MAX)%Z eqn:E; [|reflexivity].
        apply Z.leb_le, Zfloor_below_2_31 in E. lra.
    + intros n Hn. rewrite H in Hn.
      destruct (Zfloor c <=? INT_MAX)%Z; [|discriminate].
      injection Hn as <-. now apply Hfloor.
Qed.

(** X10.  In an arithmetic of [double] that has the laws of rounding, the
    [double] that is converted does not decrease when the success
    probability grows, nor when the relative object size shrinks; so the
    number of iterations does not decrease either, whenever both calls
    have a result, and the call for the smaller probability and the larger
    size has a result whenever the other call has one and its own [double]
    is a finite number. *)
Theorem computeNumberOfIterations_monotone (A : double_arith) (r1 r2 P1 P2 : R) :
  double_laws A ->
  0 <= P1 <= P2 -> P2 < 1 -> 0 < r2 <= r1 ->
  (forall c1 c2 : R,
     converted_double A r1 P1 = Some c1 -> converted_double A r2 P2 = Some c2 ->
     c1 <= c2) /\
  (forall n1 n2 : Z,
     computeNumberOfIterations_double A r1 P1 = Some n1 ->
     computeNumberOfIterations_double A r2 P2 = Some n2 ->
     (n1 <= n2)%Z) /\
  (forall n2 : Z,
     computeNumberOfIterations_double A r2 P2 = Some n2 ->
     d_sub A 1.0 (0.25 * r1) <= 0 \/ is_Some (converted_double A r1 P1) ->
     exists n1 : Z,
       computeNumberOfIterations_double A r1 P1 = Some n1 /\ (n1 <= n2)%Z).
Proof.
  intros L HP HP2 Hr.
  assert (Hconv : forall c1 c2 : R,
             converted_double A r1 P1 = Some c1 -> converted_double A r2 P2 = Some c2 ->
             c1 <= c2).
  { intros c1 c2 H1 H2.
    destruct (converted_double_inv A r1 P1 c1 L ltac:(lra) ltac:(lra) H1)
      as (n1 & d1 & q1 & Hn1 & Hd1 & Hq1 & -> & Hn1s & Hd1s & Hq1s & _).
    destruct (converted_double_inv A r2 P2 c2 L ltac:(lra) ltac:(lra) H2)
      as (n2 & d2 & q2 & Hn2 & Hd2 & Hq2 & -> & Hn2s & Hd2s & Hq2s & _).
    apply (add_monotone A L).
    assert (Hx : d_sub A 1.0 P2 <= d_sub A 1.0 P1) by (apply (sub_antitone A L); lra).
    assert (Hy : d_sub A 1.0 (0.25 * r1) <= d_sub A 1.0 (0.25 * r2))
      by (apply (sub_antitone A L); lra).
    assert (Hn : n2 <= n1) by exact (log_monotone A L _ _ _ _ Hx Hn2 Hn1).
    assert (Hd : d1 <= d2) by exact (log_monotone A L _ _ _ _ Hy Hd1 Hd2).
    exact (div_monotone A L _ _ _ _ _ _ Hn Hn1s Hd Hd2s Hq1 Hq2). }
  assert (Hints : forall n1 n2 : Z,
             computeNumberOfIterations_double A r1 P1 = Some n1 ->
             computeNumberOfIterations_double A r2 P2 = Some n2 ->
             (n1 <= n2)%Z).
  { intros n1 n2 H1 H2.
    assert (H2' : (1 <= n2)%Z).
    { destruct (computeNumberOfIterations_double_cases A r2 P2 L ltac:(lra) ltac:(lra))
        as [(_ & H) | [(_ & _ & H) | (c & _ & Hc & Hc1 & H)]]; rewrite H in H2.
      - injection H2 as <-. lia.
      - discriminate.
      - destruct (Zfloor c <=? INT_MAX)%Z; [|discriminate]. injection H2 as <-.
        apply Zfloor_lub. simpl. exact Hc1. }
    destruct (computeNumberOfIterations_double_cases A r1 P1 L ltac:(lra) ltac:(lra))
      as [(_ & H) | [(_ & _ & H) | (c1 & Hg1 & Hc1 & _ & H)]]; rewrite H in H1.
    - injection H1 as <-. exact H2'.
    - discriminate.
    - destruct (Zfloor c1 <=? INT_MAX)%Z; [|discriminate]. injection H1 as <-.
      assert (Hg2 : 0 < d_sub A 1.0 (0.25 * r2)).
      { pose proof (sub_antitone A L (0.25 * r2) (0.25 * r1) ltac:(lra)). lra. }
      destruct (computeNumberOfIterations_double_cases A r2 P2 L ltac:(lra) ltac:(lra))
        as [(Hg & _) | [(_ & _ & H') | (c2 & _ & Hc2 & _ & H')]]; [lra | congruence |].
      rewrite H' in H2.
      destruct (Zfloor c2 <=? INT_MAX)%Z; [|discriminate]. injection H2 as <-.
      apply Zfloor_le. now apply Hconv. }
  split; [exact Hconv|]. split; [exact Hints|].
  intros n2 H2 Hdef.
  assert (Hsome : is_Some (computeNumberOfIterations_double A r1 P1)).
  { destruct (computeNumberOfIterations_double_cases A r1 P1 L ltac:(lra) ltac:(lra))
      as [(_ & H) | [(Hg1 & Hnone & _) | (c1 & Hg1 & Hc1 & _ & H)]].
    - rewrite H. eauto.
    - destruct Hdef as [Hg | [c Hc]]; [lra | congruence].
    - rewrite H.
      assert (Hg2 : 0 < d_sub A 1.0 (0.25 * r2)).
      { pose proof (sub_antitone A L (0.25 * r2) (0.25 * r1) ltac:(lra)). lra. }
      destruct (computeNumberOfIterations_double_cases A r2 P2 L ltac:(lra) ltac:(lra))
        as [(Hg & _) | [(_ & _ & H') | (c2 & _ & Hc2 & _ & H')]]; [lra | congruence |].
      rewrite H' in H2.
      destruct (Zfloor c2 <=? INT_MAX)%Z eqn:E2; [|discriminate].
      apply Z.leb_le in E2.
      pose proof (Zfloor_le _ _ (Hconv c1 c2 Hc1 Hc2)) as Hle.
      replace (Zfloor c1 <=? INT_MAX)%Z with true by (symmetry; apply Z.leb_le; lia).
      eauto. }
  destruct Hsome as [n1 H1]. exists n1. split; [exact H1 | now apply (Hints n1 n2)].
Qed.


(** [ln 100 >= 1] and [- ln (1 - x) <= x / (1 - x)]. *)
Lemma ln_100_ge_1 : 1 <= ln 100.
Proof.
  rewrite <- (ln_exp 1). pose proof exp_le_3. pose proof (exp_pos 1).
  destruct (Rle_lt_or_eq_dec (exp 1) 100 ltac:(lra)) as [Hlt|Heq]; [|lra].
  left. now apply ln_increasing.
Qed.

Lemma ln_1_minus_lower (x : R) : 0 < x < 1 -> - (x / (1 - x)) <= ln (1 - x).
Proof.
  intros [H0 H1].
  assert (Hinv : ln (/ (1 - x)) <= x / (1 - x)).
  { rewrite <- (ln_exp (x / (1 - x))).
    pose proof (exp_ineq1_le (x / (1 - x))) as He.
    assert (E : / (1 - x) = 1 + x / (1 - x)) by (field; lra).
    assert (Hpos : 0 < / (1 - x)) by (apply Rinv_0_lt_compat; lra).
    destruct (Rle_lt_or_eq_dec (/ (1 - x)) (exp (x / (1 - x))) ltac:(lra)) as [Hlt|Heq].
    - left. now apply ln_increasing.
    - rewrite Heq. lra. }
  rewrite ln_Rinv in Hinv by lra. lra.
Qed.

(** For [r = 2^-30] and [P = 0.99] the [double] to convert is beyond the
    range of [int], also when nothing is rounded. *)
Lemma converted_double_beyond_int :
  exists c : R,
    converted_double exact_arith (/ 1073741824) 0.99 = Some c /\ 2147483648 <= c /\
    0 < d_sub exact_arith 1.0 (0.25 * / 1073741824).
Proof.
  set (x := 0.25 * / 1073741824).
  assert (Hx : x = / 4294967296) by (subst x; lra).
  assert (Hden : ln (1 - x) < 0) by (apply ln_below_1; lra).
  assert (Hlow : - (x / (1 - x)) <= ln (1 - x)) by (apply ln_1_minus_lower; lra).
  assert (Hnum : ln (1 - 0.99) <= - 1).
  { replace (1 - 0.99) with (/ 100) by lra. rewrite ln_Rinv by lra.
    pose proof ln_100_ge_1. lra. }
  exists (ln (1 - 0.99) / ln (1 - x) + 1). split; [|split].
  - unfold converted_double. cbn [d_log d_sub d_div d_add exact_arith]. fold x.
    rewrite !dec_1. rewrite !log_pos by lra. cbn [mbind option_bind].
    rewrite fdiv_Some by (apply Rlt_not_eq; exact Hden). reflexivity.
  - assert (Hq : 4294967295 <= ln (1 - 0.99) / ln (1 - x)).
    { apply Rmult_le_reg_r with (r := - ln (1 - x)); [lra|].
      replace (ln (1 - 0.99) / ln (1 - x) * - ln (1 - x)) with (- ln (1 - 0.99))
        by (field; lra).
      assert (Hb : 4294967295 * (x / (1 - x)) = 1) by (rewrite Hx; field; lra).
      nra. }
    lra.
  - cbn [d_sub exact_arith]. fold x. lra.
Qed.

Lemma computeNumberOfIterations_at_least_1_witness :
  (double_laws grid_arith /\ 0 <= 0.25 * 1 < 1 /\ 0 < 1 /\
   computeNumberOfIterations_double grid_arith 1 (0.25 * 1) = Some 2%Z /\ (1 <= 2)%Z) /\
  (double_laws exact_arith /\ 0 <= 0.99 < 1 /\ 0 < / 1073741824 /\
   computeNumberOfIterations_double exact_arith (/ 1073741824) 0.99 = None).
Proof.
  split.
  - assert (HP : 0 <= 0.25 * 1 < 1) by lra.
    assert (Hr : 0 < 1) by lra.
    destruct grid_quarter as [Hd Hlt].
    pose proof (computeNumberOfIterations_double_same grid_arith 1 grid_arith_laws Hd
                  ltac:(lra) Hlt) as H2.
    split; [exact grid_arith_laws|]. split; [exact HP|]. split; [exact Hr|].
    split; [exact H2|].
    exact (proj2 (proj2 (computeNumberOfIterations_at_least_1 grid_arith 1 (0.25 * 1)
                           grid_arith_laws HP Hr)) 2%Z H2).
  - assert (HP : 0 <= 0.99 < 1) by lra.
    assert (Hr : 0 < / 1073741824) by lra.
    destruct converted_double_beyond_int as (c & Hc & Hbig & Hg).
    split; [exact exact_arith_laws|]. split; [exact HP|]. split; [exact Hr|].
    exact (proj2 (proj2 (proj2 (proj1 (proj2
             (computeNumberOfIterations_at_least_1 exact_arith (/ 1073741824) 0.99
                exact_arith_laws HP Hr)) Hg) c Hc)) Hbig).
Defined.

Lemma computeNumberOfIterations_monotone_witness :
  double_laws grid_arith /\ 0 <= 0 <= 0.25 * 1 /\ 0.25 * 1 < 1 /\ 0 < 1 <= 4 /\
  computeNumberOfIterations_double grid_arith 4 0 = Some 1%Z /\
  computeNumberOfIterations_double grid_arith 1 (0.25 * 1) = Some 2%Z /\ (1 <= 2)%Z.
Proof.
  assert (HP : 0 <= 0 <= 0.25 * 1) by lra.
  assert (HP2 : 0.25 * 1 < 1) by lra.
  assert (Hr : 0 < 1 <= 4) by lra.
  destruct grid_quarter as [Hd Hlt].
  pose proof (computeNumberOfIterations_double_same grid_arith 1 grid_arith_laws Hd
                ltac:(lra) Hlt) as H2.
  assert (H1 : computeNumberOfIterations_double grid_arith 4 0 = Some 1%Z).
  { apply computeNumberOfIterations_double_guard, guard_taken; [exact grid_arith_laws | lra]. }
  split; [exact grid_arith_laws|]. split; [exact HP|]. split; [exact HP2|].
  split; [exact Hr|]. split; [exact H1|]. split; [exact H2|].
  exact (proj1 (proj2 (computeNumberOfIterations_monotone grid_arith 4 1 0 (0.25 * 1)
                         grid_arith_laws HP HP2 Hr)) 1%Z 2%Z H1 H2).
Defined.

End Iterations_double_extra.

(* ===================================================================== *)
(** * Further properties of the entries and cells *)
(* ===================================================================== *)

Section Cell_extra.
Local Open Scope R_scope.

(** X12.  An entry accumulates: after [n] insertions in a new entry,
    [n <= INT_MAX], it holds the sum of the axis-angle vectors, the sum of
    the translations and the count [n]. *)
Theorem entry_accumulates (calls : list (vec3 * vec3)) :
  (Z.of_nat (length calls) <= INT_MAX)%Z ->
  Entry_calls.add_all calls Entry.new
  = Entry.mk (vsum calls.*1) (vsum calls.*2) (Z.of_nat (length calls)).
Proof.
  intros Hmax.
  destruct (add_all_fields calls Entry.new) as (Ha & Ht & Hn).
  { simpl. unfold INT_MIN, INT_MAX. lia. }
  change (Entry.num_transforms_ Entry.new) with 0%Z in Hn.
  rewrite Z.add_0_l, int_wrap_small in Hn by (unfold INT_MIN; lia).
  destruct (Entry_calls.add_all calls Entry.new) as [a t n]. simpl in *. subst.
  f_equal; apply vec3_eq; simpl; lra.
Qed.

(** X13.  Averaging is not incremental: an insertion after an averaging
    counts as much as all the transforms averaged before it.  After [n]
    insertions, an averaging, one more insertion [(v, t)] and an averaging,
    the entry holds the mean of the former mean and [(v, t)]. *)
Theorem average_insert_average (calls : list (vec3 * vec3)) (v t : vec3) :
  calls <> [] ->
  (Z.of_nat (length calls) <= INT_MAX)%Z ->
  Entry.computeAverageRigidTransform
    (Entry.addRigidTransform
       (Entry.computeAverageRigidTransform (Entry_calls.add_all calls Entry.new)) v t)
  = Entry.mk (vmean [vmean calls.*1; v]) (vmean [vmean calls.*2; t]) 1.
Proof.
  intros Hne Hmax. rewrite computeAverage_add_all_new by assumption.
  unfold Entry.addRigidTransform; simpl.
  rewrite computeAverage_from_2 by (simpl; vm_compute; discriminate). simpl.
  change (int_incr 1) with 2%Z.
  f_equal; apply vec3_eq; simpl; lra.
Qed.

(** X14.  [computeAverageRigidTransformInEntries] does not consume the
    cell: a second call leaves the cell as the first call left it and
    appends the same hypotheses once more. *)
Theorem computeAverageRigidTransformInEntries_twice (c : Cell.t) (out : list Hypothesis_t)
    (counter : Z) :
  let first := Cell.computeAverageRigidTransformInEntries c out counter in
  let second := Cell.computeAverageRigidTransformInEntries first.1.1 first.1.2 first.2 in
  second.1.1 = first.1.1 /\
  exists new : list Hypothesis_t,
    length new = size (Cell.model_to_entry_ c) /\
    first.1.2 = out ++ new /\
    second.1.2 = out ++ new ++ new.
Proof.
  intros first second. subst second first.
  rewrite !computeAverageRigidTransformInEntries_eq. simpl.
  split.
  - f_equal. rewrite <- map_fmap_compose. apply map_fmap_ext.
    intros k e _. apply computeAverage_idempotent.
  - eexists. split; [|split; [reflexivity|]].
    + now rewrite length_fmap, length_map_to_list.
    + rewrite <- app_assoc. do 2 f_equal.
      rewrite map_to_list_fmap, <- list_fmap_compose.
      apply list_fmap_ext. intros i [k e] _. simpl.
      now rewrite computeAverage_idempotent.
Qed.

End Cell_extra.

(* ===================================================================== *)
(** * Further properties of the rotation space *)
(* ===================================================================== *)

Section RotationSpace_extra.
Local Open Scope R_scope.

(** An insertion inside the bounds, in full: the cell of the leaf of the
    point, the other cells, the list of the full cells and the grid. *)
Lemma addRigidTransform_step_inside (rs : RotationSpace.t) (model : N)
    (axis_angle translation : vec3) :
  RotationSpace.outside rs axis_angle = false ->
  let leaf := RotationSpace.leaf_of rs axis_angle in
  let cell0 := default (Cell.mk ∅ (Some leaf) (RotationSpace.t_3dId_ rs))
                       (RotationSpace.cell_at rs leaf) in
  let rs' := (RotationSpace.addRigidTransform rs model axis_angle translation).1.2 in
  (RotationSpace.addRigidTransform rs model axis_angle translation).1.1 = true /\
  RotationSpace.cell_at rs' leaf
  = Some (Cell.addRigidTransform cell0 model axis_angle translation) /\
  (forall l : int3, l <> leaf -> RotationSpace.cell_at rs' l = RotationSpace.cell_at rs l) /\
  RotationSpace.full_cells_ rs'
  = RotationSpace.full_cells_ rs
    ++ (if RotationSpace.cell_at rs leaf is Some _ then [] else [leaf]) /\
  ORROctree.bounds_ (RotationSpace.rot_octree_ rs')
  = ORROctree.bounds_ (RotationSpace.rot_octree_ rs) /\
  ORROctree.voxel_size_ (RotationSpace.rot_octree_ rs')
  = ORROctree.voxel_size_ (RotationSpace.rot_octree_ rs).
Proof.
  unfold RotationSpace.outside, RotationSpace.addRigidTransform, ORROctree.createLeaf,
    RotationSpace.cell_at, RotationSpace.leaf_of.
  intros ->.
  set (leaf := ORROctree.voxel_of (RotationSpace.rot_octree_ rs)
                 (e0 axis_angle) (e1 axis_angle) (e2 axis_angle)).
  unfold ORROctree.getUserData, ORROctree.setUserData.
  destruct (ORROctree.full_leaves_ (RotationSpace.rot_octree_ rs) !! leaf)
    as [[cell|]|] eqn:Hleaf; simpl.
  - rewrite Hleaf. simpl. rewrite lookup_insert_eq, app_nil_r. simpl.
    repeat split. intros l Hne. now rewrite lookup_insert_ne.
  - rewrite Hleaf. simpl. rewrite lookup_insert_eq. simpl.
    repeat split. intros l Hne. now rewrite lookup_insert_ne.
  - rewrite lookup_insert_eq. simpl. rewrite lookup_insert_eq. simpl.
    repeat split. intros l Hne. now rewrite !lookup_insert_ne.
Qed.

(** Two rotation spaces over the same grid own the same points by the same
    leaves. *)
Lemma same_grid (rs rs' : RotationSpace.t) (axis_angle : vec3) :
  ORROctree.bounds_ (RotationSpace.rot_octree_ rs')
  = ORROctree.bounds_ (RotationSpace.rot_octree_ rs) ->
  ORROctree.voxel_size_ (RotationSpace.rot_octree_ rs')
  = ORROctree.voxel_size_ (RotationSpace.rot_octree_ rs) ->
  RotationSpace.outside rs' axis_angle = RotationSpace.outside rs axis_angle /\
  RotationSpace.leaf_of rs' axis_angle = RotationSpace.leaf_of rs axis_angle.
Proof.
  unfold RotationSpace.outside, RotationSpace.leaf_of, ORROctree.voxel_of.
  now intros -> ->.
Qed.

(** An insertion keeps the grid. *)
Lemma addRigidTransform_grid (rs : RotationSpace.t) (model : N)
    (axis_angle translation : vec3) :
  let rs' := (RotationSpace.addRigidTransform rs model axis_angle translation).1.2 in
  ORROctree.bounds_ (RotationSpace.rot_octree_ rs')
  = ORROctree.bounds_ (RotationSpace.rot_octree_ rs) /\
  ORROctree.voxel_size_ (RotationSpace.rot_octree_ rs')
  = ORROctree.voxel_size_ (RotationSpace.rot_octree_ rs).
Proof.
  intros rs'. subst rs'.
  destruct (RotationSpace.outside rs axis_angle) eqn:Hout.
  - rewrite addRigidTransform_outside by assumption. split; reflexivity.
  - destruct (addRigidTransform_step_inside rs model axis_angle translation Hout)
      as (_ & _ & _ & _ & Hb & Hv). split; assumption.
Qed.

Lemma rs_add_all_snoc (calls : list (N * vec3 * vec3)) (x : N * vec3 * vec3)
    (rs : RotationSpace.t) :
  RotationSpace_calls.add_all (calls ++ [x]) rs
  = (RotationSpace.addRigidTransform (RotationSpace_calls.add_all calls rs) x.1.1 x.1.2 x.2).1.2.
Proof. unfold RotationSpace_calls.add_all. now rewrite foldl_app. Qed.

Lemma rs_add_all_grid (calls : list (N * vec3 * vec3)) (rs : RotationSpace.t) :
  ORROctree.bounds_ (RotationSpace.rot_octree_ (RotationSpace_calls.add_all calls rs))
  = ORROctree.bounds_ (RotationSpace.rot_octree_ rs) /\
  ORROctree.voxel_size_ (RotationSpace.rot_octree_ (RotationSpace_calls.add_all calls rs))
  = ORROctree.voxel_size_ (RotationSpace.rot_octree_ rs).
Proof.
  induction calls as [|x calls IH] using rev_ind; [split; reflexivity|].
  rewrite rs_add_all_snoc.
  destruct (addRigidTransform_grid (RotationSpace_calls.add_all calls rs) x.1.1 x.1.2 x.2)
    as [Hb Hv].
  destruct IH as [IHb IHv]. split; congruence.
Qed.

(** One insertion keeps the listing of the full cells. *)
Lemma cells_listed_step (rs : RotationSpace.t) (model : N) (axis_angle translation : vec3) :
  RotationSpace_calls.cells_listed rs ->
  RotationSpace_calls.cells_listed
    (RotationSpace.addRigidTransform rs model axis_angle translation).1.2.
Proof.
  intros (Hnd & Hin & Hid).
  destruct (RotationSpace.outside rs axis_angle) eqn:Hout.
  { rewrite addRigidTransform_outside by assumption. simpl. exact (conj Hnd (conj Hin Hid)). }
  destruct (addRigidTransform_step_inside rs model axis_angle translation Hout)
    as (_ & Hat & Hother & Hfull & _).
  set (leaf := RotationSpace.leaf_of rs axis_angle) in *.
  set (rs' := (RotationSpace.addRigidTransform rs model axis_angle translation).1.2) in *.
  split; [|split].
  - rewrite Hfull. destruct (RotationSpace.cell_at rs leaf) as [c|] eqn:Hc.
    + now rewrite app_nil_r.
    + apply NoDup_app. split; [exact Hnd|]. split; [|apply NoDup_singleton].
      intros l Hl ->%list_elem_of_singleton. apply Hin in Hl. rewrite Hc in Hl.
      now destruct Hl.
  - intros l. rewrite Hfull. destruct (decide (l = leaf)) as [->|Hne].
    + rewrite Hat. split; [eauto|]. intros _.
      destruct (RotationSpace.cell_at rs leaf) as [c|] eqn:Hc.
      * rewrite app_nil_r. apply Hin. rewrite Hc. eauto.
      * apply elem_of_app. right. now apply list_elem_of_singleton.
    + rewrite Hother by assumption. rewrite <- Hin.
      destruct (RotationSpace.cell_at rs leaf); [now rewrite app_nil_r|].
      rewrite elem_of_app, list_elem_of_singleton. tauto.
  - intros l cell Hcell. destruct (decide (l = leaf)) as [->|Hne].
    + rewrite Hat in Hcell. injection Hcell as <-. simpl.
      destruct (RotationSpace.cell_at rs leaf) as [c|] eqn:Hc; simpl; [|reflexivity].
      now apply Hid.
    + rewrite Hother in Hcell by assumption. now apply Hid.
Qed.

Lemma cells_listed_new : RotationSpace_calls.cells_listed RotationSpace.new.
Proof.
  unfold RotationSpace_calls.cells_listed, RotationSpace.cell_at, ORROctree.getUserData. simpl.
  split; [constructor|]. split.
  - intros leaf. rewrite lookup_empty. simpl. split; [inversion 1 | intros [? ?]; discriminate].
  - intros leaf cell. rewrite lookup_empty. discriminate.
Qed.

(** X15.  The insertions keep the listing of the full cells: each leaf
    that has a cell is listed exactly once in [full_cells_], no other leaf
    is listed, each cell records the 3d id of its leaf, and the grid (bounds
    and voxel size) does not change. *)
Theorem cells_listed_invariant (calls : list (N * vec3 * vec3)) (rs : RotationSpace.t) :
  RotationSpace_calls.cells_listed rs ->
  RotationSpace_calls.cells_listed (RotationSpace_calls.add_all calls rs) /\
  ORROctree.bounds_ (RotationSpace.rot_octree_ (RotationSpace_calls.add_all calls rs))
  = ORROctree.bounds_ (RotationSpace.rot_octree_ rs) /\
  ORROctree.voxel_size_ (RotationSpace.rot_octree_ (RotationSpace_calls.add_all calls rs))
  = ORROctree.voxel_size_ (RotationSpace.rot_octree_ rs).
Proof.
  intros H. split; [|apply rs_add_all_grid].
  induction calls as [|x calls IH] using rev_ind; [exact H|].
  rewrite rs_add_all_snoc. now apply cells_listed_step.
Qed.

End RotationSpace_extra.

Section RotationSpace_extra2.
Local Open Scope R_scope.

(** One step of the loop over the full cells: what it appends, the counter
    and the cells it leaves alone. *)
Lemma cells_step_spec (rs : RotationSpace.t) (out : list Hypothesis_t) (counter : Z)
    (it : int3) :
  (INT_MIN <= counter <= INT_MAX)%Z ->
  let st := RotationSpace.cells_step (rs, out, counter) it in
  st.1.2 = out ++ RotationSpace_calls.emitted rs it /\
  st.2 = int_wrap (counter + Z.of_nat (length (RotationSpace_calls.emitted rs it))) /\
  (forall l : int3, l <> it -> RotationSpace.cell_at st.1.1 l = RotationSpace.cell_at rs l).
Proof.
  intros Hc. unfold RotationSpace.cells_step, RotationSpace_calls.emitted.
  destruct (RotationSpace.cell_at rs it) as [cell|] eqn:Hcell.
  - rewrite computeAverageRigidTransformInEntries_eq. cbn [fst snd].
    split; [reflexivity|]. split.
    + rewrite length_fmap, length_map_to_list. unfold int_add.
      rewrite (Z.add_comm counter (int_wrap _)), int_wrap_idemp_add.
      now rewrite Z.add_comm.
    + intros l Hne. unfold RotationSpace.cell_at, ORROctree.getUserData, ORROctree.setUserData.
      simpl. now rewrite lookup_insert_ne.
  - cbn [fst snd length]. rewrite app_nil_r, Z.add_0_r, int_wrap_small by assumption.
    repeat split.
Qed.

(** The loop over a list of distinct leaves. *)
Lemma cells_fold_spec (l : list int3) (rs : RotationSpace.t) (out : list Hypothesis_t)
    (counter : Z) :
  NoDup l -> (INT_MIN <= counter <= INT_MAX)%Z ->
  let st := foldl RotationSpace.cells_step (rs, out, counter) l in
  st.1.2 = out ++ mjoin (RotationSpace_calls.emitted rs <$> l) /\
  st.2 = int_wrap (counter + Z.of_nat (length (mjoin (RotationSpace_calls.emitted rs <$> l)))).
Proof.
  revert rs out counter. induction l as [|it l IH]; intros rs out counter Hnd Hc; cbn [foldl].
  - simpl. rewrite app_nil_r, Z.add_0_r, int_wrap_small by assumption. split; reflexivity.
  - apply NoDup_cons in Hnd as [Hnotin Hnd].
    destruct (cells_step_spec rs out counter it Hc) as (Hout & Hcnt & Hother).
    destruct (RotationSpace.cells_step (rs, out, counter) it) as [[rs1 out1] c1].
    cbn [fst snd] in *. subst out1 c1.
    destruct (IH rs1 (out ++ RotationSpace_calls.emitted rs it)
                (int_wrap (counter + Z.of_nat (length (RotationSpace_calls.emitted rs it))))
                Hnd (int_wrap_range _)) as [H1 H2].
    assert (Hsame : RotationSpace_calls.emitted rs1 <$> l = RotationSpace_calls.emitted rs <$> l).
    { apply list_fmap_ext. intros i leaf Hi. unfold RotationSpace_calls.emitted.
      rewrite Hother; [reflexivity|]. intros ->. apply Hnotin.
      apply list_elem_of_lookup. eauto. }
    rewrite Hsame in H1, H2. cbn [fmap list_fmap mjoin list_join].
    split.
    + rewrite H1. now rewrite <- app_assoc.
    + rewrite H2, int_wrap_idemp_add, length_app. apply (f_equal int_wrap).
      rewrite Nat2Z.inj_add. symmetry. apply Z.add_assoc.
Qed.

(** X16.  [computeAverageRigidTransformInCells] adds to the counter the
    number of the hypotheses it appends to [out] (as an [int]); for a
    rotation space whose full cells are listed once, these are the
    hypotheses of its cells, in the order of [full_cells_]. *)
Theorem computeAverageRigidTransformInCells_counter (rs : RotationSpace.t)
    (out : list Hypothesis_t) (counter : Z) :
  NoDup (RotationSpace.full_cells_ rs) ->
  (INT_MIN <= counter <= INT_MAX)%Z ->
  let res := RotationSpace.computeAverageRigidTransformInCells rs out counter in
  let new := mjoin (RotationSpace_calls.emitted rs <$> RotationSpace.full_cells_ rs) in
  res.1.2 = out ++ new /\
  res.2 = int_wrap (counter + Z.of_nat (length new)) /\
  ((counter + Z.of_nat (length new) <= INT_MAX)%Z ->
   res.2 = (counter + Z.of_nat (length new))%Z).
Proof.
  intros Hnd Hc res new. subst res new.
  unfold RotationSpace.computeAverageRigidTransformInCells.
  destruct (cells_fold_spec (RotationSpace.full_cells_ rs) rs out counter Hnd Hc) as [H1 H2].
  split; [exact H1|]. split; [exact H2|].
  intros Hfit. rewrite H2. apply int_wrap_small. lia.
Qed.

End RotationSpace_extra2.

Section RotationSpace_extra3.
Local Open Scope R_scope.

Lemma addRigidTransform_t_3dId (rs : RotationSpace.t) (model : N)
    (axis_angle translation : vec3) :
  RotationSpace.t_3dId_ (RotationSpace.addRigidTransform rs model axis_angle translation).1.2
  = RotationSpace.t_3dId_ rs.
Proof.
  unfold RotationSpace.addRigidTransform.
  destruct (ORROctree.createLeaf _ _ _ _) as [[leaf oct]|]; [|reflexivity].
  destruct (ORROctree.getUserData oct leaf); reflexivity.
Qed.

Lemma rs_add_all_t_3dId (calls : list (N * vec3 * vec3)) (rs : RotationSpace.t) :
  RotationSpace.t_3dId_ (RotationSpace_calls.add_all calls rs) = RotationSpace.t_3dId_ rs.
Proof.
  induction calls as [|x calls IH] using rev_ind; [reflexivity|].
  now rewrite rs_add_all_snoc, addRigidTransform_t_3dId.
Qed.

Lemma calls_in_snoc (rs : RotationSpace.t) (leaf : int3) (calls : list (N * vec3 * vec3))
    (x : N * vec3 * vec3) :
  RotationSpace_calls.calls_in rs leaf (calls ++ [x])
  = RotationSpace_calls.calls_in rs leaf calls
    ++ (if decide (RotationSpace.outside rs x.1.2 = false /\ RotationSpace.leaf_of rs x.1.2 = leaf)
        then [x] else []).
Proof.
  unfold RotationSpace_calls.calls_in. rewrite filter_app, filter_cons, filter_nil.
  reflexivity.
Qed.

(** The cell of a leaf after a sequence of insertions: the cell it had, or
    a new one, filled by the calls that fall in the leaf. *)
Lemma rs_add_all_cell (calls : list (N * vec3 * vec3)) (rs : RotationSpace.t) (leaf : int3) :
  RotationSpace.cell_at (RotationSpace_calls.add_all calls rs) leaf
  = match RotationSpace_calls.calls_in rs leaf calls with
    | [] => RotationSpace.cell_at rs leaf
    | _ :: _ =>
        Some (Cell_calls.add_all (RotationSpace_calls.calls_in rs leaf calls)
                (default (Cell.mk ∅ (Some leaf) (RotationSpace.t_3dId_ rs))
                         (RotationSpace.cell_at rs leaf)))
    end.
Proof.
  induction calls as [|x calls IH] using rev_ind; [reflexivity|].
  rewrite rs_add_all_snoc, calls_in_snoc.
  set (rs1 := RotationSpace_calls.add_all calls rs) in *.
  destruct (rs_add_all_grid calls rs) as [Hb Hv]. fold rs1 in Hb, Hv.
  destruct (same_grid rs rs1 x.1.2 Hb Hv) as [Hout Hleaf].
  pose proof (rs_add_all_t_3dId calls rs) as Ht. fold rs1 in Ht.
  destruct (RotationSpace.outside rs x.1.2) eqn:Hx.
  { rewrite addRigidTransform_outside by congruence. cbn [fst snd].
    rewrite decide_False by (intros [? _]; discriminate). now rewrite app_nil_r. }
  destruct (addRigidTransform_step_inside rs1 x.1.1 x.1.2 x.2 ltac:(congruence))
    as (_ & Hat & Hother & _).
  rewrite Hleaf, Ht in Hat. rewrite Hleaf in Hother.
  destruct (decide (RotationSpace.leaf_of rs x.1.2 = leaf)) as [E|Hne].
  - rewrite decide_True by (split; [reflexivity | exact E]).
    rewrite E in Hat. rewrite Hat, IH.
    destruct (RotationSpace_calls.calls_in rs leaf calls) as [|y cs] eqn:Hcs.
    + reflexivity.
    + change ((y :: cs) ++ [x]) with (y :: (cs ++ [x])). cbv iota beta.
      f_equal. rewrite app_comm_cons, cell_add_all_snoc. reflexivity.
  - rewrite decide_False by (intros [_ ?]; contradiction).
    rewrite app_nil_r, Hother by congruence. exact IH.
Qed.

Lemma cell_add_all_ids (calls : list (N * vec3 * vec3)) (c : Cell.t) :
  Cell.rot_3dId_ (Cell_calls.add_all calls c) = Cell.rot_3dId_ c /\
  Cell.t_3dId_ (Cell_calls.add_all calls c) = Cell.t_3dId_ c.
Proof.
  induction calls as [|x calls IH] using rev_ind; [split; reflexivity|].
  rewrite cell_add_all_snoc. exact IH.
Qed.

End RotationSpace_extra3.

Section Clustering.
Local Open Scope R_scope.

(** A new rotation space has no cell. *)
Lemma cell_at_new (leaf : int3) : RotationSpace.cell_at RotationSpace.new leaf = None.
Proof.
  unfold RotationSpace.cell_at, ORROctree.getUserData. simpl. now rewrite lookup_empty.
Qed.

(** The cell of a leaf of a rotation space filled from a new one. *)
Lemma filled_cell (calls : list (N * vec3 * vec3)) (leaf : int3) (cell : Cell.t) :
  RotationSpace.cell_at (RotationSpace_calls.add_all calls RotationSpace.new) leaf = Some cell ->
  RotationSpace_calls.calls_in RotationSpace.new leaf calls <> [] /\
  cell = Cell_calls.add_all (RotationSpace_calls.calls_in RotationSpace.new leaf calls)
           (Cell.mk ∅ (Some leaf) None).
Proof.
  rewrite rs_add_all_cell, cell_at_new.
  destruct (RotationSpace_calls.calls_in RotationSpace.new leaf calls) as [|y cs].
  - discriminate.
  - intros H. split; [discriminate|].
    injection H as <-. reflexivity.
Qed.

(** The entries of a cell filled from an empty one. *)
Lemma filled_entry (cs : list (N * vec3 * vec3)) (ids : option int3 * option int3)
    (k : N) (e : Entry.t) :
  Cell.model_to_entry_ (Cell_calls.add_all cs (Cell.mk ∅ ids.1 ids.2)) !! k = Some e ->
  Cell_calls.calls_of k cs <> [] /\
  e = Entry_calls.add_all (Cell_calls.calls_of k cs) Entry.new.
Proof.
  intros H.
  assert (Hs : is_Some (Cell.model_to_entry_ (Cell_calls.add_all cs (Cell.mk ∅ ids.1 ids.2)) !! k))
    by eauto.
  apply cell_add_all_models in Hs as [Hs|Hs].
  { simpl in Hs. rewrite lookup_empty in Hs. now destruct Hs. }
  split; [now apply calls_of_nonempty|].
  pose proof (cell_add_all_entry cs (Cell.mk ∅ ids.1 ids.2) k) as He.
  unfold Cell.entry_of in He. rewrite H in He. simpl in He.
  rewrite lookup_empty in He. exact He.
Qed.

(** The hypotheses of the leaves of a list are placed at distinct (voxel,
    model) pairs, when the leaves are distinct and each cell records its
    leaf. *)
Lemma emitted_placed_NoDup (rs : RotationSpace.t) (l : list int3) :
  NoDup l ->
  (forall (leaf : int3) (cell : Cell.t),
     RotationSpace.cell_at rs leaf = Some cell -> Cell.rot_3dId_ cell = Some leaf) ->
  NoDup (RotationSpace_calls.placed <$> mjoin (RotationSpace_calls.emitted rs <$> l)) /\
  forall h : Hypothesis_t, h ∈ mjoin (RotationSpace_calls.emitted rs <$> l) ->
    exists leaf : int3, leaf ∈ l /\ hypo_rot_3dId_ h = Some leaf.
Proof.
  intros Hnd Hid.
  assert (Hone : forall leaf,
            NoDup (RotationSpace_calls.placed <$> RotationSpace_calls.emitted rs leaf) /\
            forall h, h ∈ RotationSpace_calls.emitted rs leaf -> hypo_rot_3dId_ h = Some leaf).
  { intros leaf. unfold RotationSpace_calls.emitted.
    destruct (RotationSpace.cell_at rs leaf) as [cell|] eqn:Hcell.
    - pose proof (Hid _ _ Hcell) as Hrot. split.
      + rewrite <- list_fmap_compose.
        assert (E : (RotationSpace_calls.placed ∘
                       (fun it : N * Entry.t =>
                          Cell.new_hypothesis cell it.1 (Entry.computeAverageRigidTransform it.2)))
                    <$> map_to_list (Cell.model_to_entry_ cell)
                    = (pair (Some leaf)) <$> (map_to_list (Cell.model_to_entry_ cell)).*1).
        { rewrite <- list_fmap_compose. apply list_fmap_ext. intros i [k e] _.
          unfold RotationSpace_calls.placed. simpl. now rewrite Hrot. }
        rewrite E. apply NoDup_fmap_2; [|apply NoDup_fst_map_to_list].
        intros a b Hab. congruence.
      + intros h Hh. apply list_elem_of_fmap in Hh as ([k e] & -> & _). exact Hrot.
    - split; [constructor | intros h Hh; inversion Hh]. }
  induction l as [|leaf l IH]; cbn [fmap list_fmap mjoin list_join].
  - split; [constructor | intros h Hh; inversion Hh].
  - apply NoDup_cons in Hnd as [Hnotin Hnd]. destruct (IH Hnd) as [IH1 IH2].
    destruct (Hone leaf) as [H1 H2]. split.
    + rewrite fmap_app. apply NoDup_app. split; [exact H1|]. split; [|exact IH1].
      intros p Hp Hp'.
      apply list_elem_of_fmap in Hp as (h & -> & Hh).
      apply list_elem_of_fmap in Hp' as (h' & Heq & Hh').
      apply H2 in Hh. destruct (IH2 _ Hh') as (leaf' & Hl' & Hrot').
      unfold RotationSpace_calls.placed in Heq. injection Heq as Heq _.
      rewrite Hh, Hrot' in Heq. injection Heq as ->. contradiction.
    + intros h [Hh|Hh]%elem_of_app.
      * exists leaf. split; [now left | now apply H2].
      * destruct (IH2 _ Hh) as (leaf' & Hl' & Hrot'). exists leaf'. split; [now right | exact Hrot'].
Qed.

(** X17.  Pose clustering.  After any sequence of insertions in a new
    rotation space (at most [INT_MAX] of them),
    [computeAverageRigidTransformInCells] appends to [out] exactly one
    hypothesis for each (voxel, model) pair that received at least one
    transform inside the bounds: it records the voxel and the model, its
    rotation is the matrix of the mean axis-angle of the transforms of the
    model that fell in the voxel, its translation the mean of their
    translations.  The transforms outside the bounds count nowhere. *)
Theorem pose_clustering (calls : list (N * vec3 * vec3)) (out : list Hypothesis_t)
    (counter : Z) :
  (Z.of_nat (length calls) <= INT_MAX)%Z ->
  (INT_MIN <= counter <= INT_MAX)%Z ->
  exists new : list Hypothesis_t,
    (RotationSpace.computeAverageRigidTransformInCells
       (RotationSpace_calls.add_all calls RotationSpace.new) out counter).1.2 = out ++ new /\
    NoDup (RotationSpace_calls.placed <$> new) /\
    (forall h : Hypothesis_t, h ∈ new ->
       exists leaf : int3,
         hypo_rot_3dId_ h = Some leaf /\
         Cell_calls.calls_of (obj_model_ h)
           (RotationSpace_calls.calls_in RotationSpace.new leaf calls) <> [] /\
         rigid_transform_rot h
         = Some (aux.axisAngleToRotationMatrix
                   (vmean (Cell_calls.calls_of (obj_model_ h)
                             (RotationSpace_calls.calls_in RotationSpace.new leaf calls)).*1)) /\
         rigid_transform_trans h
         = Some (vmean (Cell_calls.calls_of (obj_model_ h)
                          (RotationSpace_calls.calls_in RotationSpace.new leaf calls)).*2)) /\
    (forall (m : N) (v t : vec3),
       (m, v, t) ∈ calls -> RotationSpace.outside RotationSpace.new v = false ->
       exists h : Hypothesis_t,
         h ∈ new /\ obj_model_ h = m /\
         hypo_rot_3dId_ h = Some (RotationSpace.leaf_of RotationSpace.new v)).
Proof.
  intros Hmax Hc.
  set (rs := RotationSpace_calls.add_all calls RotationSpace.new).
  assert (Hwf : RotationSpace_calls.cells_listed rs).
  { subst rs. generalize cells_listed_new. generalize RotationSpace.new.
    intros rs0 H0. induction calls as [|x calls IH] using rev_ind; [exact H0|].
    rewrite rs_add_all_snoc. apply cells_listed_step. apply IH.
    rewrite length_app in Hmax. simpl in Hmax. lia. }
  destruct Hwf as (Hnd & Hin & Hid).
  exists (mjoin (RotationSpace_calls.emitted rs <$> RotationSpace.full_cells_ rs)).
  unfold RotationSpace.computeAverageRigidTransformInCells.
  destruct (cells_fold_spec (RotationSpace.full_cells_ rs) rs out counter Hnd Hc) as [Hout _].
  destruct (emitted_placed_NoDup rs (RotationSpace.full_cells_ rs) Hnd Hid) as [Hplaced Hleafs].
  split; [exact Hout|]. split; [exact Hplaced|]. split.
  - intros h Hh.
    apply list_elem_of_join in Hh as (hs & Hh & Hhs).
    apply list_elem_of_fmap in Hhs as (leaf & -> & Hleaf).
    unfold RotationSpace_calls.emitted in Hh.
    destruct (RotationSpace.cell_at rs leaf) as [cell|] eqn:Hcell; [|inversion Hh].
    apply list_elem_of_fmap in Hh as ([k e] & -> & Hke).
    apply elem_of_map_to_list in Hke.
    pose proof (Hid _ _ Hcell) as Hrot.
    subst rs. apply filled_cell in Hcell as [Hcs ->].
    apply (filled_entry _ (Some leaf, None)) in Hke as [Hk ->].
    exists leaf. cbn [fst snd]. unfold Cell.new_hypothesis; simpl.
    rewrite Hrot. split; [reflexivity|]. split; [exact Hk|].
    rewrite computeAverage_add_all_new; [simpl; split; reflexivity | exact Hk |].
    pose proof (calls_of_length k (RotationSpace_calls.calls_in RotationSpace.new leaf calls)).
    pose proof (length_filter
                  (fun mvt : N * vec3 * vec3 =>
                     RotationSpace.outside RotationSpace.new mvt.1.2 = false /\
                     RotationSpace.leaf_of RotationSpace.new mvt.1.2 = leaf) calls) as Hlen.
    unfold RotationSpace_calls.calls_in in *. lia.
  - intros m v t Hcall Hinside.
    set (leaf := RotationSpace.leaf_of RotationSpace.new v).
    assert (Hcs : (m, v, t) ∈ RotationSpace_calls.calls_in RotationSpace.new leaf calls).
    { apply list_elem_of_filter. split; [split; [exact Hinside | reflexivity] | exact Hcall]. }
    pose proof (rs_add_all_cell calls RotationSpace.new leaf) as Hcell. fold rs in Hcell.
    destruct (RotationSpace_calls.calls_in RotationSpace.new leaf calls) as [|y cs] eqn:Ecs;
      [inversion Hcs|].
    assert (Hm : is_Some (Cell.model_to_entry_
                            (Cell_calls.add_all (y :: cs)
                               (default (Cell.mk ∅ (Some leaf)
                                           (RotationSpace.t_3dId_ RotationSpace.new))
                                        (RotationSpace.cell_at RotationSpace.new leaf))) !! m)).
    { apply cell_add_all_models. right.
      apply list_elem_of_fmap. exists (m, v). split; [reflexivity|].
      apply list_elem_of_fmap. exists (m, v, t). split; [reflexivity | exact Hcs]. }
    cbv iota beta in Hcell.
    set (cell := Cell_calls.add_all _ _) in *.
    destruct Hm as [e He].
    exists (Cell.new_hypothesis cell m (Entry.computeAverageRigidTransform e)).
    split; [|split; [reflexivity|]].
    + apply list_elem_of_join. exists (RotationSpace_calls.emitted rs leaf). split.
      * unfold RotationSpace_calls.emitted. rewrite Hcell.
        apply list_elem_of_fmap. exists (m, e). split; [reflexivity|].
        now apply elem_of_map_to_list.
      * apply list_elem_of_fmap. exists leaf. split; [reflexivity|].
        apply Hin. rewrite Hcell. eauto.
    + unfold Cell.new_hypothesis; simpl. now apply Hid.
Qed.

(** No component of a vector exceeds its length. *)
Lemma component_le_length3 (v : vec3) :
  - aux.length3 v <= e0 v <= aux.length3 v /\
  - aux.length3 v <= e1 v <= aux.length3 v /\
  - aux.length3 v <= e2 v <= aux.length3 v.
Proof.
  pose proof (length3_sqr v) as Hs. pose proof (length3_nonneg v) as Hp.
  unfold aux.dot3 in Hs.
  repeat split; nra.
Qed.

(** X18.  The bounds of the rotation space hold every rotation: an
    axis-angle vector of length at most π is accepted, whatever was
    inserted before; the call returns [true], prints nothing, and the model
    has an entry in the cell of the voxel of the vector afterwards. *)
Theorem rotation_space_accepts_rotations (calls : list (N * vec3 * vec3)) (model : N)
    (axis_angle translation : vec3) :
  aux.length3 axis_angle <= PI ->
  let res := RotationSpace.addRigidTransform
               (RotationSpace_calls.add_all calls RotationSpace.new)
               model axis_angle translation in
  res.1.1 = true /\ res.2 = [] /\
  is_Some (RotationSpace.entry_at res.1.2
             (RotationSpace.leaf_of RotationSpace.new axis_angle) model).
Proof.
  intros Hlen.
  destruct (rs_add_all_grid calls RotationSpace.new) as [Hb Hv].
  destruct (same_grid RotationSpace.new (RotationSpace_calls.add_all calls RotationSpace.new)
              axis_angle Hb Hv) as [Hout Hleaf].
  assert (Hin : RotationSpace.outside RotationSpace.new axis_angle = false).
  { destruct (component_le_length3 axis_angle) as (H0 & H1 & H2).
    unfold RotationSpace.outside, ORROctree.out_of_bounds, Rltb; simpl.
    unfold aux.AUX_PI_FLOAT.
    repeat (match goal with |- context [Rlt_dec ?a ?b] => destruct (Rlt_dec a b); [lra|] end).
    reflexivity. }
  rewrite <- Hout in Hin.
  destruct (addRigidTransform_inside _ model axis_angle translation Hin)
    as (cell & rs' & Hadd & _ & Hcell & _).
  cbv zeta. rewrite Hadd. cbn [fst snd]. split; [reflexivity|]. split; [reflexivity|].
  unfold RotationSpace.entry_at. rewrite <- Hleaf, Hcell. cbn [mbind option_bind].
  unfold Cell.addRigidTransform. cbn [Cell.model_to_entry_].
  rewrite lookup_insert_eq. eauto.
Qed.

End Clustering.

(* ===================================================================== *)
(** * The test data of the recogniser *)
(* ===================================================================== *)

Section TestData.

(** X19.  [clearTestData] deletes exactly the accepted hypotheses: no
    pointer of the vector is left in the free store, every other object
    stays, both vectors are emptied; a second call does nothing more (no
    pointer is deleted twice), and the destructor leaves the same free
    store. *)
Theorem clearTestData_deletes_accepted (h : gmap N Hypothesis_t) (r : ObjRecRANSAC.t) :
  let w := ObjRecRANSAC.clearTestData h r in
  ObjRecRANSAC.getAcceptedHypotheses w.2 = [] /\
  ObjRecRANSAC.getSampledOrientedPointPairs w.2 = [] /\
  (forall p : N, p ∈ ObjRecRANSAC.accepted_hypotheses_ r -> w.1 !! p = None) /\
  (forall p : N, p ∉ ObjRecRANSAC.accepted_hypotheses_ r -> w.1 !! p = h !! p) /\
  ObjRecRANSAC.clearTestData w.1 w.2 = w /\
  (ObjRecRANSAC.destructor h r).1 = w.1.
Proof.
  cbv zeta. unfold ObjRecRANSAC.clearTestData, ObjRecRANSAC.destructor,
    ObjRecRANSAC.getAcceptedHypotheses, ObjRecRANSAC.getSampledOrientedPointPairs.
  cbn [fst snd ObjRecRANSAC.accepted_hypotheses_ ObjRecRANSAC.sampled_oriented_point_pairs_].
  split; [reflexivity|]. split; [reflexivity|]. split; [|split; [|split]].
  - intros p Hp. rewrite delete_all_lookup. now rewrite decide_True.
  - intros p Hp. rewrite delete_all_lookup. now rewrite decide_False.
  - reflexivity.
  - reflexivity.
Qed.

End TestData.

(* ===================================================================== *)
(** * Instances *)
(* ===================================================================== *)

Section Instances.
Local Open Scope R_scope.

(** The pair ((0,0,0),(2,0,0)) with normals (0,1,0) is aligned with the
    pair ((0,0,0),(0,2,0)) with normals (0,0,1). *)
Lemma computeRigidTransform_of_two_axis_pairs :
  exists T : rigid12,
    computeRigidTransform
      (V3 0 0 0) (V3 0 1 0) (V3 2 0 0) (V3 0 1 0)
      (V3 0 0 0) (V3 0 0 1) (V3 0 2 0) (V3 0 0 1) = Some T.
Proof.
  destruct frames_of_two_axis_pairs as (f & Hf & _).
  exists (computeRigidTransform_solve f). unfold computeRigidTransform. now rewrite Hf.
Qed.

(** The pair ((0,0,0),(2,0,0)) with normals (0,1,0) is aligned with itself. *)
Lemma computeRigidTransform_of_axis_pair_with_itself :
  exists T : rigid12,
    computeRigidTransform
      (V3 0 0 0) (V3 0 1 0) (V3 2 0 0) (V3 0 1 0)
      (V3 0 0 0) (V3 0 1 0) (V3 2 0 0) (V3 0 1 0) = Some T.
Proof.
  eexists. unfold computeRigidTransform.
  rewrite (frames_intro _ _ _ _ _ _ _ _
             (V3 1 0 0) (V3 1 0 0) (V3 0 1 0) (V3 0 1 0) (V3 0 1 0)
             (V3 0 1 0) (V3 0 1 0) (V3 0 1 0)).
  - reflexivity.
  - apply (normalize3_is _ _ 2); vec_lra.
  - apply (normalize3_is _ _ 2); vec_lra.
  - apply (normalize3_is _ _ 1); vec_lra.
  - apply (normalize3_is _ _ 1); vec_lra.
  - apply (normalize3_is _ _ 2); vec_lra.
  - apply (normalize3_is _ _ 1); vec_lra.
  - apply (normalize3_is _ _ 1); vec_lra.
  - apply (normalize3_is _ _ 2); vec_lra.
Qed.

(** The quarter turn about the z-axis is a rotation. *)
Lemma quarter_turn_rotation : rotation_matrix (M3 0 (-1) 0 1 0 0 0 0 1).
Proof.
  unfold rotation_matrix, orthogonal_matrix, orthonormal, col0, col1, col2, aux.dot3,
    aux.cross3; simpl.
  split; [repeat split; lra | f_equal; lra].
Qed.

(** The signature of the points (0,0,0) and (1,0,0) with normals (0,0,1). *)
Lemma signature_of_unit_chord :
  exists s : vec3,
    compute_oriented_point_pair_signature (V3 0 0 0) (V3 0 0 1) (V3 1 0 0) (V3 0 0 1) = Some s.
Proof.
  eexists. apply (signature_of_chord _ _ _ _ (V3 1 0 0)).
  apply (normalize3_is _ _ 1); vec_lra.
Qed.

(** The null vector has length 0. *)
Lemma length3_null : aux.length3 (V3 0 0 0) = 0.
Proof.
  unfold aux.length3, aux.dot3; simpl.
  replace (0 * 0 + 0 * 0 + 0 * 0) with 0 by lra. apply sqrt_0.
Qed.

Lemma computeRigidTransform_maps_line_witness :
  exists T : rigid12,
    computeRigidTransform
      (V3 0 0 0) (V3 0 1 0) (V3 2 0 0) (V3 0 1 0)
      (V3 0 0 0) (V3 0 0 1) (V3 0 2 0) (V3 0 0 1) = Some T /\
    apply_rigid T (V3 0 0 0) = V3 0 0 0 /\ apply_rigid T (V3 2 0 0) = V3 0 2 0.
Proof.
  destruct computeRigidTransform_of_two_axis_pairs as [T HT].
  destruct (computeRigidTransform_maps_line _ _ _ _ _ _ _ _ T HT)
    as (u1 & u2 & _ & _ & _ & Hends).
  exists T. split; [exact HT|]. apply Hends.
  unfold aux.length3, aux.dot3, aux.diff3; simpl. f_equal. lra.
Defined.

Lemma computeRigidTransform_is_rigid_witness :
  exists T : rigid12,
    computeRigidTransform
      (V3 0 0 0) (V3 0 1 0) (V3 2 0 0) (V3 0 1 0)
      (V3 0 0 0) (V3 0 0 1) (V3 0 2 0) (V3 0 0 1) = Some T /\
    rotation_matrix (rot9 T) /\
    sqr_dist (apply_rigid T (V3 0 0 0)) (apply_rigid T (V3 2 0 0))
    = sqr_dist (V3 0 0 0) (V3 2 0 0).
Proof.
  destruct computeRigidTransform_of_two_axis_pairs as [T HT].
  destruct (computeRigidTransform_is_rigid _ _ _ _ _ _ _ _ T HT) as (HR & _ & Hd).
  exists T. split; [exact HT|]. split; [exact HR | apply Hd].
Defined.

Lemma computeRigidTransform_recovers_motion_witness :
  rotation_matrix (M3 0 (-1) 0 1 0 0 0 0 1) /\
  exists T0 : rigid12,
    computeRigidTransform
      (V3 0 0 0) (V3 0 1 0) (V3 2 0 0) (V3 0 1 0)
      (V3 0 0 0) (V3 0 1 0) (V3 2 0 0) (V3 0 1 0) = Some T0 /\
    computeRigidTransform
      (V3 0 0 0) (V3 0 1 0) (V3 2 0 0) (V3 0 1 0)
      (move (M3 0 (-1) 0 1 0 0 0 0 1) (V3 1 2 3) (V3 0 0 0))
      (aux.mult3x3 (M3 0 (-1) 0 1 0 0 0 0 1) (V3 0 1 0))
      (move (M3 0 (-1) 0 1 0 0 0 0 1) (V3 1 2 3) (V3 2 0 0))
      (aux.mult3x3 (M3 0 (-1) 0 1 0 0 0 0 1) (V3 0 1 0))
    = Some (Rigid12 (M3 0 (-1) 0 1 0 0 0 0 1) (V3 1 2 3)) /\
    T0 = Rigid12 (M3 1 0 0 0 1 0 0 0 1) (V3 0 0 0).
Proof.
  split; [exact quarter_turn_rotation|].
  destruct computeRigidTransform_of_axis_pair_with_itself as [T0 HT0].
  exists T0. split; [exact HT0|].
  exact (computeRigidTransform_recovers_motion _ _ _ _ _ (V3 1 2 3) T0
           quarter_turn_rotation HT0).
Defined.

Lemma computeRigidTransform_swap_inverse_witness :
  exists T T' : rigid12,
    computeRigidTransform
      (V3 0 0 0) (V3 0 1 0) (V3 2 0 0) (V3 0 1 0)
      (V3 0 0 0) (V3 0 0 1) (V3 0 2 0) (V3 0 0 1) = Some T /\
    computeRigidTransform
      (V3 0 0 0) (V3 0 0 1) (V3 0 2 0) (V3 0 0 1)
      (V3 0 0 0) (V3 0 1 0) (V3 2 0 0) (V3 0 1 0) = Some T' /\
    apply_rigid T' (apply_rigid T (V3 1 2 3)) = V3 1 2 3.
Proof.
  destruct computeRigidTransform_of_two_axis_pairs as [T HT].
  destruct (computeRigidTransform_swap_inverse _ _ _ _ _ _ _ _ T HT) as (T' & HT' & Hinv & _).
  exists T, T'. split; [exact HT|]. split; [exact HT' | apply Hinv].
Defined.


Lemma signature_swap_witness :
  exists s : vec3,
    compute_oriented_point_pair_signature (V3 0 0 0) (V3 0 0 1) (V3 1 0 0) (V3 0 0 1) = Some s /\
    compute_oriented_point_pair_signature (V3 1 0 0) (V3 0 0 1) (V3 0 0 0) (V3 0 0 1)
    = Some (swap_angles s).
Proof.
  destruct signature_of_unit_chord as [s Hs].
  exists s. split; [exact Hs | exact (signature_swap _ _ _ _ s Hs)].
Defined.

Lemma signature_rigid_invariant_witness :
  orthogonal_matrix (M3 0 (-1) 0 1 0 0 0 0 1) /\
  compute_oriented_point_pair_signature
    (move (M3 0 (-1) 0 1 0 0 0 0 1) (V3 1 2 3) (V3 0 0 0))
    (aux.mult3x3 (M3 0 (-1) 0 1 0 0 0 0 1) (V3 0 0 1))
    (move (M3 0 (-1) 0 1 0 0 0 0 1) (V3 1 2 3) (V3 1 0 0))
    (aux.mult3x3 (M3 0 (-1) 0 1 0 0 0 0 1) (V3 0 0 1))
  = compute_oriented_point_pair_signature (V3 0 0 0) (V3 0 0 1) (V3 1 0 0) (V3 0 0 1).
Proof.
  split; [exact (proj1 quarter_turn_rotation)|].
  exact (signature_rigid_invariant _ (V3 1 2 3) (V3 0 0 0) (V3 0 0 1) (V3 1 0 0) (V3 0 0 1)
           (proj1 quarter_turn_rotation)).
Defined.

Lemma computeNumberOfIterations_undefined_witness :
  computeNumberOfIterations 1 1 = None.
Proof.
  apply (proj1 (computeNumberOfIterations_undefined 1 1)); lra.
Defined.

Lemma entry_accumulates_witness :
  Entry_calls.add_all [(V3 1 0 0, V3 0 0 1); (V3 0 1 0, V3 0 0 3)] Entry.new
  = Entry.mk (vsum [V3 1 0 0; V3 0 1 0]) (vsum [V3 0 0 1; V3 0 0 3]) 2.
Proof.
  apply (entry_accumulates [(V3 1 0 0, V3 0 0 1); (V3 0 1 0, V3 0 0 3)]).
  vm_compute. discriminate.
Defined.

Lemma average_insert_average_witness :
  Entry.computeAverageRigidTransform
    (Entry.addRigidTransform
       (Entry.computeAverageRigidTransform
          (Entry_calls.add_all [(V3 1 0 0, V3 0 0 1); (V3 0 1 0, V3 0 0 3)] Entry.new))
       (V3 0 0 1) (V3 0 0 5))
  = Entry.mk (vmean [vmean [V3 1 0 0; V3 0 1 0]; V3 0 0 1])
             (vmean [vmean [V3 0 0 1; V3 0 0 3]; V3 0 0 5]) 1.
Proof.
  apply (average_insert_average [(V3 1 0 0, V3 0 0 1); (V3 0 1 0, V3 0 0 3)]).
  - discriminate.
  - vm_compute. discriminate.
Defined.

Lemma cells_listed_invariant_witness :
  RotationSpace_calls.cells_listed RotationSpace.new /\
  RotationSpace_calls.cells_listed
    (RotationSpace_calls.add_all [(1%N, V3 0 0 0, V3 1 2 3); (2%N, V3 0 0 0, V3 3 2 1)]
       RotationSpace.new).
Proof.
  split; [exact cells_listed_new|].
  exact (proj1 (cells_listed_invariant
                  [(1%N, V3 0 0 0, V3 1 2 3); (2%N, V3 0 0 0, V3 3 2 1)]
                  RotationSpace.new cells_listed_new)).
Defined.

Lemma computeAverageRigidTransformInCells_counter_witness :
  let rs := (RotationSpace.addRigidTransform RotationSpace.new 1%N (V3 0 0 0) (V3 1 2 3)).1.2 in
  NoDup (RotationSpace.full_cells_ rs) /\
  (RotationSpace.computeAverageRigidTransformInCells rs [] 0).2
  = int_wrap (0 + Z.of_nat (length (mjoin (RotationSpace_calls.emitted rs
                                             <$> RotationSpace.full_cells_ rs)))).
Proof.
  cbv zeta.
  pose proof (cells_listed_step RotationSpace.new 1%N (V3 0 0 0) (V3 1 2 3) cells_listed_new)
    as (Hnd & _).
  split; [exact Hnd|].
  refine (proj1 (proj2 (computeAverageRigidTransformInCells_counter _ [] 0 Hnd _))).
  vm_compute. split; discriminate.
Defined.

Lemma pose_clustering_witness :
  exists new : list Hypothesis_t,
    (RotationSpace.computeAverageRigidTransformInCells
       (RotationSpace_calls.add_all
          [(1%N, V3 0 0 0, V3 1 2 3); (1%N, V3 0 0 0, V3 3 2 1); (2%N, V3 4 0 0, V3 0 0 0)]
          RotationSpace.new) [] 0).1.2 = [] ++ new /\
    NoDup (RotationSpace_calls.placed <$> new).
Proof.
  destruct (pose_clustering
              [(1%N, V3 0 0 0, V3 1 2 3); (1%N, V3 0 0 0, V3 3 2 1); (2%N, V3 4 0 0, V3 0 0 0)]
              [] 0) as (new & Hout & Hnd & _).
  - vm_compute. discriminate.
  - vm_compute. split; discriminate.
  - exists new. split; [exact Hout | exact Hnd].
Defined.

Lemma rotation_space_accepts_rotations_witness :
  aux.length3 (V3 0 0 0) <= PI /\
  (RotationSpace.addRigidTransform
     (RotationSpace_calls.add_all [(1%N, V3 4 0 0, V3 0 0 0)] RotationSpace.new)
     2%N (V3 0 0 0) (V3 1 2 3)).1.1 = true.
Proof.
  assert (H : aux.length3 (V3 0 0 0) <= PI).
  { rewrite length3_null. pose proof PI_RGT_0. lra. }
  split; [exact H|].
  exact (proj1 (rotation_space_accepts_rotations [(1%N, V3 4 0 0, V3 0 0 0)] 2%N
                  (V3 0 0 0) (V3 1 2 3) H)).
Defined.

End Instances.
